(** * use-time-hooks: the retry orchestrator and the batch coalescer

    A shallow embedding of [useRetry] and [useBatchedUpdates].

    Modelling conventions, shared by both hooks:
    - a hook instance is a record holding its React state cells, its refs and
      the part of the host it talks to: the table of armed timers
      ([setTimeout] inserts under a fresh handle, [clearTimeout] deletes, a
      timer that fires is removed and its callback run), the wall clock read
      by [Date.now()], and the log of the user callbacks invoked so far;
    - the functional state updaters passed to [setState] are run at the point
      of the call, in call order (one logical execution queue);
    - JavaScript numbers are idealised in the two state machines:
      milliseconds and multipliers of the retry hook are exact rationals,
      attempt numbers and sizes are integers; the bounds on the backoff
      delay are stated on [Doubles.calculateDelay], which computes on
      numbers with their special values ([Infinity], [NaN], overflow) and
      agrees with the exact [Retry.calculateDelay] where nothing overflows;
    - timer handles are positive, so that the truthiness tests
      [if (timeoutRef.current)] succeed exactly when a handle is stored;
    - a timer may fire at any time while it is armed: the runs quantified
      over include every order the host can produce, and more;
    - a re-render follows each handler of the batching hook (one handler
      per tick), so that the refs its effects synchronise
      ([pendingUpdatesRef], [hasPendingUpdatesRef]) are up to date when the
      next handler runs; within a commit the clean-ups run before the
      effects, on the refs of the previous commit. *)

From Stdlib Require Import ZArith QArith Qminmax Qpower Lia.
From stdpp Require Import base option list gmap.

Set Implicit Arguments.

(* ===================================================================== *)
(** ** useRetry                                                           *)
(* ===================================================================== *)

Module Retry.

Section WithTypes.

(** [T]: what the operation resolves with; [E]: what it may throw. *)
Variables T E : Type.

Record RetryOptions := {
  maxAttempts : Z;
  initialDelay : Q;
  backoffMultiplier : Q;
  maxDelay : Q;
  useExponentialBackoff : bool;
  shouldRetry : E -> Z -> bool
}.

Record RetryState := {
  isRetrying : bool;
  currentAttempt : Z;
  lastError : option E;
  timeUntilNextRetry : Q;
  totalAttempts : Z
}.

Definition DEFAULT_OPTIONS : RetryOptions :=
  {| maxAttempts := 3;
     initialDelay := 1000;
     backoffMultiplier := 2;
     maxDelay := 30000;
     useExponentialBackoff := true;
     shouldRetry := fun _ _ => true |}.

(** The user callbacks ([onRetry], [onMaxAttemptsReached]), the retry
    predicate and the wrapped operation are observed through the log. *)
Inductive Event :=
| EvOperation
| EvShouldRetry (error : E) (attemptNumber : Z)
| EvOnRetry (error : E) (attemptNumber : Z) (nextDelay : Q)
| EvOnMaxAttemptsReached (lastError : E) (totalAttempts : Z).

(** What [execute()]'s promise can be rejected with: the value thrown by the
    operation, verbatim, or [new Error('Operation cancelled')]. *)
Inductive Thrown :=
| OperationError (error : E)
| OperationCancelled.

Inductive Outcome :=
| Pending
| Resolved (result : T)
| Rejected (reason : Thrown).

(** Callbacks handed to [setTimeout]. *)
Inductive TimerCb :=
| CbAttempt (attemptNumber : Z)
| CbCountdown (startTime totalDelay : Q).

Record Timer := { cb : TimerCb; delay : Q }.

Record Hook := {
  state : RetryState;
  timeoutRef : option nat;
  countdownRef : option nat;
  cancelledRef : bool;
  (** [Some n]: [attemptOperation(n)] is suspended at [await operation(...)] *)
  awaiting : option Z;
  promise : Outcome;
  timers : gmap nat Timer;
  nextHandle : nat;
  clock : Q;
  log : list Event
}.

Definition initialState : RetryState :=
  {| isRetrying := false; currentAttempt := 0; lastError := None;
     timeUntilNextRetry := 0; totalAttempts := 0 |}.

Definition mount : Hook :=
  {| state := initialState; timeoutRef := None; countdownRef := None;
     cancelledRef := false; awaiting := None; promise := Pending;
     timers := ∅; nextHandle := 1; clock := 0; log := [] |}.

(** *** Field updates *)

Definition setState (f : RetryState -> RetryState) (h : Hook) : Hook :=
  {| state := f (state h); timeoutRef := timeoutRef h;
     countdownRef := countdownRef h; cancelledRef := cancelledRef h;
     awaiting := awaiting h; promise := promise h; timers := timers h;
     nextHandle := nextHandle h; clock := clock h; log := log h |}.

Definition setTimeoutRef (r : option nat) (h : Hook) : Hook :=
  {| state := state h; timeoutRef := r;
     countdownRef := countdownRef h; cancelledRef := cancelledRef h;
     awaiting := awaiting h; promise := promise h; timers := timers h;
     nextHandle := nextHandle h; clock := clock h; log := log h |}.

Definition setCountdownRef (r : option nat) (h : Hook) : Hook :=
  {| state := state h; timeoutRef := timeoutRef h;
     countdownRef := r; cancelledRef := cancelledRef h;
     awaiting := awaiting h; promise := promise h; timers := timers h;
     nextHandle := nextHandle h; clock := clock h; log := log h |}.

Definition setCancelledRef (b : bool) (h : Hook) : Hook :=
  {| state := state h; timeoutRef := timeoutRef h;
     countdownRef := countdownRef h; cancelledRef := b;
     awaiting := awaiting h; promise := promise h; timers := timers h;
     nextHandle := nextHandle h; clock := clock h; log := log h |}.

Definition setAwaiting (a : option Z) (h : Hook) : Hook :=
  {| state := state h; timeoutRef := timeoutRef h;
     countdownRef := countdownRef h; cancelledRef := cancelledRef h;
     awaiting := a; promise := promise h; timers := timers h;
     nextHandle := nextHandle h; clock := clock h; log := log h |}.

Definition settle (o : Outcome) (h : Hook) : Hook :=
  {| state := state h; timeoutRef := timeoutRef h;
     countdownRef := countdownRef h; cancelledRef := cancelledRef h;
     awaiting := awaiting h; promise := o; timers := timers h;
     nextHandle := nextHandle h; clock := clock h; log := log h |}.

Definition setTimers (m : gmap nat Timer) (h : Hook) : Hook :=
  {| state := state h; timeoutRef := timeoutRef h;
     countdownRef := countdownRef h; cancelledRef := cancelledRef h;
     awaiting := awaiting h; promise := promise h; timers := m;
     nextHandle := nextHandle h; clock := clock h; log := log h |}.

Definition setClock (t : Q) (h : Hook) : Hook :=
  {| state := state h; timeoutRef := timeoutRef h;
     countdownRef := countdownRef h; cancelledRef := cancelledRef h;
     awaiting := awaiting h; promise := promise h; timers := timers h;
     nextHandle := nextHandle h; clock := t; log := log h |}.

Definition emit (e : Event) (h : Hook) : Hook :=
  {| state := state h; timeoutRef := timeoutRef h;
     countdownRef := countdownRef h; cancelledRef := cancelledRef h;
     awaiting := awaiting h; promise := promise h; timers := timers h;
     nextHandle := nextHandle h; clock := clock h; log := log h ++ [e] |}.

(** *** The host's timer primitive *)

Definition setTimeout (c : TimerCb) (d : Q) (h : Hook) : nat * Hook :=
  (nextHandle h,
   {| state := state h; timeoutRef := timeoutRef h;
      countdownRef := countdownRef h; cancelledRef := cancelledRef h;
      awaiting := awaiting h; promise := promise h;
      timers := <[nextHandle h := {| cb := c; delay := d |}]> (timers h);
      nextHandle := S (nextHandle h); clock := clock h; log := log h |}).

Definition clearTimeout (i : nat) (h : Hook) : Hook :=
  setTimers (delete i (timers h)) h.

(** *** The hook *)

Variable opts : RetryOptions.

(** [calculateDelay(attemptNumber)] *)
Definition calculateDelay (attemptNumber : Z) : Q :=
  if negb (useExponentialBackoff opts) then initialDelay opts
  else
    let delay :=
      (initialDelay opts * backoffMultiplier opts ^ (attemptNumber - 1))%Q in
    Qmin delay (maxDelay opts).

Definition Qpositive (q : Q) : bool := negb (Qle_bool q 0).

(** [updateCountdown], closed over [startTime] and [totalDelay] *)
Definition updateCountdown (startTime totalDelay : Q) (h : Hook) : Hook :=
  let elapsed := (clock h - startTime)%Q in
  let remaining := Qmax 0 (totalDelay - elapsed) in
  let h := setState (fun prev =>
    {| isRetrying := isRetrying prev; currentAttempt := currentAttempt prev;
       lastError := lastError prev; timeUntilNextRetry := remaining;
       totalAttempts := totalAttempts prev |}) h in
  if Qpositive remaining && negb (cancelledRef h) then
    let '(i, h) := setTimeout (CbCountdown startTime totalDelay) 100 h in
    setCountdownRef (Some i) h
  else h.

Definition startCountdown (totalDelay : Q) (h : Hook) : Hook :=
  let startTime := clock h in
  updateCountdown startTime totalDelay h.

(** [attemptOperation(attemptNumber)], up to its suspension at
    [await operation(...args)] *)
Definition attemptOperation (attemptNumber : Z) (h : Hook) : Hook :=
  if cancelledRef h then settle (Rejected OperationCancelled) h
  else
    let h := setState (fun prev =>
      {| isRetrying := isRetrying prev; currentAttempt := attemptNumber;
         lastError := lastError prev;
         timeUntilNextRetry := timeUntilNextRetry prev;
         totalAttempts := attemptNumber + 1 |}) h in
    let h := emit EvOperation h in
    setAwaiting (Some attemptNumber) h.

Definition finished (prev : RetryState) : RetryState :=
  {| isRetrying := false; currentAttempt := currentAttempt prev;
     lastError := lastError prev; timeUntilNextRetry := 0;
     totalAttempts := totalAttempts prev |}.

(** The rest of [attemptOperation(attemptNumber)], resumed when the awaited
    operation has settled: [inl result] for a resolution, [inr error] for a
    rejection or a throw. *)
Definition resume (r : T + E) (h : Hook) : Hook :=
  match awaiting h with
  | None => h
  | Some attemptNumber =>
    let h := setAwaiting None h in
    match r with
    | inl result =>
      let h := setState finished h in
      settle (Resolved result) h
    | inr error =>
      let h := setState (fun prev =>
        {| isRetrying := isRetrying prev;
           currentAttempt := currentAttempt prev;
           lastError := Some error;
           timeUntilNextRetry := timeUntilNextRetry prev;
           totalAttempts := totalAttempts prev |}) h in
      let h := emit (EvShouldRetry error attemptNumber) h in
      let shouldRetry_ := shouldRetry opts error attemptNumber in
      let hasAttemptsLeft := (attemptNumber <? maxAttempts opts)%Z in
      if negb shouldRetry_ || negb hasAttemptsLeft || cancelledRef h then
        let h := setState finished h in
        let h :=
          if negb hasAttemptsLeft
          then emit (EvOnMaxAttemptsReached error (attemptNumber + 1)) h
          else h in
        settle (Rejected (OperationError error)) h
      else
        let delay := calculateDelay (attemptNumber + 1) in
        let h := emit (EvOnRetry error (attemptNumber + 1) delay) h in
        let h := startCountdown delay h in
        let '(i, h) := setTimeout (CbAttempt (attemptNumber + 1)) delay h in
        setTimeoutRef (Some i) h
    end
  end.

(** [execute(...args)], up to the first suspension *)
Definition execute (h : Hook) : Hook :=
  let h := setCancelledRef false h in
  let h := setState (fun prev =>
    {| isRetrying := true; currentAttempt := 0; lastError := None;
       timeUntilNextRetry := 0; totalAttempts := 0 |}) h in
  let h := settle Pending h in
  attemptOperation 0 h.

Definition cancel (h : Hook) : Hook :=
  let h := setCancelledRef true h in
  let h :=
    match timeoutRef h with
    | Some i => setTimeoutRef None (clearTimeout i h)
    | None => h
    end in
  let h :=
    match countdownRef h with
    | Some i => setCountdownRef None (clearTimeout i h)
    | None => h
    end in
  setState finished h.

Definition reset (h : Hook) : Hook :=
  let h := cancel h in
  setState (fun _ => initialState) h.

(** A timer of the host fires: it leaves the table and its callback runs.
    The callback of the retry timer is
    [attemptOperation(n + 1).then(resolve).catch(reject)], which forwards the
    settlement to the promise [execute()] returned. *)
Definition fire (i : nat) (h : Hook) : Hook :=
  match timers h !! i with
  | None => h
  | Some t =>
    let h := setTimers (delete i (timers h)) h in
    match cb t with
    | CbAttempt n => attemptOperation n h
    | CbCountdown startTime totalDelay => updateCountdown startTime totalDelay h
    end
  end.

(** What can happen to a hook once [execute()] has been called, up to the
    next call of [execute()]: one call is followed at a time. *)
Inductive Input :=
| Settles (r : T + E)
| Fires (i : nat)
| Cancel
| Reset
| Advance (dt : Q).

Definition step (h : Hook) (inp : Input) : Hook :=
  match inp with
  | Settles r => resume r h
  | Fires i => fire i h
  | Cancel => cancel h
  | Reset => reset h
  | Advance dt => setClock (clock h + dt)%Q h
  end.

Definition run (ins : list Input) (h : Hook) : Hook := fold_left step ins h.

(** *** Observations on the log *)

Definition operationCalls (l : list Event) : Z :=
  Z.of_nat (length (List.filter
    (fun ev => match ev with EvOperation => true | _ => false end) l)).

Definition maxAttemptsReachedCalls (l : list Event) : list (E * Z) :=
  flat_map (fun ev =>
    match ev with
    | EvOnMaxAttemptsReached error total => [(error, total)]
    | _ => []
    end) l.

Definition retryDelays (l : list Event) : list Q :=
  flat_map (fun ev =>
    match ev with EvOnRetry _ _ nextDelay => [nextDelay] | _ => [] end) l.

(** *** A permanently failing operation

    Inputs under which the operation never resolves and nobody calls
    [cancel()] or [reset()]. *)
Definition failing (inp : Input) : Prop :=
  match inp with
  | Settles (inl _) | Cancel | Reset => False
  | _ => True
  end.

(** Inputs other than a call to [reset()]. *)
Definition notReset (inp : Input) : Prop :=
  match inp with Reset => False | _ => True end.

(** The retry timer, when it is armed. *)
Definition armedRetry (h : Hook) : option nat :=
  match timeoutRef h with
  | Some i =>
    match timers h !! i with
    | Some {| cb := CbAttempt _ |} => Some i
    | _ => None
    end
  | None => None
  end.

(** The schedule in which attempt [n] is rejected with [errors n] and the
    retry timer armed by each rejection fires. [fuel] bounds its length. *)
Fixpoint failingSchedule (errors : Z -> E) (fuel : nat) (h : Hook)
  : list Input :=
  match fuel with
  | O => []
  | S fuel =>
    match awaiting h with
    | Some n =>
      let inp := Settles (inr (errors n)) in
      inp :: failingSchedule errors fuel (step h inp)
    | None =>
      match armedRetry h with
      | Some i => Fires i :: failingSchedule errors fuel (step h (Fires i))
      | None => []
      end
    end
  end.

(** *** Phases of one [execute()] call and facts about the timer table *)

(** Handles in use are below the next one the host will hand out. *)
Definition fresh (h : Hook) : Prop :=
  forall i, is_Some (timers h !! i) -> i < nextHandle h.

Definition noRetryTimer (h : Hook) : Prop :=
  forall i t n, timers h !! i = Some t -> cb t <> CbAttempt n.

Definition onlyRetryTimer (i : nat) (h : Hook) : Prop :=
  forall j t n, timers h !! j = Some t -> cb t = CbAttempt n -> j = i.

(** Attempt [n] of a so far permanently failing operation is in flight. *)
Definition Attempting (n : Z) (h : Hook) : Prop :=
  awaiting h = Some n /\ promise h = Pending /\ cancelledRef h = false /\
  operationCalls (log h) = (n + 1)%Z /\
  maxAttemptsReachedCalls (log h) = [] /\
  noRetryTimer h.

(** Attempt [n] has failed and the timer of attempt [n + 1] is armed. *)
Definition Waiting (n : Z) (h : Hook) : Prop :=
  awaiting h = None /\ promise h = Pending /\ cancelledRef h = false /\
  operationCalls (log h) = (n + 1)%Z /\
  maxAttemptsReachedCalls (log h) = [] /\
  exists i d,
    timeoutRef h = Some i /\
    timers h !! i = Some {| cb := CbAttempt (n + 1); delay := d |} /\
    onlyRetryTimer i h.

(** The attempts are exhausted; [error] was the last one thrown. *)
Definition Exhausted (error : E) (h : Hook) : Prop :=
  awaiting h = None /\ promise h = Rejected (OperationError error) /\
  cancelledRef h = false /\
  lastError (state h) = Some error /\
  operationCalls (log h) = (maxAttempts opts + 1)%Z /\
  maxAttemptsReachedCalls (log h) = [(error, (maxAttempts opts + 1)%Z)] /\
  noRetryTimer h.

Definition FailingRun (h : Hook) : Prop :=
  fresh h /\
  ((exists n, (0 <= n <= maxAttempts opts)%Z /\ Attempting n h) \/
   (exists n, (0 <= n < maxAttempts opts)%Z /\ Waiting n h) \/
   (exists error, Exhausted error h)).

(** Nothing is left that could settle the promise: no attempt is in flight
    and no retry timer is armed, yet the promise is pending. *)
Definition Stranded (h : Hook) : Prop :=
  awaiting h = None /\ promise h = Pending /\ noRetryTimer h.

(** *** Any run of one [execute()] call *)

(** Inputs other than [cancel()] and [reset()]. *)
Definition uncancelled (inp : Input) : Prop :=
  match inp with Cancel | Reset => False | _ => True end.

(** No attempt is in flight and no retry timer is armed. *)
Definition Idle (h : Hook) : Prop := awaiting h = None /\ noRetryTimer h.

(** Attempts run one at a time and within the budget: the attempt in flight
    is the last one started, a retry timer is armed only between attempts
    and is the one [timeoutRef] holds, and [onMaxAttemptsReached] has been
    told the number of calls made. *)
Definition Orderly (h : Hook) : Prop :=
  let calls := operationCalls (log h) in
  (1 <= calls <= Z.max 0 (maxAttempts opts) + 1)%Z /\
  (forall n, awaiting h = Some n -> calls = (n + 1)%Z /\ promise h = Pending) /\
  (forall j t m,
     timers h !! j = Some t -> cb t = CbAttempt m ->
     awaiting h = None /\ timeoutRef h = Some j /\ promise h = Pending /\
     calls = m /\ (m <= maxAttempts opts)%Z) /\
  (maxAttemptsReachedCalls (log h) = [] \/
   exists error,
     maxAttemptsReachedCalls (log h) = [(error, calls)] /\
     (maxAttempts opts < calls)%Z /\
     promise h = Rejected (OperationError error) /\ Idle h).

(** The snapshot counts the calls made. *)
Definition Published (h : Hook) : Prop :=
  totalAttempts (state h) = operationCalls (log h) /\
  currentAttempt (state h) = (operationCalls (log h) - 1)%Z.

(** The schedule in which attempt [n] settles with [outcomes n] and the
    retry timer armed by each rejection fires. [fuel] bounds its length. *)
Fixpoint scriptedSchedule (outcomes : Z -> T + E) (fuel : nat) (h : Hook)
  : list Input :=
  match fuel with
  | O => []
  | S fuel =>
    match awaiting h with
    | Some n =>
      let inp := Settles (outcomes n) in
      inp :: scriptedSchedule outcomes fuel (step h inp)
    | None =>
      match armedRetry h with
      | Some i => Fires i :: scriptedSchedule outcomes fuel (step h (Fires i))
      | None => []
      end
    end
  end.

End WithTypes.

Arguments EvOperation {E}.
Arguments OperationCancelled {E}.
Arguments Pending {T E}.
Arguments Resolved {T E} result.
Arguments Rejected {T E} reason.
Arguments initialState {E}.
Arguments mount {T E}.
Arguments Fires {T E} i.
Arguments Cancel {T E}.
Arguments Reset {T E}.
Arguments Advance {T E} dt.

(** Configurations used in the examples; errors are numbers. *)

Definition countingOptions : RetryOptions nat :=
  {| maxAttempts := 3; initialDelay := 100; backoffMultiplier := 2;
     maxDelay := 30000; useExponentialBackoff := true;
     shouldRetry := fun _ _ => true |}.

(** No retry at all: the first failure exhausts the budget. *)
Definition exhaustedOptions : RetryOptions nat :=
  {| maxAttempts := 0; initialDelay := 1000; backoffMultiplier := 2;
     maxDelay := 30000; useExponentialBackoff := true;
     shouldRetry := fun _ _ => true |}.

(** A fixed delay of one minute between attempts. *)
Definition fixedDelayOptions : RetryOptions nat :=
  {| maxAttempts := 3; initialDelay := 60000; backoffMultiplier := 2;
     maxDelay := 30000; useExponentialBackoff := false;
     shouldRetry := fun _ _ => true |}.

End Retry.

(* ===================================================================== *)
(** ** JavaScript numbers with their special values                       *)
(* ===================================================================== *)

Module Doubles.

Import Retry.

(** A JavaScript number: a finite value, an infinity or [NaN].  Finite
    values are kept exact; what is modelled of binary64 is its special
    values and overflow: a finite result whose magnitude reaches
    [2^1024 - 2^970], the least magnitude that round-to-nearest does not
    map to a finite double, is the infinity of its sign.  Zero has one
    sign. *)
Inductive Number :=
| Finite (q : Q)
| PosInfinity
| NegInfinity
| NaN.

Definition overflowThreshold : Q := inject_Z (2 ^ 1024 - 2 ^ 970).

Definition round (q : Q) : Number :=
  if Qle_bool overflowThreshold q then PosInfinity
  else if Qle_bool q (- overflowThreshold) then NegInfinity
  else Finite q.

(** An infinity times the finite [q]. *)
Definition scale (positive : bool) (q : Q) : Number :=
  if Qeq_bool q 0 then NaN
  else if Bool.eqb positive (negb (Qle_bool q 0)) then PosInfinity
  else NegInfinity.

(** [a * b] *)
Definition times (a b : Number) : Number :=
  match a, b with
  | NaN, _ | _, NaN => NaN
  | Finite x, Finite y => round (x * y)
  | Finite x, PosInfinity | PosInfinity, Finite x => scale true x
  | Finite x, NegInfinity | NegInfinity, Finite x => scale false x
  | PosInfinity, PosInfinity | NegInfinity, NegInfinity => PosInfinity
  | PosInfinity, NegInfinity | NegInfinity, PosInfinity => NegInfinity
  end.

(** [Math.pow(base, exponent)] for an integer exponent. *)
Definition Math_pow (base : Number) (exponent : Z) : Number :=
  if (exponent =? 0)%Z then Finite 1
  else
    match base with
    | NaN => NaN
    | Finite b =>
      if Qeq_bool b 0 && (exponent <? 0)%Z then PosInfinity
      else round (b ^ exponent)
    | PosInfinity => if (0 <? exponent)%Z then PosInfinity else Finite 0
    | NegInfinity =>
      if (0 <? exponent)%Z
      then (if Z.even exponent then PosInfinity else NegInfinity)
      else Finite 0
    end.

(** [Math.min(a, b)] *)
Definition Math_min (a b : Number) : Number :=
  match a, b with
  | NaN, _ | _, NaN => NaN
  | NegInfinity, _ | _, NegInfinity => NegInfinity
  | PosInfinity, x | x, PosInfinity => x
  | Finite x, Finite y => Finite (Qmin x y)
  end.

(** [a <= b], false when either side is [NaN]. *)
Definition le (a b : Number) : Prop :=
  match a, b with
  | NaN, _ | _, NaN => False
  | NegInfinity, _ | _, PosInfinity => True
  | Finite x, Finite y => (x <= y)%Q
  | _, _ => False
  end.

Section WithOptions.

Variable E : Type.
Variable opts : RetryOptions E.

(** [calculateDelay(attemptNumber)] on numbers with their special values,
    for options that are finite numbers. *)
Definition calculateDelay (attemptNumber : Z) : Number :=
  if negb (useExponentialBackoff opts) then Finite (initialDelay opts)
  else
    let delay :=
      times (Finite (initialDelay opts))
            (Math_pow (Finite (backoffMultiplier opts)) (attemptNumber - 1)) in
    Math_min delay (Finite (maxDelay opts)).

End WithOptions.

(** A multiplier whose third power overflows, and no initial delay. *)
Definition overflowingOptions : RetryOptions nat :=
  {| maxAttempts := 3; initialDelay := 0;
     backoffMultiplier := inject_Z (10 ^ 200);
     maxDelay := 30000; useExponentialBackoff := true;
     shouldRetry := fun _ _ => true |}.

End Doubles.

(* ===================================================================== *)
(** ** useBatchedUpdates                                                  *)
(* ===================================================================== *)

Module Batch.

Section WithItem.

(** [T]: the type of one update. *)
Variable T : Type.

Record BatchedUpdatesOptions := {
  batchWindow : Z;
  maxBatchSize : Z;
  flushOnFirst : bool;
  reducer : list T -> T -> list T
}.

Definition DEFAULT_OPTIONS : BatchedUpdatesOptions :=
  {| batchWindow := 100;
     maxBatchSize := 50;
     flushOnFirst := false;
     reducer := fun accumulated newUpdate => accumulated ++ [newUpdate] |}.

(** [opts.onFlush] and the consumer [onBatchFlush] are observed through the
    log. *)
Inductive Event :=
| EvOnFlush (batchedUpdates : list T) (batchSize : nat)
| EvConsumer (batchedUpdates : list T).

(** Callbacks handed to [setTimeout]: the auto-flush [() => flush()], the
    countdown poller [updateCountdown], and the two deferred deliveries
    [() => { opts.onFlush(items, size); onBatchFlush(items) }] of
    [addUpdate]. *)
Inductive TimerCb :=
| CbFlush
| CbCountdown
| CbDeliver (items : list T) (size : nat).

Record Timer := { cb : TimerCb; delay : Z }.

Record Hook := {
  pendingUpdates : list T;
  timeUntilFlush : Z;
  timeoutRef : option nat;
  countdownRef : option nat;
  startTimeRef : Z;
  isFirstUpdateRef : bool;
  hasPendingUpdatesRef : bool;
  pendingUpdatesRef : list T;
  timers : gmap nat Timer;
  nextHandle : nat;
  clock : Z;
  log : list Event
}.

Definition mount : Hook :=
  {| pendingUpdates := []; timeUntilFlush := 0; timeoutRef := None;
     countdownRef := None; startTimeRef := 0; isFirstUpdateRef := true;
     hasPendingUpdatesRef := false; pendingUpdatesRef := [];
     timers := ∅; nextHandle := 1; clock := 0; log := [] |}.

(** *** Field updates *)

Definition setPendingUpdates (l : list T) (h : Hook) : Hook :=
  {| pendingUpdates := l; timeUntilFlush := timeUntilFlush h;
     timeoutRef := timeoutRef h; countdownRef := countdownRef h;
     startTimeRef := startTimeRef h; isFirstUpdateRef := isFirstUpdateRef h;
     hasPendingUpdatesRef := hasPendingUpdatesRef h;
     pendingUpdatesRef := pendingUpdatesRef h; timers := timers h;
     nextHandle := nextHandle h; clock := clock h; log := log h |}.

Definition setTimeUntilFlush (t : Z) (h : Hook) : Hook :=
  {| pendingUpdates := pendingUpdates h; timeUntilFlush := t;
     timeoutRef := timeoutRef h; countdownRef := countdownRef h;
     startTimeRef := startTimeRef h; isFirstUpdateRef := isFirstUpdateRef h;
     hasPendingUpdatesRef := hasPendingUpdatesRef h;
     pendingUpdatesRef := pendingUpdatesRef h; timers := timers h;
     nextHandle := nextHandle h; clock := clock h; log := log h |}.

Definition setTimeoutRef (r : option nat) (h : Hook) : Hook :=
  {| pendingUpdates := pendingUpdates h; timeUntilFlush := timeUntilFlush h;
     timeoutRef := r; countdownRef := countdownRef h;
     startTimeRef := startTimeRef h; isFirstUpdateRef := isFirstUpdateRef h;
     hasPendingUpdatesRef := hasPendingUpdatesRef h;
     pendingUpdatesRef := pendingUpdatesRef h; timers := timers h;
     nextHandle := nextHandle h; clock := clock h; log := log h |}.

Definition setCountdownRef (r : option nat) (h : Hook) : Hook :=
  {| pendingUpdates := pendingUpdates h; timeUntilFlush := timeUntilFlush h;
     timeoutRef := timeoutRef h; countdownRef := r;
     startTimeRef := startTimeRef h; isFirstUpdateRef := isFirstUpdateRef h;
     hasPendingUpdatesRef := hasPendingUpdatesRef h;
     pendingUpdatesRef := pendingUpdatesRef h; timers := timers h;
     nextHandle := nextHandle h; clock := clock h; log := log h |}.

Definition setStartTimeRef (t : Z) (h : Hook) : Hook :=
  {| pendingUpdates := pendingUpdates h; timeUntilFlush := timeUntilFlush h;
     timeoutRef := timeoutRef h; countdownRef := countdownRef h;
     startTimeRef := t; isFirstUpdateRef := isFirstUpdateRef h;
     hasPendingUpdatesRef := hasPendingUpdatesRef h;
     pendingUpdatesRef := pendingUpdatesRef h; timers := timers h;
     nextHandle := nextHandle h; clock := clock h; log := log h |}.

Definition setIsFirstUpdateRef (b : bool) (h : Hook) : Hook :=
  {| pendingUpdates := pendingUpdates h; timeUntilFlush := timeUntilFlush h;
     timeoutRef := timeoutRef h; countdownRef := countdownRef h;
     startTimeRef := startTimeRef h; isFirstUpdateRef := b;
     hasPendingUpdatesRef := hasPendingUpdatesRef h;
     pendingUpdatesRef := pendingUpdatesRef h; timers := timers h;
     nextHandle := nextHandle h; clock := clock h; log := log h |}.

Definition setHasPendingUpdatesRef (b : bool) (h : Hook) : Hook :=
  {| pendingUpdates := pendingUpdates h; timeUntilFlush := timeUntilFlush h;
     timeoutRef := timeoutRef h; countdownRef := countdownRef h;
     startTimeRef := startTimeRef h; isFirstUpdateRef := isFirstUpdateRef h;
     hasPendingUpdatesRef := b;
     pendingUpdatesRef := pendingUpdatesRef h; timers := timers h;
     nextHandle := nextHandle h; clock := clock h; log := log h |}.

Definition setPendingUpdatesRef (l : list T) (h : Hook) : Hook :=
  {| pendingUpdates := pendingUpdates h; timeUntilFlush := timeUntilFlush h;
     timeoutRef := timeoutRef h; countdownRef := countdownRef h;
     startTimeRef := startTimeRef h; isFirstUpdateRef := isFirstUpdateRef h;
     hasPendingUpdatesRef := hasPendingUpdatesRef h;
     pendingUpdatesRef := l; timers := timers h;
     nextHandle := nextHandle h; clock := clock h; log := log h |}.

Definition setTimers (m : gmap nat Timer) (h : Hook) : Hook :=
  {| pendingUpdates := pendingUpdates h; timeUntilFlush := timeUntilFlush h;
     timeoutRef := timeoutRef h; countdownRef := countdownRef h;
     startTimeRef := startTimeRef h; isFirstUpdateRef := isFirstUpdateRef h;
     hasPendingUpdatesRef := hasPendingUpdatesRef h;
     pendingUpdatesRef := pendingUpdatesRef h; timers := m;
     nextHandle := nextHandle h; clock := clock h; log := log h |}.

Definition setClock (t : Z) (h : Hook) : Hook :=
  {| pendingUpdates := pendingUpdates h; timeUntilFlush := timeUntilFlush h;
     timeoutRef := timeoutRef h; countdownRef := countdownRef h;
     startTimeRef := startTimeRef h; isFirstUpdateRef := isFirstUpdateRef h;
     hasPendingUpdatesRef := hasPendingUpdatesRef h;
     pendingUpdatesRef := pendingUpdatesRef h; timers := timers h;
     nextHandle := nextHandle h; clock := t; log := log h |}.

Definition emit (es : list Event) (h : Hook) : Hook :=
  {| pendingUpdates := pendingUpdates h; timeUntilFlush := timeUntilFlush h;
     timeoutRef := timeoutRef h; countdownRef := countdownRef h;
     startTimeRef := startTimeRef h; isFirstUpdateRef := isFirstUpdateRef h;
     hasPendingUpdatesRef := hasPendingUpdatesRef h;
     pendingUpdatesRef := pendingUpdatesRef h; timers := timers h;
     nextHandle := nextHandle h; clock := clock h; log := log h ++ es |}.

(** *** The host's timer primitive *)

Definition setTimeout (c : TimerCb) (d : Z) (h : Hook) : nat * Hook :=
  (nextHandle h,
   {| pendingUpdates := pendingUpdates h; timeUntilFlush := timeUntilFlush h;
      timeoutRef := timeoutRef h; countdownRef := countdownRef h;
      startTimeRef := startTimeRef h; isFirstUpdateRef := isFirstUpdateRef h;
      hasPendingUpdatesRef := hasPendingUpdatesRef h;
      pendingUpdatesRef := pendingUpdatesRef h;
      timers := <[nextHandle h := {| cb := c; delay := d |}]> (timers h);
      nextHandle := S (nextHandle h); clock := clock h; log := log h |}).

Definition clearTimeout (i : nat) (h : Hook) : Hook :=
  setTimers (delete i (timers h)) h.

(** *** The hook *)

Variable opts : BatchedUpdatesOptions.

Definition isEmpty (l : list T) : bool :=
  match l with [] => true | _ => false end.

(** [opts.onFlush(items, size); onBatchFlush(items)] *)
Definition deliver (items : list T) (size : nat) (h : Hook) : Hook :=
  emit [EvOnFlush items size; EvConsumer items] h.

Definition updateCountdown (h : Hook) : Hook :=
  if negb (hasPendingUpdatesRef h) then h
  else
    let elapsed := (clock h - startTimeRef h)%Z in
    let remaining := Z.max 0 (batchWindow opts - elapsed) in
    let h := setTimeUntilFlush remaining h in
    if (0 <? remaining)%Z then
      let '(i, h) := setTimeout CbCountdown 50 h in
      setCountdownRef (Some i) h
    else h.

Definition startCountdown (h : Hook) : Hook :=
  let h := setStartTimeRef (clock h) h in
  let h := setTimeUntilFlush (batchWindow opts) h in
  updateCountdown h.

Definition clearTimers (h : Hook) : Hook :=
  let h :=
    match timeoutRef h with
    | Some i => setTimeoutRef None (clearTimeout i h)
    | None => h
    end in
  match countdownRef h with
  | Some i => setCountdownRef None (clearTimeout i h)
  | None => h
  end.

Definition flush (h : Hook) : Hook :=
  let currentUpdates := pendingUpdates h in
  if isEmpty currentUpdates then h
  else
    let h := clearTimers h in
    let updatesToFlush := currentUpdates in
    let h := setTimeUntilFlush 0 h in
    let h := deliver updatesToFlush (length updatesToFlush) h in
    let h := setIsFirstUpdateRef true h in
    let h := setHasPendingUpdatesRef false h in
    setPendingUpdates [] h.

Definition scheduleFlush (h : Hook) : Hook :=
  let h := clearTimers h in
  let h := startCountdown h in
  let '(i, h) := setTimeout CbFlush (batchWindow opts) h in
  setTimeoutRef (Some i) h.

Definition addUpdate (update : T) (h : Hook) : Hook :=
  let prev := pendingUpdates h in
  let newUpdates := reducer opts prev update in
  let shouldFlushOnFirst := flushOnFirst opts && isFirstUpdateRef h in
  let shouldFlushOnSize :=
    (maxBatchSize opts <=? Z.of_nat (length newUpdates))%Z in
  if shouldFlushOnFirst then
    let '(_, h) := setTimeout (CbDeliver [update] 1) 0 h in
    let h := setIsFirstUpdateRef false h in
    setPendingUpdates [] h
  else if shouldFlushOnSize then
    let '(_, h) := setTimeout (CbDeliver newUpdates (length newUpdates)) 0 h in
    let h := setIsFirstUpdateRef true h in
    setPendingUpdates [] h
  else
    let h :=
      if isEmpty prev
      then scheduleFlush (setHasPendingUpdatesRef true h)
      else h in
    let h := setIsFirstUpdateRef false h in
    setPendingUpdates newUpdates h.

Definition clear (h : Hook) : Hook :=
  let h := clearTimers h in
  let h := setPendingUpdates [] h in
  let h := setTimeUntilFlush 0 h in
  let h := setIsFirstUpdateRef true h in
  setHasPendingUpdatesRef false h.

(** The clean-up of the effect keyed on [opts]: it hands over what
    [pendingUpdatesRef] holds, and the state cell is not emptied.  The ref is
    written by the effect keyed on [pendingUpdates] only, after the
    clean-ups of the same commit have run, so the clean-up reads the batch
    of the previous commit.  React runs the clean-up at unmount and whenever
    the memoised options object changes identity, for which a re-render
    with a fresh [onFlush] or [reducer] closure is enough. *)
Definition flushPendingCleanup (h : Hook) : Hook :=
  if negb (isEmpty (pendingUpdatesRef h)) then
    let h := deliver (pendingUpdatesRef h) (length (pendingUpdatesRef h)) h in
    setHasPendingUpdatesRef false h
  else h.

(** The effect clean-ups run at unmount, in declaration order: the one that
    clears the timers, then [flushPendingCleanup]. *)
Definition unmount (h : Hook) : Hook :=
  let h := clearTimers h in
  flushPendingCleanup h.

Definition fire (i : nat) (h : Hook) : Hook :=
  match timers h !! i with
  | None => h
  | Some t =>
    let h := setTimers (delete i (timers h)) h in
    match cb t with
    | CbFlush => flush h
    | CbCountdown => updateCountdown h
    | CbDeliver items size => deliver items size h
    end
  end.

(** The commit of the re-render that follows a handler, the options object
    keeping its identity: the effect with dependency [hasPendingUpdates]
    re-synchronises [hasPendingUpdatesRef] when that value differs from the
    one of the previous render, and the effect with dependency
    [pendingUpdates] stores the committed batch in [pendingUpdatesRef]
    (when the batch is the one of the previous render the ref holds it
    already). *)
Definition render (before : Hook) (h : Hook) : Hook :=
  let was := negb (isEmpty (pendingUpdates before)) in
  let hasPendingUpdates := negb (isEmpty (pendingUpdates h)) in
  let h :=
    if Bool.eqb was hasPendingUpdates then h
    else setHasPendingUpdatesRef hasPendingUpdates h in
  setPendingUpdatesRef (pendingUpdates h) h.

(** The commit of a re-render in which the options object has a new
    identity as well, as happens after every state change when the caller
    builds its options inline ([onFlush] or [reducer] written as a closure
    in the component body): React runs the clean-ups of the effects whose
    dependencies changed, here [flushPendingCleanup], before any effect of
    the new render.  [rerender h (handle h inp)] is the handler [inp]
    followed by such a commit. *)
Definition rerender (before : Hook) (h : Hook) : Hook :=
  render before (flushPendingCleanup h).

(** What can happen to a mounted hook. [OptionsChange] is a re-render of
    its own, caused by no handler of the hook, in which the options object
    has a new identity and the same content. *)
Inductive Input :=
| AddUpdate (update : T)
| Flush
| Clear
| Fires (i : nat)
| Advance (dt : Z)
| OptionsChange.

Definition handle (h : Hook) (inp : Input) : Hook :=
  match inp with
  | AddUpdate update => addUpdate update h
  | Flush => flush h
  | Clear => clear h
  | Fires i => fire i h
  | Advance dt => setClock (clock h + dt)%Z h
  | OptionsChange => flushPendingCleanup h
  end.

(** The inputs that call [flush()]: the handler itself, or the auto-flush
    timer firing. *)
Definition flushes (h : Hook) (inp : Input) : Prop :=
  inp = Flush \/
  exists i t, inp = Fires i /\ timers h !! i = Some t /\ cb t = CbFlush.

(** Inputs under which the options object keeps its identity. *)
Definition stableOptions (inp : Input) : Prop :=
  match inp with OptionsChange => False | _ => True end.

Definition step (h : Hook) (inp : Input) : Hook := render h (handle h inp).

Definition run (ins : list Input) (h : Hook) : Hook := fold_left step ins h.

(** The updates handed to [addUpdate] by a sequence of inputs, and the
    updates the consumer has received according to a log. *)
Definition added (ins : list Input) : list T :=
  flat_map (fun inp => match inp with AddUpdate u => [u] | _ => [] end) ins.

Definition delivered (l : list Event) : list T :=
  flat_map (fun e => match e with EvConsumer b => b | _ => [] end) l.

(** *** Facts about the timer table and the batch *)

Definition noFlushTimer (h : Hook) : Prop :=
  forall i t, timers h !! i = Some t -> cb t <> CbFlush.

(** An armed auto-flush timer is the one [timeoutRef] holds. *)
Definition flushTimerTracked (h : Hook) : Prop :=
  forall i t, timers h !! i = Some t -> cb t = CbFlush -> timeoutRef h = Some i.

(** Between flushes the "first update" flag is down, and a retained batch
    is below the size threshold. *)
Definition batchShape (h : Hook) : Prop :=
  (isFirstUpdateRef h = true -> pendingUpdates h = []) /\
  (pendingUpdates h = [] \/
   (Z.of_nat (length (pendingUpdates h)) < maxBatchSize opts)%Z).

(** A reducer that neither duplicates nor invents updates. *)
Definition conservative (r : list T -> T -> list T) : Prop :=
  forall acc x, NoDup acc -> x ∉ acc ->
    NoDup (r acc x) /\ forall y, y ∈ r acc x -> y ∈ acc \/ y = x.

(** The payload of the deferred delivery armed under handle [i], if any. *)
Definition payloadAt (h : Hook) (i : nat) : option (list T) :=
  match timers h !! i with
  | Some {| cb := CbDeliver items _ |} => Some items
  | _ => None
  end.

(** Every update is in one place at most: handed to the consumer ([D]),
    pending ([P]), or in the payload of one deferred delivery ([pay]).
    [A] lists the updates added so far. *)
Definition Accounted (A D P : list T) (pay : nat -> option (list T)) : Prop :=
  NoDup (D ++ P) /\
  (forall x, x ∈ D ++ P -> x ∈ A) /\
  (forall i items, pay i = Some items ->
     NoDup items /\ forall x, x ∈ items -> x ∈ A /\ x ∉ D ++ P) /\
  (forall i j itemsI itemsJ,
     i <> j -> pay i = Some itemsI -> pay j = Some itemsJ ->
     forall x, x ∈ itemsI -> x ∉ itemsJ).

Definition accounted (A : list T) (h : Hook) : Prop :=
  Accounted A (delivered (log h)) (pendingUpdates h) (payloadAt h).

(** *** More facts about runs *)

(** An armed countdown poller is the one [countdownRef] holds. *)
Definition countdownTracked (h : Hook) : Prop :=
  forall i t,
    timers h !! i = Some t -> cb t = CbCountdown -> countdownRef h = Some i.

(** The refs hold handles the host has already handed out, and never the
    handle of a deferred delivery. *)
Definition refsInUse (h : Hook) : Prop :=
  (forall i, timeoutRef h = Some i \/ countdownRef h = Some i ->
     i < nextHandle h /\ payloadAt h i = None).

(** Handles in use are below the next one the host will hand out. *)
Definition timersInUse (h : Hook) : Prop :=
  forall i, is_Some (timers h !! i) -> i < nextHandle h.

(** The countdown shown is a time within the batch window, measured from a
    start that is not in the future. *)
Definition timely (h : Hook) : Prop :=
  (startTimeRef h <= clock h)%Z /\
  (0 <= timeUntilFlush h <= Z.max 0 (batchWindow opts))%Z.

Definition noCountdown (h : Hook) : Prop :=
  forall i t, timers h !! i = Some t -> cb t <> CbCountdown.

(** A reducer that invents nothing. *)
Definition selecting (r : list T -> T -> list T) : Prop :=
  forall acc x y, y ∈ r acc x -> y ∈ acc \/ y = x.

(** A reducer that drops nothing. *)
Definition keeping (r : list T -> T -> list T) : Prop :=
  forall acc x y, y ∈ acc ++ [x] -> y ∈ r acc x.

(** [x] has been handed to the consumer, is pending, or waits in a deferred
    delivery. *)
Definition held (x : T) (h : Hook) : Prop :=
  (x ∈ delivered (log h)) \/ (x ∈ pendingUpdates h) \/
  (exists i items, payloadAt h i = Some items /\ x ∈ items).

(** [x] is nowhere: neither delivered, nor pending, nor deferred. *)
Definition gone (x : T) (h : Hook) : Prop :=
  (x ∉ delivered (log h)) /\ (x ∉ pendingUpdates h) /\
  (forall i items, payloadAt h i = Some items -> x ∉ items).

(** Inputs other than [clear()]. *)
Definition notClear (inp : Input) : Prop :=
  match inp with Clear => False | _ => True end.

(** Inputs under which the clock does not go back. *)
Definition forward (inp : Input) : Prop :=
  match inp with Advance dt => (0 <= dt)%Z | _ => True end.

(** The batches handed to the consumer, in order. *)
Definition batches (l : list Event) : list (list T) :=
  flat_map (fun e => match e with EvConsumer b => [b] | _ => [] end) l.

(** What the log is when each of [bs] has been flushed in turn. *)
Definition flushLog (bs : list (list T)) : list Event :=
  flat_map (fun b => [EvOnFlush b (length b); EvConsumer b]) bs.

(** The deferred deliveries carry their size and are not empty. *)
Definition payloadsSized (h : Hook) : Prop :=
  forall i t items size,
    timers h !! i = Some t -> cb t = CbDeliver items size ->
    size = length items /\ items <> [].

End WithItem.

Arguments mount {T}.
Arguments CbFlush {T}.
Arguments CbCountdown {T}.
Arguments Flush {T}.
Arguments Clear {T}.
Arguments Fires {T} i.
Arguments Advance {T} dt.
Arguments OptionsChange {T}.

(** Configurations used in the examples. *)

Definition sizeOptions : BatchedUpdatesOptions nat :=
  {| batchWindow := 1000; maxBatchSize := 3; flushOnFirst := false;
     reducer := fun accumulated newUpdate => accumulated ++ [newUpdate] |}.

Definition windowOptions : BatchedUpdatesOptions nat :=
  {| batchWindow := 100; maxBatchSize := 50; flushOnFirst := false;
     reducer := fun accumulated newUpdate => accumulated ++ [newUpdate] |}.

(** A reducer that records every update twice. *)
Definition doublingOptions : BatchedUpdatesOptions nat :=
  {| batchWindow := 100; maxBatchSize := 50; flushOnFirst := true;
     reducer := fun accumulated newUpdate =>
                  accumulated ++ [newUpdate; newUpdate] |}.

End Batch.

(* ===================================================================== *)
(** ** Properties of useRetry                                             *)
(* ===================================================================== *)

Module RetryFacts.

Import Retry.

Section Backoff.

Variable E : Type.
Variable opts : RetryOptions E.

Lemma calculateDelay_linear k :
  useExponentialBackoff opts = false ->
  calculateDelay opts k = initialDelay opts.
Proof. intros Hexp. unfold calculateDelay. now rewrite Hexp. Qed.

Lemma calculateDelay_exponential k :
  useExponentialBackoff opts = true ->
  calculateDelay opts k =
  Qmin (initialDelay opts * backoffMultiplier opts ^ (k - 1)) (maxDelay opts).
Proof. intros Hexp. unfold calculateDelay. now rewrite Hexp. Qed.

End Backoff.

Section Machine.

Variables T E : Type.
Variable opts : RetryOptions E.

Implicit Types h : Hook T E.

(** *** Frame lemmas *)

Lemma updateCountdown_frame s d h :
  let h' := updateCountdown s d h in
  awaiting h' = awaiting h /\ promise h' = promise h /\
  cancelledRef h' = cancelledRef h /\ log h' = log h /\
  timeoutRef h' = timeoutRef h /\
  isRetrying (state h') = isRetrying (state h) /\
  currentAttempt (state h') = currentAttempt (state h) /\
  lastError (state h') = lastError (state h) /\
  totalAttempts (state h') = totalAttempts (state h).
Proof.
  unfold updateCountdown. simpl.
  destruct (_ && _); simpl; repeat split; reflexivity.
Qed.

Lemma updateCountdown_timers s d h :
  (timers (updateCountdown s d h) = timers h /\
   nextHandle (updateCountdown s d h) = nextHandle h) \/
  (timers (updateCountdown s d h) =
     <[nextHandle h := {| cb := CbCountdown s d; delay := 100 |}]> (timers h) /\
   nextHandle (updateCountdown s d h) = S (nextHandle h)).
Proof.
  unfold updateCountdown. simpl.
  destruct (_ && _); simpl; [right|left]; split; reflexivity.
Qed.

Lemma fresh_insert h h' t :
  fresh h ->
  timers h' = <[nextHandle h := t]> (timers h) ->
  nextHandle h' = S (nextHandle h) ->
  fresh h'.
Proof.
  intros Hf Ht Hn i. rewrite Ht, Hn, lookup_insert.
  case_decide as Hi; [subst; lia|].
  intros Hs. specialize (Hf i Hs). lia.
Qed.

Lemma fresh_delete h h' i :
  fresh h ->
  timers h' = delete i (timers h) ->
  nextHandle h' = nextHandle h ->
  fresh h'.
Proof.
  intros Hf Ht Hn j. rewrite Ht, Hn, lookup_delete.
  case_decide; [intros [? ?]; discriminate|apply Hf].
Qed.

Lemma fresh_same h h' :
  fresh h -> timers h' = timers h -> nextHandle h' = nextHandle h -> fresh h'.
Proof. intros Hf Ht Hn j. rewrite Ht, Hn. apply Hf. Qed.

Lemma updateCountdown_fresh s d h : fresh h -> fresh (updateCountdown s d h).
Proof.
  intros Hf.
  destruct (updateCountdown_timers s d h) as [[Ht Hn]|[Ht Hn]].
  - eapply fresh_same; eassumption.
  - eapply fresh_insert; eassumption.
Qed.

Lemma updateCountdown_noRetryTimer s d h :
  noRetryTimer h -> noRetryTimer (updateCountdown s d h).
Proof.
  intros Hno i t n.
  destruct (updateCountdown_timers s d h) as [[Ht _]|[Ht _]]; rewrite Ht.
  - apply Hno.
  - rewrite lookup_insert. case_decide.
    + intros [= <-]. discriminate.
    + apply Hno.
Qed.

(** *** A failed attempt *)

(** The attempt is given up: policy veto, exhaustion or cancellation. *)
Lemma resume_giveUp h n error :
  awaiting h = Some n ->
  negb (shouldRetry opts error n) || negb (n <? maxAttempts opts)%Z
    || cancelledRef h = true ->
  let h' := resume opts (inr error) h in
  promise h' = Rejected (OperationError error) /\
  awaiting h' = None /\
  log h' = log h ++ EvShouldRetry error n ::
             (if (n <? maxAttempts opts)%Z then []
              else [EvOnMaxAttemptsReached error (n + 1)]) /\
  state h' = {| isRetrying := false;
                currentAttempt := currentAttempt (state h);
                lastError := Some error;
                timeUntilNextRetry := 0;
                totalAttempts := totalAttempts (state h) |} /\
  timers h' = timers h /\ nextHandle h' = nextHandle h /\
  timeoutRef h' = timeoutRef h /\ countdownRef h' = countdownRef h /\
  cancelledRef h' = cancelledRef h.
Proof.
  intros Ha Hc. unfold resume. rewrite Ha. simpl. rewrite Hc.
  destruct (n <? maxAttempts opts)%Z; simpl;
    rewrite <- ?app_assoc; repeat split; reflexivity.
Qed.

(** The attempt is retried. *)
Lemma resume_retry h n error :
  awaiting h = Some n ->
  cancelledRef h = false ->
  shouldRetry opts error n = true ->
  (n < maxAttempts opts)%Z ->
  let d := calculateDelay opts (n + 1) in
  let h' := resume opts (inr error) h in
  promise h' = promise h /\
  awaiting h' = None /\
  cancelledRef h' = false /\
  lastError (state h') = Some error /\
  log h' = log h ++ [EvShouldRetry error n; EvOnRetry error (n + 1) d] /\
  exists i m,
    timeoutRef h' = Some i /\
    timers h' = <[i := {| cb := CbAttempt (n + 1); delay := d |}]> m /\
    nextHandle h' = S i /\
    ((m = timers h /\ i = nextHandle h) \/
     (m = <[nextHandle h :=
             {| cb := CbCountdown (clock h) d; delay := 100 |}]> (timers h) /\
      i = S (nextHandle h))).
Proof.
  intros Ha Hc Hs Hlt. unfold resume. rewrite Ha. simpl.
  rewrite Hs, Hc. apply Z.ltb_lt in Hlt. rewrite Hlt. simpl.
  unfold startCountdown, updateCountdown. simpl. rewrite Hc.
  destruct (Qpositive _ && _); simpl; rewrite <- ?app_assoc;
    (do 5 (split; [first [reflexivity|assumption]|])); do 2 eexists;
    (do 3 (split; [reflexivity|])).
  - right. split; reflexivity.
  - left. split; reflexivity.
Qed.

(** *** Starting an attempt, firing a timer *)

Lemma attemptOperation_live h n :
  cancelledRef h = false ->
  let h' := attemptOperation n h in
  awaiting h' = Some n /\ promise h' = promise h /\
  cancelledRef h' = false /\ log h' = log h ++ [EvOperation] /\
  timers h' = timers h /\ nextHandle h' = nextHandle h /\
  timeoutRef h' = timeoutRef h /\
  state h' = {| isRetrying := isRetrying (state h);
                currentAttempt := n;
                lastError := lastError (state h);
                timeUntilNextRetry := timeUntilNextRetry (state h);
                totalAttempts := n + 1 |}.
Proof.
  intros Hc. unfold attemptOperation. rewrite Hc. simpl.
  repeat split; first [reflexivity|assumption].
Qed.

Lemma fire_unarmed h j : timers h !! j = None -> fire j h = h.
Proof. intros Hj. unfold fire. now rewrite Hj. Qed.

Lemma fire_armed h j t :
  timers h !! j = Some t ->
  fire j h =
  match cb t with
  | CbAttempt n => attemptOperation n (setTimers (delete j (timers h)) h)
  | CbCountdown s d => updateCountdown s d (setTimers (delete j (timers h)) h)
  end.
Proof. intros Hj. unfold fire. now rewrite Hj. Qed.

Lemma operationCalls_app (l1 l2 : list (Event E)) :
  operationCalls (l1 ++ l2) = (operationCalls l1 + operationCalls l2)%Z.
Proof.
  unfold operationCalls. rewrite List.filter_app, length_app. lia.
Qed.

Lemma maxAttemptsReachedCalls_app (l1 l2 : list (Event E)) :
  maxAttemptsReachedCalls (l1 ++ l2) =
  maxAttemptsReachedCalls l1 ++ maxAttemptsReachedCalls l2.
Proof. unfold maxAttemptsReachedCalls. apply flat_map_app. Qed.

Lemma noRetryTimer_delete h h' j :
  noRetryTimer h -> timers h' = delete j (timers h) -> noRetryTimer h'.
Proof.
  intros Hno Ht i t n. rewrite Ht, lookup_delete.
  case_decide; [discriminate|apply Hno].
Qed.

(** A countdown tick leaves every phase as it is. *)
Lemma countdown_tick_frame h j s d :
  let h' := updateCountdown s d (setTimers (delete j (timers h)) h) in
  awaiting h' = awaiting h /\ promise h' = promise h /\
  cancelledRef h' = cancelledRef h /\ log h' = log h /\
  timeoutRef h' = timeoutRef h /\
  lastError (state h') = lastError (state h) /\
  currentAttempt (state h') = currentAttempt (state h) /\
  totalAttempts (state h') = totalAttempts (state h).
Proof.
  intros h'.
  destruct (updateCountdown_frame s d (setTimers (delete j (timers h)) h))
    as (H1 & H2 & H3 & H4 & H5 & _ & H6 & H7 & H8).
  repeat split; assumption.
Qed.

Lemma countdown_tick_fresh h j s d :
  fresh h ->
  fresh (updateCountdown s d (setTimers (delete j (timers h)) h)).
Proof.
  intros Hf. apply updateCountdown_fresh.
  eapply fresh_delete; [exact Hf|reflexivity|reflexivity].
Qed.

Lemma countdown_tick_noRetryTimer h j s d :
  noRetryTimer h ->
  noRetryTimer (updateCountdown s d (setTimers (delete j (timers h)) h)).
Proof.
  intros Hno. apply updateCountdown_noRetryTimer.
  eapply noRetryTimer_delete; [exact Hno|reflexivity].
Qed.

Lemma countdown_tick_retryTimer h i j s d t :
  fresh h -> i <> j ->
  timers h !! i = Some t ->
  onlyRetryTimer i h ->
  let h' := updateCountdown s d (setTimers (delete j (timers h)) h) in
  timers h' !! i = Some t /\ onlyRetryTimer i h'.
Proof.
  intros Hf Hij Hi Honly h'. subst h'.
  assert (Hlt : i < nextHandle h) by (apply Hf; eauto).
  destruct (updateCountdown_timers s d (setTimers (delete j (timers h)) h))
    as [[Ht _]|[Ht _]]; simpl in Ht; split.
  - rewrite Ht, lookup_delete_ne by congruence. exact Hi.
  - intros k t' n. rewrite Ht, lookup_delete.
    case_decide; [discriminate|apply Honly].
  - rewrite Ht, lookup_insert_ne by lia.
    rewrite lookup_delete_ne by congruence. exact Hi.
  - intros k t' n. rewrite Ht, lookup_insert.
    case_decide; [intros [= <-]; discriminate|].
    rewrite lookup_delete. case_decide; [discriminate|apply Honly].
Qed.

(** *** The run of a permanently failing operation *)

Section PermanentFailure.

Hypothesis always_retry : forall error n, shouldRetry opts error n = true.
Hypothesis budget : (0 <= maxAttempts opts)%Z.

Lemma execute_attempting : FailingRun opts (execute (@mount T E)).
Proof.
  split.
  - intros i [t Ht]. simpl in Ht. now rewrite lookup_empty in Ht.
  - left. exists 0%Z. split; [lia|].
    repeat split; try reflexivity.
    intros i t n Ht. simpl in Ht. now rewrite lookup_empty in Ht.
Qed.

Lemma attempting_fails_retry h n error :
  fresh h -> Attempting n h -> (n < maxAttempts opts)%Z ->
  let h' := resume opts (inr error) h in
  fresh h' /\ Waiting n h'.
Proof.
  intros Hf (Ha & Hp & Hc & Hops & Hmax & Hno) Hlt h'.
  destruct (resume_retry h error Ha Hc (always_retry error n) Hlt)
    as (Hp' & Ha' & Hc' & _ & Hlog & i & m & Href & Ht & Hn & Hm).
  fold h' in Hp', Ha', Hc', Hlog, Href, Ht, Hn.
  assert (Hmno : forall j t k, m !! j = Some t -> cb t <> CbAttempt k).
  { intros j t k. destruct Hm as [[-> _]|[-> _]]; [apply Hno|].
    rewrite lookup_insert. case_decide; [intros [= <-]; discriminate|apply Hno]. }
  assert (Hmf : forall j, is_Some (m !! j) -> j < i).
  { intros j. destruct Hm as [[-> ->]|[-> ->]]; [apply Hf|].
    rewrite lookup_insert. case_decide; [subst; lia|].
    intros Hs. specialize (Hf j Hs). lia. }
  split.
  - intros j. rewrite Ht, Hn, lookup_insert.
    case_decide; [subst; lia|]. intros Hs. specialize (Hmf j Hs). lia.
  - repeat split; try assumption.
    + now rewrite Hp'.
    + rewrite Hlog, operationCalls_app, Hops. unfold operationCalls. simpl. lia.
    + rewrite Hlog, maxAttemptsReachedCalls_app, Hmax. reflexivity.
    + exists i, (calculateDelay opts (n + 1)). repeat split.
      * assumption.
      * rewrite Ht. apply lookup_insert_eq.
      * intros j t k. rewrite Ht, lookup_insert.
        case_decide; [congruence|]. intros Hj Hcb.
        exfalso. exact (Hmno _ _ _ Hj Hcb).
Qed.

Lemma attempting_fails_last h error :
  Attempting (maxAttempts opts) h ->
  let h' := resume opts (inr error) h in
  timers h' = timers h /\ nextHandle h' = nextHandle h /\
  Exhausted opts error h'.
Proof.
  intros (Ha & Hp & Hc & Hops & Hmax & Hno) h'.
  assert (Hltb : (maxAttempts opts <? maxAttempts opts)%Z = false)
    by (apply Z.ltb_ge; lia).
  destruct (resume_giveUp h error Ha) as
    (Hp' & Ha' & Hlog & Hst & Ht & Hn & _ & _ & Hc').
  { rewrite Hltb, always_retry, Hc. reflexivity. }
  fold h' in Hp', Ha', Hlog, Hst, Ht, Hn, Hc'. rewrite Hltb in Hlog.
  split; [assumption|]. split; [assumption|].
  repeat split; try assumption.
  - now rewrite Hc'.
  - now rewrite Hst.
  - rewrite Hlog, operationCalls_app, Hops. unfold operationCalls. simpl. lia.
  - rewrite Hlog, maxAttemptsReachedCalls_app, Hmax. reflexivity.
  - intros i t n. rewrite Ht. apply Hno.
Qed.

Lemma waiting_timer_fires h n i :
  fresh h -> Waiting n h -> timeoutRef h = Some i ->
  let h' := fire i h in
  fresh h' /\ Attempting (n + 1) h'.
Proof.
  intros Hf (Ha & Hp & Hc & Hops & Hmax & i' & d & Href & Ht & Honly) Hi h'.
  assert (i' = i) by congruence. subst i'.
  subst h'. rewrite (fire_armed _ _ Ht). simpl.
  set (h1 := setTimers (delete i (timers h)) h).
  destruct (attemptOperation_live h1 (n + 1) Hc)
    as (Ha' & Hp' & Hc' & Hlog & Ht' & Hn' & _ & _).
  split.
  - eapply fresh_same; [|exact Ht'|exact Hn'].
    eapply fresh_delete; [exact Hf|reflexivity|reflexivity].
  - repeat split; try assumption.
    + now rewrite Hp'.
    + rewrite Hlog, operationCalls_app. simpl. rewrite Hops. unfold operationCalls. simpl. lia.
    + rewrite Hlog, maxAttemptsReachedCalls_app. simpl. rewrite Hmax.
      reflexivity.
    + intros j t k. rewrite Ht'. simpl. rewrite lookup_delete.
      case_decide; [discriminate|]. intros Hj Hcb.
      apply (Honly _ _ _ Hj) in Hcb. congruence.
Qed.

Lemma failing_step h inp :
  FailingRun opts h -> failing inp -> FailingRun opts (step opts h inp).
Proof.
  intros [Hf Hphase] Hinp.
  destruct inp as [[result|error]|j| | |dt]; try contradiction; simpl.
  - (* the operation rejects *)
    destruct Hphase as [(n & Hn & Hatt)|[(n & Hn & Hw)|(e & Hex)]].
    + destruct (Z.eq_dec n (maxAttempts opts)) as [->|Hne].
      * destruct (attempting_fails_last error Hatt) as (Ht & Hnh & Hex).
        split; [eapply fresh_same; eassumption|]. right; right. eauto.
      * destruct (@attempting_fails_retry h n error Hf Hatt) as [Hf' Hw];
          [lia|].
        split; [assumption|]. right; left. exists n. split; [lia|assumption].
    + assert (Hnone : awaiting h = None) by apply Hw.
      unfold resume. rewrite Hnone.
      split; [assumption|]. right; left. eauto.
    + assert (Hnone : awaiting h = None) by apply Hex.
      unfold resume. rewrite Hnone.
      split; [assumption|]. right; right. eauto.
  - (* a timer fires *)
    destruct (timers h !! j) as [t|] eqn:Hj;
      [|rewrite (fire_unarmed _ _ Hj); split; assumption].
    destruct (cb t) as [k|s d] eqn:Hcb.
    + (* the retry timer *)
      destruct Hphase as [(n & Hn & Hatt)|[(n & Hn & Hw)|(e & Hex)]].
      * destruct Hatt as (_ & _ & _ & _ & _ & Hno).
        now apply (Hno _ _ k) in Hj.
      * assert (Href : timeoutRef h = Some j).
        { destruct Hw as (_ & _ & _ & _ & _ & i & d & Href & _ & Honly).
          rewrite Href. f_equal. symmetry. eapply Honly; eassumption. }
        destruct (waiting_timer_fires Hf Hw Href) as [Hf' Hatt].
        split; [assumption|]. left. exists (n + 1)%Z. split; [lia|assumption].
      * destruct Hex as (_ & _ & _ & _ & _ & _ & Hno).
        now apply (Hno _ _ k) in Hj.
    + (* a countdown tick *)
      rewrite (fire_armed _ _ Hj), Hcb.
      destruct (countdown_tick_frame h j s d)
        as (Ha & Hp & Hc & Hlog & Href & Hle & _ & _).
      split; [now apply countdown_tick_fresh|].
      destruct Hphase as [(n & Hn & Hatt)|[(n & Hn & Hw)|(e & Hex)]].
      * left. exists n. split; [assumption|].
        destruct Hatt as (Ha0 & Hp0 & Hc0 & Hops & Hmax & Hno).
        repeat split; try congruence.
        now apply countdown_tick_noRetryTimer.
      * right; left. exists n. split; [assumption|].
        destruct Hw as (Ha0 & Hp0 & Hc0 & Hops & Hmax & i & di & Hi & Ht & Honly).
        repeat split; try congruence.
        exists i, di. split; [congruence|].
        apply countdown_tick_retryTimer; try assumption.
        intros ->. rewrite Hj in Ht. injection Ht as ->. discriminate.
      * right; right. exists e.
        destruct Hex as (Ha0 & Hp0 & Hc0 & Hl0 & Hops & Hmax & Hno).
        repeat split; try congruence.
        now apply countdown_tick_noRetryTimer.
  - (* time goes by *)
    split; [exact Hf|exact Hphase].
Qed.

Lemma failing_run ins h :
  FailingRun opts h -> Forall (@failing T E) ins ->
  FailingRun opts (run opts ins h).
Proof.
  intros Hh Hins. revert h Hh.
  induction Hins as [|inp ins Hinp _ IH]; intros h Hh; [exact Hh|].
  simpl. apply IH. now apply failing_step.
Qed.

Lemma failing_run_settled ins :
  Forall (@failing T E) ins ->
  let h := run opts ins (execute mount) in
  promise h <> Pending ->
  exists error,
    lastError (state h) = Some error /\
    promise h = Rejected (OperationError error) /\
    operationCalls (log h) = (maxAttempts opts + 1)%Z /\
    maxAttemptsReachedCalls (log h) = [(error, (maxAttempts opts + 1)%Z)].
Proof.
  intros Hins h Hp.
  destruct (failing_run execute_attempting Hins) as [_ Hphase]. fold h in Hphase.
  destruct Hphase as [(n & _ & Hatt)|[(n & _ & Hw)|(e & Hex)]].
  - destruct Hatt as (_ & Hp0 & _). contradiction.
  - destruct Hw as (_ & Hp0 & _). contradiction.
  - destruct Hex as (_ & Hp0 & _ & Hl & Hops & Hmax & _). eauto.
Qed.

Lemma armedRetry_none h : noRetryTimer h -> armedRetry h = None.
Proof.
  intros Hno. unfold armedRetry.
  destruct (timeoutRef h) as [i|]; [|reflexivity].
  destruct (timers h !! i) as [[[k|s d] dl]|] eqn:Hi; try reflexivity.
  now apply (Hno _ _ k) in Hi.
Qed.

Lemma armedRetry_waiting h n i :
  Waiting n h -> timeoutRef h = Some i -> armedRetry h = Some i.
Proof.
  intros (_ & _ & _ & _ & _ & i' & d & Href & Ht & _) Hi.
  assert (i' = i) by congruence. subst i'.
  unfold armedRetry. now rewrite Hi, Ht.
Qed.

(** Attempt [n] is in flight and [k] retries remain: the schedule rejects
    it, then alternates retry timer and rejection, and ends exhausted. *)
Lemma failingSchedule_exhausts errors k :
  forall h n fuel,
    fresh h -> Attempting n h ->
    n = (maxAttempts opts - Z.of_nat k)%Z ->
    2 * k + 1 <= fuel ->
    let ins := failingSchedule opts errors fuel h in
    Forall (@failing T E) ins /\
    Exhausted opts (errors (maxAttempts opts)) (run opts ins h).
Proof.
  induction k as [|k IH]; intros h n fuel Hf Hatt Hn Hfuel ins; subst ins.
  - assert (Hn' : n = maxAttempts opts) by lia. clear Hn. subst n.
    destruct fuel as [|fuel]; [lia|].
    assert (Ha : awaiting h = Some (maxAttempts opts)) by apply Hatt.
    simpl. rewrite Ha.
    destruct (attempting_fails_last (errors (maxAttempts opts)) Hatt)
      as (_ & _ & Hex).
    assert (Hrest :
      failingSchedule opts errors fuel
        (resume opts (inr (errors (maxAttempts opts))) h) = []).
    { destruct fuel as [|fuel]; [reflexivity|]. simpl.
      destruct Hex as (-> & _ & _ & _ & _ & _ & Hno).
      now rewrite (armedRetry_none Hno). }
    simpl. rewrite Hrest. split; [|exact Hex].
    constructor; [exact I|constructor].
  - destruct fuel as [|[|fuel]]; [lia|lia|].
    assert (Ha : awaiting h = Some n) by apply Hatt.
    destruct (@attempting_fails_retry h n (errors n) Hf Hatt) as [Hf1 Hw];
      [lia|].
    set (h1 := resume opts (inr (errors n)) h) in *.
    assert (Ha1 : awaiting h1 = None) by apply Hw.
    destruct Hw as (Hw1 & Hw2 & Hw3 & Hw4 & Hw5 & i & d & Href & Ht & Honly).
    assert (Hw : Waiting n h1).
    { repeat split; try assumption. exists i, d. auto. }
    destruct (waiting_timer_fires Hf1 Hw Href) as [Hf2 Hatt2].
    destruct (IH (fire i h1) (n + 1)%Z fuel Hf2 Hatt2) as [Hall Hex];
      [lia|lia|].
    change (failingSchedule opts errors (S (S fuel)) h) with
      (match awaiting h with
       | Some n0 =>
         Settles (inr (errors n0)) ::
         failingSchedule opts errors (S fuel)
           (step opts h (Settles (inr (errors n0))))
       | None =>
         match armedRetry h with
         | Some i0 =>
           Fires i0 :: failingSchedule opts errors (S fuel)
                         (step opts h (Fires i0))
         | None => []
         end
       end).
    rewrite Ha. fold h1.
    change (failingSchedule opts errors (S fuel)
              (step opts h (Settles (inr (errors n))))) with
      (match awaiting h1 with
       | Some n0 =>
         Settles (inr (errors n0)) ::
         failingSchedule opts errors fuel
           (step opts h1 (Settles (inr (errors n0))))
       | None =>
         match armedRetry h1 with
         | Some i0 =>
           Fires i0 :: failingSchedule opts errors fuel
                         (step opts h1 (Fires i0))
         | None => []
         end
       end).
    rewrite Ha1, (armedRetry_waiting Hw Href).
    split.
    + constructor; [exact I|]. constructor; [exact I|]. exact Hall.
    + exact Hex.
Qed.

End PermanentFailure.

(** *** Cancellation *)

Lemma cancel_frame h :
  awaiting (cancel h) = awaiting h /\ promise (cancel h) = promise h /\
  log (cancel h) = log h /\ cancelledRef (cancel h) = true /\
  state (cancel h) = finished (state h).
Proof.
  unfold cancel. simpl.
  destruct (timeoutRef h); simpl; destruct (countdownRef h); simpl;
    repeat split; reflexivity.
Qed.

Lemma cancel_timers h j t :
  timers (cancel h) !! j = Some t -> timers h !! j = Some t.
Proof.
  unfold cancel. simpl.
  destruct (timeoutRef h) as [i|]; simpl;
    destruct (countdownRef h) as [c|]; simpl;
    rewrite ?lookup_delete; repeat case_decide; congruence.
Qed.

Lemma cancel_clears_timeoutRef h i :
  timeoutRef h = Some i -> timers (cancel h) !! i = None.
Proof.
  intros Hi. unfold cancel. simpl. rewrite Hi. simpl.
  destruct (countdownRef h) as [c|]; simpl;
    rewrite ?lookup_delete; repeat case_decide; congruence.
Qed.

Lemma reset_frame h :
  awaiting (reset h) = awaiting h /\ promise (reset h) = promise h /\
  log (reset h) = log h /\ timers (reset h) = timers (cancel h) /\
  state (reset h) = initialState.
Proof.
  unfold reset. simpl.
  destruct (cancel_frame h) as (Ha & Hp & Hl & _).
  repeat split; assumption.
Qed.

(** Once stranded, always stranded: nothing the host or the caller can do,
    short of a new [execute()], settles the promise. *)
Lemma stranded_step h inp : Stranded h -> Stranded (step opts h inp).
Proof.
  intros (Ha & Hp & Hno).
  destruct inp as [r|j| | |dt]; simpl.
  - unfold resume. rewrite Ha. repeat split; assumption.
  - destruct (timers h !! j) as [t|] eqn:Hj;
      [|rewrite (fire_unarmed _ _ Hj); repeat split; assumption].
    rewrite (fire_armed _ _ Hj).
    destruct (cb t) as [k|s d] eqn:Hcb; [now apply (Hno _ _ k) in Hj|].
    destruct (countdown_tick_frame h j s d) as (Ha' & Hp' & _).
    repeat split; try congruence.
    now apply countdown_tick_noRetryTimer.
  - destruct (cancel_frame h) as (Ha' & Hp' & _).
    repeat split; try congruence.
    intros i t n Hi. apply cancel_timers in Hi. exact (Hno _ _ n Hi).
  - destruct (reset_frame h) as (Ha' & Hp' & _ & Ht & _).
    repeat split; try congruence.
    intros i t n. rewrite Ht. intros Hi.
    apply cancel_timers in Hi. exact (Hno _ _ n Hi).
  - repeat split; assumption.
Qed.

Lemma stranded_run ins h : Stranded h -> Stranded (run opts ins h).
Proof.
  revert h. induction ins as [|inp ins IH]; intros h Hh; [exact Hh|].
  simpl. apply IH. now apply stranded_step.
Qed.

(** While stranded, only [reset()] touches the error and the counters. *)
Lemma stranded_step_snapshot h inp :
  Stranded h -> notReset inp ->
  currentAttempt (state (step opts h inp)) = currentAttempt (state h) /\
  lastError (state (step opts h inp)) = lastError (state h) /\
  totalAttempts (state (step opts h inp)) = totalAttempts (state h).
Proof.
  intros (Ha & Hp & Hno) Hinp.
  destruct inp as [r|j| | |dt]; unfold step; try contradiction.
  - unfold resume. rewrite Ha. repeat split; reflexivity.
  - destruct (timers h !! j) as [t|] eqn:Hj;
      [|rewrite (fire_unarmed _ _ Hj); repeat split; reflexivity].
    rewrite (fire_armed _ _ Hj).
    destruct (cb t) as [k|s d] eqn:Hcb; [now apply (Hno _ _ k) in Hj|].
    destruct (countdown_tick_frame h j s d)
      as (_ & _ & _ & _ & _ & Hl & Hc & Ht).
    repeat split; assumption.
  - destruct (cancel_frame h) as (_ & _ & _ & _ & ->).
    repeat split; reflexivity.
  - repeat split; reflexivity.
Qed.

Lemma stranded_run_snapshot ins :
  forall h,
    Stranded h -> Forall (@notReset T E) ins ->
    currentAttempt (state (run opts ins h)) = currentAttempt (state h) /\
    lastError (state (run opts ins h)) = lastError (state h) /\
    totalAttempts (state (run opts ins h)) = totalAttempts (state h).
Proof.
  induction ins as [|inp ins IH]; intros h Hs Hins;
    [repeat split; reflexivity|].
  apply Forall_cons in Hins as [Hinp Hins].
  destruct (stranded_step_snapshot inp Hs Hinp) as (H1 & H2 & H3).
  destruct (IH (step opts h inp) (stranded_step inp Hs) Hins)
    as (G1 & G2 & G3).
  simpl. repeat split; congruence.
Qed.

(** Cancelling during the backoff wait strands the promise. *)
Lemma waiting_cancel_stranded h n : Waiting n h -> Stranded (cancel h).
Proof.
  intros (Ha & Hp & _ & _ & _ & i & d & Href & Ht & Honly).
  destruct (cancel_frame h) as (Ha' & Hp' & _).
  repeat split; try congruence.
  intros j t k Hj Hcb.
  pose proof (cancel_timers _ _ Hj) as Hj'.
  assert (j = i) by (eapply Honly; eassumption). subst j.
  rewrite (cancel_clears_timeoutRef _ Href) in Hj. discriminate.
Qed.

End Machine.

(** The first attempt fails and a retry is allowed: the hook waits. *)
Lemma first_failure_waiting (T E : Type) (opts : RetryOptions E) (error : E) :
  (forall e n, shouldRetry opts e n = true) ->
  (0 < maxAttempts opts)%Z ->
  Waiting 0 (run opts [Settles (inr error)] (execute (@mount T E))).
Proof.
  intros Hretry HM.
  assert (Hatt : Attempting 0 (execute (@mount T E))).
  { repeat split; try reflexivity.
    intros i t n Hi. simpl in Hi. now rewrite lookup_empty in Hi. }
  assert (Hf : fresh (execute (@mount T E))).
  { intros i [t Hi]. simpl in Hi. now rewrite lookup_empty in Hi. }
  exact (proj2 (@attempting_fails_retry T E opts Hretry _ 0%Z error
                  Hf Hatt HM)).
Qed.

(** C1. With [maxAttempts = M >= 0] and a [shouldRetry] that always says
    yes, an operation that fails on every call is invoked exactly [M + 1]
    times by one [execute()]; [onMaxAttemptsReached] is invoked exactly once,
    with the last error and [M + 1]; the promise rejects with the last error.
    First for the schedule in which attempt [n] throws [errors n] and every
    retry timer fires, then for any interleaving of rejections, timers
    (countdown ticks included) and clock advances that settles the promise. *)
Theorem C1_attempt_counting (T E : Type) (opts : RetryOptions E) (M : Z) :
  maxAttempts opts = M ->
  (0 <= M)%Z ->
  (forall error n, shouldRetry opts error n = true) ->
  (forall (errors : Z -> E) fuel,
     2 * Z.to_nat M + 1 <= fuel ->
     let ins := failingSchedule opts errors fuel (execute (@mount T E)) in
     let h := run opts ins (execute mount) in
     Forall (@failing T E) ins /\
     promise h = Rejected (OperationError (errors M)) /\
     operationCalls (log h) = (M + 1)%Z /\
     maxAttemptsReachedCalls (log h) = [(errors M, (M + 1)%Z)]) /\
  (forall ins : list (Input T E),
     Forall (@failing T E) ins ->
     let h := run opts ins (execute mount) in
     promise h <> Pending ->
     exists error,
       lastError (state h) = Some error /\
       promise h = Rejected (OperationError error) /\
       operationCalls (log h) = (M + 1)%Z /\
       maxAttemptsReachedCalls (log h) = [(error, (M + 1)%Z)]).
Proof.
  intros <- HM Hretry. split.
  - intros errors fuel Hfuel ins h.
    destruct (@execute_attempting T E opts HM) as [Hf [(n & Hn & Hatt)|[H|H]]].
    + assert (n = 0%Z).
      { destruct Hatt as (Ha & _). simpl in Ha. congruence. }
      subst n.
      destruct (failingSchedule_exhausts opts Hretry errors
                  (Z.to_nat (maxAttempts opts)) (fuel:=fuel) Hf Hatt)
        as [Hall Hex]; [lia|lia|].
      fold ins in Hall, Hex. fold h in Hex.
      destruct Hex as (_ & Hp & _ & _ & Hops & Hmax & _).
      repeat split; assumption.
    + destruct H as (n & _ & Ha & _). discriminate.
    + destruct H as (e & Ha & _). discriminate.
  - intros ins Hins. now apply failing_run_settled.
Qed.

Lemma C1_attempt_counting_witness :
  let h0 : Hook unit nat := execute mount in
  let h := run countingOptions
             (failingSchedule countingOptions Z.to_nat 7 h0) h0 in
  promise h = Rejected (OperationError 3%nat) /\
  operationCalls (log h) = 4%Z /\
  maxAttemptsReachedCalls (log h) = [(3%nat, 4%Z)].
Proof.
  intros h0 h.
  destruct (@C1_attempt_counting unit nat countingOptions 3 eq_refl
              ltac:(lia) (fun _ _ => eq_refl)) as [Hsched _].
  destruct (Hsched Z.to_nat 7 ltac:(simpl; lia)) as (_ & Hp & Hops & Hmax).
  repeat split; assumption.
Defined.



(** C3, on the code: the operation fails once, [execute()] is waiting out
    the first backoff delay with its retry timer armed, and [cancel()] is
    called.  Whatever happens afterwards (timers, clock, further [cancel()]
    or [reset()] calls, late settlements), the promise stays pending. *)
Theorem C3_cancel_during_backoff_never_settles
    (T E : Type) (error : E) (ins : list (Input T E)) :
  let opts := DEFAULT_OPTIONS E in
  let waiting := run opts [Settles (inr error)] (execute mount) in
  armedRetry waiting = Some 2 /\
  promise waiting = Pending /\
  promise (run opts ins (cancel waiting)) = Pending.
Proof.
  intros opts waiting.
  assert (Hw : Waiting 0 waiting)
    by (apply first_failure_waiting; reflexivity).
  split; [reflexivity|]. split; [apply Hw|].
  apply (stranded_run opts ins (waiting_cancel_stranded Hw)).
Qed.

(** C4 does not hold as the specification words it.  [cancel()] is called
    while the first attempt is in flight, then the attempt fails:
    [shouldRetry] is consulted, [onMaxAttemptsReached] is invoked (the
    budget is 0) and the promise is rejected with the operation's error,
    not with a cancellation error. *)
Lemma C4_counterexample :
  let h : Hook unit nat := run exhaustedOptions [Cancel] (execute mount) in
  let h' := step exhaustedOptions h (Settles (inr 7%nat)) in
  awaiting h = Some 0%Z /\ cancelledRef h = true /\
  log h' = [EvOperation; EvShouldRetry 7%nat 0;
            EvOnMaxAttemptsReached 7%nat 1] /\
  promise h' = Rejected (OperationError 7%nat) /\
  promise h' <> Rejected OperationCancelled.
Proof. vm_compute. repeat split; try reflexivity. discriminate. Qed.

(** C4, amended.  When an attempt fails while the cancelled flag is set, the
    orchestrator gives up at once: no [onRetry], no timer, [isRetrying]
    false and [timeUntilNextRetry] 0.  It has consulted [shouldRetry] for
    that failure, it invokes [onMaxAttemptsReached] exactly when the attempt
    number has reached [maxAttempts], and it rejects with the operation's
    own error.  The cancellation error, with no callback invoked, is the
    outcome of an attempt that is started while the flag is set. *)
Theorem C4_failure_while_cancelled
    (T E : Type) (opts : RetryOptions E) (h : Hook T E) (n : Z) (error : E) :
  awaiting h = Some n ->
  cancelledRef h = true ->
  let h' := resume opts (inr error) h in
  log h' = log h ++ EvShouldRetry error n ::
             (if (n <? maxAttempts opts)%Z then []
              else [EvOnMaxAttemptsReached error (n + 1)]) /\
  promise h' = Rejected (OperationError error) /\
  awaiting h' = None /\
  timers h' = timers h /\ timeoutRef h' = timeoutRef h /\
  isRetrying (state h') = false /\
  timeUntilNextRetry (state h') = 0%Q /\
  lastError (state h') = Some error /\
  forall m,
    promise (attemptOperation m h) = Rejected OperationCancelled /\
    log (attemptOperation m h) = log h.
Proof.
  intros Ha Hc h'.
  destruct (resume_giveUp opts h error Ha)
    as (Hp & Ha' & Hlog & Hst & Ht & _ & Href & _).
  { rewrite Hc. apply orb_true_r. }
  fold h' in Hp, Ha', Hlog, Hst, Ht, Href.
  rewrite Hst. do 8 (split; [first [assumption|reflexivity]|]).
  intros m. unfold attemptOperation. rewrite Hc. split; reflexivity.
Qed.

Lemma C4_failure_while_cancelled_witness :
  let h : Hook unit nat := run exhaustedOptions [Cancel] (execute mount) in
  let h' := resume exhaustedOptions (inr 7%nat) h in
  log h' = log h ++ [EvShouldRetry 7%nat 0; EvOnMaxAttemptsReached 7%nat 1] /\
  promise h' = Rejected (OperationError 7%nat) /\
  awaiting h' = None /\
  timers h' = timers h /\ timeoutRef h' = timeoutRef h /\
  isRetrying (state h') = false /\
  timeUntilNextRetry (state h') = 0%Q /\
  lastError (state h') = Some 7%nat /\
  forall m,
    promise (attemptOperation m h) = Rejected OperationCancelled /\
    log (attemptOperation m h) = log h.
Proof.
  intros h h'.
  exact (@C4_failure_while_cancelled unit nat exhaustedOptions h 0%Z 7%nat
           eq_refl eq_refl).
Defined.

(** C8 does not hold as the specification words it.  Without exponential
    backoff the delay is [initialDelay], here 60000 ms against a [maxDelay]
    of 30000 ms. *)
Lemma C8_counterexample :
  calculateDelay fixedDelayOptions 1 = 60000%Q /\
  ~ (0 <= calculateDelay fixedDelayOptions 1 /\
     calculateDelay fixedDelayOptions 1 <= maxDelay fixedDelayOptions)%Q.
Proof.
  split; [reflexivity|]. intros [_ Hle]. vm_compute in Hle. now apply Hle.
Qed.

(** C10. [cancel()] sets [isRetrying] to false and [timeUntilNextRetry] to
    0 and leaves [currentAttempt], [lastError] and [totalAttempts] as they
    were; it is [reset()] that restores the all-zero snapshot.  After a
    [cancel()] during the backoff wait, the error and the counters stay as
    they were through everything that follows, until [reset()] is called. *)
Theorem C10_cancel_keeps_error_and_counters
    (T E : Type) (opts : RetryOptions E) (h : Hook T E) :
  (isRetrying (state (cancel h)) = false /\
   timeUntilNextRetry (state (cancel h)) = 0%Q /\
   currentAttempt (state (cancel h)) = currentAttempt (state h) /\
   lastError (state (cancel h)) = lastError (state h) /\
   totalAttempts (state (cancel h)) = totalAttempts (state h)) /\
  state (reset h) = initialState /\
  (forall n ins,
     Waiting n h -> Forall (@notReset T E) ins ->
     let h' := run opts ins (cancel h) in
     currentAttempt (state h') = currentAttempt (state h) /\
     lastError (state h') = lastError (state h) /\
     totalAttempts (state h') = totalAttempts (state h)).
Proof.
  destruct (cancel_frame h) as (_ & _ & _ & _ & Hst).
  destruct (reset_frame h) as (_ & _ & _ & _ & Hreset).
  split; [rewrite Hst; repeat split; reflexivity|]. split; [exact Hreset|].
  intros n ins Hw Hins h'.
  destruct (stranded_run_snapshot opts (waiting_cancel_stranded Hw) Hins)
    as (H1 & H2 & H3).
  fold h' in H1, H2, H3. rewrite Hst in H1, H2, H3.
  repeat split; assumption.
Qed.

Lemma C10_cancel_keeps_error_and_counters_witness :
  let h : Hook unit nat :=
    run countingOptions [Settles (inr 7%nat)] (execute mount) in
  let h' :=
    run countingOptions [Advance 100; Fires 1; Fires 2; Cancel] (cancel h) in
  lastError (state h) = Some 7%nat /\
  currentAttempt (state h') = 0%Z /\
  lastError (state h') = Some 7%nat /\
  totalAttempts (state h') = 1%Z.
Proof.
  intros h h'. split; [reflexivity|].
  refine (proj2 (proj2 (@C10_cancel_keeps_error_and_counters
                          unit nat countingOptions h)) 0%Z _ _ _).
  - apply first_failure_waiting; reflexivity.
  - repeat constructor.
Defined.

End RetryFacts.

(* ===================================================================== *)
(** ** The backoff delay on numbers with their special values            *)
(* ===================================================================== *)

Module DoublesFacts.

Import Retry.
Import Doubles.

Lemma threshold_pos : (0 < overflowThreshold)%Q.
Proof. reflexivity. Qed.

Lemma round_nonneg q :
  (0 <= q)%Q ->
  (round q = Finite q /\ (q < overflowThreshold)%Q) \/
  (round q = PosInfinity /\ (overflowThreshold <= q)%Q).
Proof.
  intros Hq. unfold round.
  destruct (Qle_bool overflowThreshold q) eqn:Hov.
  - right. split; [reflexivity|now apply Qle_bool_iff].
  - assert (Hlt : (q < overflowThreshold)%Q).
    { apply Qnot_le_lt. intros H. apply Qle_bool_iff in H. congruence. }
    destruct (Qle_bool q (- overflowThreshold)) eqn:Hneg.
    + apply Qle_bool_iff in Hneg. exfalso.
      assert (H0 : (- overflowThreshold < 0)%Q) by reflexivity.
      apply (Qlt_irrefl 0).
      eapply Qle_lt_trans; [exact Hq|]. eapply Qle_lt_trans; eassumption.
    + left. now split.
Qed.

Lemma min_le_maxDelay (a : Number) (M : Q) :
  Math_min a (Finite M) = NaN \/ le (Math_min a (Finite M)) (Finite M).
Proof.
  destruct a as [x| | |]; simpl.
  - right. apply Q.le_min_r.
  - right. apply Qle_refl.
  - now right.
  - now left.
Qed.

Lemma pow_nonneg (m : Q) (n : Z) :
  (0 <= m)%Q ->
  (exists x, Math_pow (Finite m) n = Finite x /\ (0 <= x)%Q) \/
  Math_pow (Finite m) n = PosInfinity.
Proof.
  intros Hm. unfold Math_pow.
  destruct (n =? 0)%Z; [left; exists 1%Q; split; [reflexivity|discriminate]|].
  destruct (Qeq_bool m 0 && (n <? 0)%Z); [now right|].
  destruct (round_nonneg (Qpower_0_le m n Hm)) as [[-> _]|[-> _]].
  - left. exists (m ^ n)%Q. split; [reflexivity|now apply Qpower_0_le].
  - now right.
Qed.

Lemma times_nonneg (i x : Q) :
  (0 <= i)%Q -> (0 <= x)%Q ->
  (times (Finite i) (Finite x) = Finite (i * x) /\
   (i * x < overflowThreshold)%Q) \/
  (times (Finite i) (Finite x) = PosInfinity /\
   (overflowThreshold <= i * x)%Q).
Proof.
  intros Hi Hx. simpl. apply round_nonneg. now apply Qmult_le_0_compat.
Qed.

Lemma times_infinity (i : Q) :
  (0 <= i)%Q ->
  (i == 0 /\ times (Finite i) PosInfinity = NaN) \/
  (0 < i /\ times (Finite i) PosInfinity = PosInfinity)%Q.
Proof.
  intros Hi. simpl. unfold scale.
  destruct (Qeq_bool i 0) eqn:H0.
  - left. split; [now apply Qeq_bool_iff|reflexivity].
  - assert (Hne : ~ i == 0).
    { intros H. apply Qeq_bool_iff in H. congruence. }
    assert (Hpos : (0 < i)%Q).
    { apply Qle_lteq in Hi as [Hi|Hi]; [exact Hi|]. now symmetry in Hi. }
    right. split; [exact Hpos|].
    destruct (Qle_bool i 0) eqn:Hle; [|reflexivity].
    apply Qle_bool_iff in Hle. exfalso. apply (Qlt_irrefl 0).
    eapply Qlt_le_trans; eassumption.
Qed.

Lemma calculateDelay_linear_number (E : Type) (opts : RetryOptions E) k :
  useExponentialBackoff opts = false ->
  calculateDelay opts k = Finite (initialDelay opts).
Proof. intros Hexp. unfold calculateDelay. now rewrite Hexp. Qed.

Lemma calculateDelay_exponential_number (E : Type) (opts : RetryOptions E) k :
  useExponentialBackoff opts = true ->
  calculateDelay opts k =
  Math_min (times (Finite (initialDelay opts))
                  (Math_pow (Finite (backoffMultiplier opts)) (k - 1)))
           (Finite (maxDelay opts)).
Proof. intros Hexp. unfold calculateDelay. now rewrite Hexp. Qed.

(** Where nothing overflows and no zero is raised to a negative power, the
    delay is the finite number that exact arithmetic gives. *)
Lemma calculateDelay_finite (E : Type) (opts : RetryOptions E) k :
  let power := (backoffMultiplier opts ^ (k - 1))%Q in
  (0 <= initialDelay opts)%Q -> (0 <= backoffMultiplier opts)%Q ->
  ((0 < backoffMultiplier opts)%Q \/ (0 <= k - 1)%Z) ->
  (power < overflowThreshold)%Q ->
  (initialDelay opts * power < overflowThreshold)%Q ->
  calculateDelay opts k = Finite (Retry.calculateDelay opts k).
Proof.
  intros power Hi Hm Hz Hp Hip.
  unfold calculateDelay, Retry.calculateDelay.
  destruct (useExponentialBackoff opts); [|reflexivity]. cbn [negb].
  cbv zeta. fold power.
  assert (Hpow : Math_pow (Finite (backoffMultiplier opts)) (k - 1)
                 = Finite power \/
                 (k - 1 = 0)%Z).
  { unfold Math_pow. destruct (k - 1 =? 0)%Z eqn:Hk0.
    - right. now apply Z.eqb_eq.
    - left.
      assert (Hnz : Qeq_bool (backoffMultiplier opts) 0 && (k - 1 <? 0)%Z
                    = false).
      { destruct Hz as [Hz|Hz].
        - destruct (Qeq_bool (backoffMultiplier opts) 0) eqn:H0;
            [|reflexivity].
          apply Qeq_bool_iff in H0. rewrite H0 in Hz.
          now apply Qlt_irrefl in Hz.
        - apply andb_false_intro2. now apply Z.ltb_ge. }
      rewrite Hnz.
      destruct (round_nonneg (Qpower_0_le _ (k - 1) Hm)) as [[-> _]|[_ Hov]];
        [reflexivity|].
      exfalso. apply (Qlt_irrefl power).
      eapply Qlt_le_trans; eassumption. }
  assert (Hpow' : Math_pow (Finite (backoffMultiplier opts)) (k - 1)
                  = Finite power).
  { destruct Hpow as [Hpow|Hk0]; [exact Hpow|].
    unfold Math_pow, power. rewrite Hk0. reflexivity. }
  rewrite Hpow'.
  destruct (times_nonneg Hi (Qpower_0_le _ (k - 1) Hm)) as [[Ht _]|[_ Hov]].
  - fold power in Ht. rewrite Ht. reflexivity.
  - exfalso. apply (Qlt_irrefl (initialDelay opts * power)).
    eapply Qlt_le_trans; eassumption.
Qed.

(** C8, amended.  Without exponential backoff the delay is [initialDelay],
    whatever [maxDelay] is.  Under exponential backoff the delay is [NaN] or
    at most [maxDelay]; with non-negative [initialDelay],
    [backoffMultiplier] and [maxDelay] it is [NaN] when [initialDelay] is
    zero and the power overflows to [Infinity] (zero times infinity), and a
    finite number in [[0, maxDelay]] when [initialDelay] is positive or the
    power does not overflow. *)
Theorem C8_delay_bounds (E : Type) (opts : RetryOptions E) (k : Z) :
  (useExponentialBackoff opts = false ->
   Doubles.calculateDelay opts k = Finite (initialDelay opts)) /\
  (useExponentialBackoff opts = true ->
   (Doubles.calculateDelay opts k = NaN \/
    le (Doubles.calculateDelay opts k) (Finite (maxDelay opts))) /\
   ((0 <= initialDelay opts)%Q -> (0 <= backoffMultiplier opts)%Q ->
    (0 <= maxDelay opts)%Q ->
    let power := Math_pow (Finite (backoffMultiplier opts)) (k - 1) in
    (initialDelay opts == 0 -> power = PosInfinity ->
     Doubles.calculateDelay opts k = NaN) /\
    ((0 < initialDelay opts)%Q \/ power <> PosInfinity ->
     exists d, Doubles.calculateDelay opts k = Finite d /\
               (0 <= d <= maxDelay opts)%Q))).
Proof.
  split; [apply calculateDelay_linear_number|].
  intros Hexp. rewrite calculateDelay_exponential_number by assumption.
  split; [apply min_le_maxDelay|].
  intros Hi Hm HM power. subst power. split.
  - intros H0 ->. destruct (times_infinity Hi) as [[_ ->]|[Hpos _]];
      [reflexivity|].
    rewrite H0 in Hpos. now apply Qlt_irrefl in Hpos.
  - intros Hok.
    destruct (pow_nonneg (k - 1) Hm) as [(x & Hx & Hx0)|Hinf].
    + rewrite Hx.
      destruct (times_nonneg Hi Hx0) as [[-> _]|[-> _]]; simpl.
      * eexists. split; [reflexivity|]. split; [|apply Q.le_min_r].
        apply Q.min_glb; [now apply Qmult_le_0_compat|exact HM].
      * exists (maxDelay opts). split; [reflexivity|].
        split; [exact HM|apply Qle_refl].
    + rewrite Hinf in *.
      destruct Hok as [Hpos|Hne]; [|now contradiction Hne].
      destruct (times_infinity Hi) as [[H0 _]|[_ ->]].
      * rewrite H0 in Hpos. now apply Qlt_irrefl in Hpos.
      * exists (maxDelay opts). split; [reflexivity|].
        split; [exact HM|apply Qle_refl].
Qed.

Lemma C8_delay_bounds_witness :
  Doubles.calculateDelay countingOptions 3 = Finite 400 /\
  Doubles.calculateDelay overflowingOptions 3 = NaN /\
  (exists d, Doubles.calculateDelay countingOptions 3 = Finite d /\
             (0 <= d <= maxDelay countingOptions)%Q) /\
  Doubles.calculateDelay fixedDelayOptions 3 =
    Finite (initialDelay fixedDelayOptions).
Proof.
  destruct (C8_delay_bounds countingOptions 3) as [_ Hexp].
  destruct (C8_delay_bounds overflowingOptions 3) as [_ Hov].
  destruct (C8_delay_bounds fixedDelayOptions 3) as [Hlin _].
  destruct (Hexp eq_refl) as [_ Hin].
  destruct (Hov eq_refl) as [_ Hnan].
  split; [reflexivity|]. split; [|split].
  - apply Hnan; [discriminate|discriminate|discriminate|reflexivity
                |reflexivity].
  - apply Hin; [discriminate|discriminate|discriminate|].
    left. reflexivity.
  - exact (Hlin eq_refl).
Defined.

(** X11. Backoff never shrinks: without exponential backoff, or with a
    multiplier of at least 1 and a positive initial delay, the delay before
    retry [k + 1] is at least the delay before retry [k], overflow of the
    power included. *)
Theorem retry_backoff_nondecreasing
    (E : Type) (opts : RetryOptions E) (k : Z) :
  useExponentialBackoff opts = false \/
  ((1 <= backoffMultiplier opts)%Q /\ (0 < initialDelay opts)%Q) ->
  le (Doubles.calculateDelay opts k) (Doubles.calculateDelay opts (k + 1)).
Proof.
  intros Hyp.
  destruct (useExponentialBackoff opts) eqn:Hexp.
  2:{ rewrite !calculateDelay_linear_number by assumption. apply Qle_refl. }
  destruct Hyp as [Hlin|[Hm Hi]]; [discriminate|].
  rewrite !calculateDelay_exponential_number by assumption.
  assert (Hm0 : (0 <= backoffMultiplier opts)%Q).
  { eapply Qle_trans; [|exact Hm]. discriminate. }
  assert (Hmpos : (0 < backoffMultiplier opts)%Q).
  { eapply Qlt_le_trans; [|exact Hm]. reflexivity. }
  assert (Hi0 : (0 <= initialDelay opts)%Q) by now apply Qlt_le_weak.
  assert (Hmono : (backoffMultiplier opts ^ (k - 1) <=
                   backoffMultiplier opts ^ (k + 1 - 1))%Q).
  { apply Qpower_le_compat_l; [lia|exact Hm]. }
  (* the power, and the product, as a finite value or an overflow *)
  assert (Hval : forall n,
            let e := (backoffMultiplier opts ^ n)%Q in
            let d := times (Finite (initialDelay opts))
                           (Math_pow (Finite (backoffMultiplier opts)) n) in
            (d = Finite (initialDelay opts * e) /\
             (initialDelay opts * e < overflowThreshold)%Q /\
             (e < overflowThreshold)%Q) \/
            (d = PosInfinity /\
             ((overflowThreshold <= e)%Q \/
              (overflowThreshold <= initialDelay opts * e)%Q))).
  { intros n e d. subst d.
    assert (He0 : (0 <= e)%Q) by now apply Qpower_0_le.
    assert (Hpow : (Math_pow (Finite (backoffMultiplier opts)) n = Finite e /\
                    (e < overflowThreshold)%Q) \/
                   (Math_pow (Finite (backoffMultiplier opts)) n = PosInfinity /\
                    (overflowThreshold <= e)%Q)).
    { unfold Math_pow. destruct (n =? 0)%Z eqn:Hn0.
      - apply Z.eqb_eq in Hn0. subst n. left. split; reflexivity.
      - assert (Hnz : Qeq_bool (backoffMultiplier opts) 0 = false).
        { destruct (Qeq_bool (backoffMultiplier opts) 0) eqn:H0;
            [|reflexivity].
          apply Qeq_bool_iff in H0. rewrite H0 in Hmpos.
          now apply Qlt_irrefl in Hmpos. }
        rewrite Hnz. cbn [andb]. now apply round_nonneg. }
    destruct Hpow as [[-> He]|[-> He]].
    - destruct (times_nonneg Hi0 He0) as [[-> Hlt]|[-> Hov]].
      + left. now repeat split.
      + right. split; [reflexivity|now right].
    - destruct (times_infinity Hi0) as [[H0 _]|[_ ->]].
      + rewrite H0 in Hi. now apply Qlt_irrefl in Hi.
      + right. split; [reflexivity|now left]. }
  assert (Hprod : (initialDelay opts * backoffMultiplier opts ^ (k - 1) <=
                   initialDelay opts * backoffMultiplier opts ^ (k + 1 - 1))%Q).
  { apply Qmult_le_compat_nonneg.
    - split; [exact Hi0|apply Qle_refl].
    - split; [now apply Qpower_0_le|exact Hmono]. }
  destruct (Hval (k - 1)%Z) as [(-> & Hlt1 & He1)|(-> & Hov1)];
    destruct (Hval (k + 1 - 1)%Z) as [(-> & Hlt2 & He2)|(-> & Hov2)]; simpl.
  - now apply Q.min_le_compat_r.
  - apply Q.le_min_r.
  - exfalso. destruct Hov1 as [Hov1|Hov1].
    + apply (Qlt_irrefl overflowThreshold).
      eapply Qle_lt_trans; [exact Hov1|].
      eapply Qle_lt_trans; [exact Hmono|exact He2].
    + apply (Qlt_irrefl overflowThreshold).
      eapply Qle_lt_trans; [exact Hov1|].
      eapply Qle_lt_trans; [exact Hprod|exact Hlt2].
  - apply Qle_refl.
Qed.

Lemma retry_backoff_nondecreasing_witness :
  le (Doubles.calculateDelay countingOptions 9)
     (Doubles.calculateDelay countingOptions 10) /\
  Doubles.calculateDelay countingOptions 9 = Finite 25600 /\
  Doubles.calculateDelay countingOptions 10 = Finite 30000.
Proof.
  split; [|split; reflexivity].
  apply (@retry_backoff_nondecreasing nat countingOptions 9).
  right. split; [discriminate|reflexivity].
Defined.

End DoublesFacts.

(* ===================================================================== *)
(** ** Properties of useBatchedUpdates                                    *)
(* ===================================================================== *)

Module BatchFacts.

Import Batch.

(** *** Where the updates are *)

Ltac mem :=
  rewrite ?elem_of_app, ?elem_of_cons, ?elem_of_nil in *;
  intuition (subst; eauto).

Section Accounting.

Variable T : Type.

Implicit Types A D P N items : list T.
Implicit Types pay : nat -> option (list T).

Lemma Accounted_mount : Accounted (T:=T) [] [] [] (fun _ => None).
Proof.
  split; [constructor|]. split; [|split].
  - intros x Hx. now apply elem_of_nil in Hx.
  - discriminate.
  - discriminate.
Qed.

(** Deferred deliveries are dropped, none is added. *)
Lemma Accounted_drop A D P pay pay' :
  Accounted A D P pay ->
  (forall i items, pay' i = Some items -> pay i = Some items) ->
  Accounted A D P pay'.
Proof.
  intros (Hnd & Hin & Hpay & Hdis) Hsub.
  split; [assumption|]. split; [assumption|]. split.
  - intros i items Hi. apply (Hpay i), Hsub, Hi.
  - intros i j itemsI itemsJ Hij Hi Hj. eapply Hdis; eauto.
Qed.

(** [clear()]: the pending updates are forgotten. *)
Lemma Accounted_clear A D P pay :
  Accounted A D P pay -> Accounted A D [] pay.
Proof.
  intros (Hnd & Hin & Hpay & Hdis). unfold Accounted. rewrite app_nil_r.
  apply NoDup_app in Hnd as (HD & _ & _).
  split; [assumption|]. split; [|split; [|assumption]].
  - intros x Hx. apply Hin. mem.
  - intros i items Hi. destruct (Hpay i items Hi) as [Hnd Hx].
    split; [assumption|]. intros x Hxi.
    destruct (Hx x Hxi) as [HxA HxDP]. split; [assumption|mem].
Qed.

(** [flush()]: the pending updates are handed over. *)
Lemma Accounted_flush A D P pay :
  Accounted A D P pay -> Accounted A (D ++ P) [] pay.
Proof.
  intros (Hnd & Hin & Hpay & Hdis). unfold Accounted. rewrite app_nil_r.
  split; [assumption|]. split; [assumption|]. split; assumption.
Qed.

(** A deferred delivery fires. *)
Lemma Accounted_deliver A D P pay pay' j items :
  Accounted A D P pay ->
  pay j = Some items ->
  (forall i its, pay' i = Some its -> i <> j /\ pay i = Some its) ->
  Accounted A (D ++ items) P pay'.
Proof.
  intros (Hnd & Hin & Hpay & Hdis) Hj Hsub.
  destruct (Hpay j items Hj) as [Hndi Hi].
  apply NoDup_app in Hnd as (HD & HDP & HP).
  split; [|split; [|split]].
  - rewrite <- app_assoc. apply NoDup_app. split; [assumption|]. split.
    + intros x Hx [Hxi|Hxp]%elem_of_app; [|now apply (HDP x)].
      apply (Hi x Hxi). mem.
    + apply NoDup_app. split; [assumption|]. split; [|assumption].
      intros x Hxi Hxp. apply (Hi x Hxi). mem.
  - intros x Hx. rewrite <- app_assoc in Hx.
    apply elem_of_app in Hx as [Hx|[Hx|Hx]%elem_of_app].
    + apply Hin. mem.
    + now apply Hi.
    + apply Hin. mem.
  - intros i its Hi'. destruct (Hsub i its Hi') as [Hne Hi0].
    destruct (Hpay i its Hi0) as [Hndits Hits].
    split; [assumption|]. intros x Hx.
    destruct (Hits x Hx) as [HxA HxDP]. split; [assumption|].
    rewrite <- app_assoc. intros [HxD|[Hxi|HxP]%elem_of_app]%elem_of_app.
    + apply HxDP. mem.
    + now apply (Hdis i j its items Hne Hi0 Hj x).
    + apply HxDP. mem.
  - intros i k itemsI itemsK Hik Hi' Hk.
    destruct (Hsub _ _ Hi') as [_ Hi0]. destruct (Hsub _ _ Hk) as [_ Hk0].
    eapply Hdis; eauto.
Qed.

(** [addUpdate], retaining branch: the batch becomes [N], made of pending
    updates and the new one. *)
Lemma Accounted_retain A D P N pay u :
  Accounted A D P pay ->
  u ∉ A ->
  NoDup N -> (forall y, y ∈ N -> y ∈ P \/ y = u) ->
  Accounted (A ++ [u]) D N pay.
Proof.
  intros (Hnd & Hin & Hpay & Hdis) Hu HN Hsub.
  apply NoDup_app in Hnd as (HD & HDP & HP).
  assert (HuD : u ∉ D) by (intros Hx; apply Hu, Hin; mem).
  split; [|split; [|split; [|assumption]]].
  - apply NoDup_app. split; [assumption|]. split; [|assumption].
    intros x HxD HxN. destruct (Hsub x HxN) as [HxP| ->];
      [now apply (HDP x)|contradiction].
  - intros x [Hx|Hx]%elem_of_app.
    + apply elem_of_app. left. apply Hin. mem.
    + destruct (Hsub x Hx) as [HxP| ->]; [|mem].
      apply elem_of_app. left. apply Hin. mem.
  - intros i items Hi. destruct (Hpay i items Hi) as [Hndi Hits].
    split; [assumption|]. intros x Hx.
    destruct (Hits x Hx) as [HxA HxDP]. split; [mem|].
    intros [HxD|HxN]%elem_of_app; [apply HxDP; mem|].
    destruct (Hsub x HxN) as [HxP| ->]; [apply HxDP; mem|contradiction].
Qed.

(** [addUpdate], flushing branches: the payload [N], made of pending
    updates and the new one, is deferred under handle [k]; the batch is
    emptied. *)
Lemma Accounted_defer A D P N pay pay' u k :
  Accounted A D P pay ->
  u ∉ A ->
  NoDup N -> (forall y, y ∈ N -> y ∈ P \/ y = u) ->
  (forall i its, pay' i = Some its ->
     (i = k /\ its = N) \/ (i <> k /\ pay i = Some its)) ->
  Accounted (A ++ [u]) D [] pay'.
Proof.
  intros Hacc Hu HN Hsub Hpay'.
  pose proof (Accounted_retain Hacc Hu HN Hsub) as (Hnd & Hin & Hpay & Hdis).
  apply NoDup_app in Hnd as (HD & HDN & _).
  unfold Accounted. rewrite app_nil_r. split; [assumption|]. split; [|split].
  - intros x Hx. apply Hin. mem.
  - intros i its Hi. destruct (Hpay' i its Hi) as [[-> ->]|[_ Hi0]].
    + split; [assumption|]. intros x Hx. split; [apply Hin; mem|].
      intros HxD. now apply (HDN x).
    + destruct (Hpay i its Hi0) as [Hndits Hits].
      split; [assumption|]. intros x Hx.
      destruct (Hits x Hx) as [HxA HxDN]. split; [assumption|mem].
  - intros i j itemsI itemsJ Hij Hi Hj x HxI HxJ.
    destruct (Hpay' i itemsI Hi) as [[-> ->]|[Hik Hi0]];
      destruct (Hpay' j itemsJ Hj) as [[-> ->]|[Hjk Hj0]].
    + contradiction.
    + destruct (Hpay j itemsJ Hj0) as [_ Hits].
      destruct (Hits x HxJ) as [_ HxDN]. mem.
    + destruct (Hpay i itemsI Hi0) as [_ Hits].
      destruct (Hits x HxI) as [_ HxDN]. mem.
    + now apply (Hdis i j itemsI itemsJ Hij Hi0 Hj0 x).
Qed.

End Accounting.

Section Machine.

Variable T : Type.
Variable opts : BatchedUpdatesOptions T.

Implicit Types h : Hook T.

(** *** Frame lemmas *)

Lemma clearTimers_frame h :
  let h' := clearTimers h in
  pendingUpdates h' = pendingUpdates h /\ log h' = log h /\
  isFirstUpdateRef h' = isFirstUpdateRef h /\
  hasPendingUpdatesRef h' = hasPendingUpdatesRef h /\
  timeoutRef h' = None /\ countdownRef h' = None.
Proof.
  unfold clearTimers.
  destruct (timeoutRef h) as [i|] eqn:Hi; simpl;
    destruct (countdownRef h) as [c|] eqn:Hc; simpl;
    repeat split; first [reflexivity|assumption].
Qed.

Lemma clearTimers_timers h j t :
  timers (clearTimers h) !! j = Some t ->
  timers h !! j = Some t /\ timeoutRef h <> Some j.
Proof.
  unfold clearTimers.
  destruct (timeoutRef h) as [i|]; simpl;
    destruct (countdownRef h) as [c|]; simpl;
    rewrite ?lookup_delete; repeat case_decide;
    intros Hj; split; congruence.
Qed.

Lemma clearTimers_noFlushTimer h :
  flushTimerTracked h -> noFlushTimer (clearTimers h).
Proof.
  intros Htr j t Hj Hcb.
  apply clearTimers_timers in Hj as [Hj Hne].
  apply Hne. now apply (Htr j t).
Qed.

Lemma countdown_poll_frame h :
  let h' := updateCountdown opts h in
  pendingUpdates h' = pendingUpdates h /\ log h' = log h /\
  isFirstUpdateRef h' = isFirstUpdateRef h /\
  hasPendingUpdatesRef h' = hasPendingUpdatesRef h /\
  timeoutRef h' = timeoutRef h.
Proof.
  unfold updateCountdown.
  destruct (negb (hasPendingUpdatesRef h)); simpl;
    [repeat split; reflexivity|].
  destruct (0 <? _)%Z; simpl; repeat split; reflexivity.
Qed.

Lemma countdown_poll_timers h j t :
  timers (updateCountdown opts h) !! j = Some t ->
  timers h !! j = Some t \/ cb t = CbCountdown.
Proof.
  unfold updateCountdown.
  destruct (negb (hasPendingUpdatesRef h)); simpl; [now left|].
  destruct (0 <? _)%Z; simpl; [|now left].
  rewrite lookup_insert. case_decide; [intros [= <-]; now right|now left].
Qed.

Lemma startCountdown_frame h :
  let h' := startCountdown opts h in
  pendingUpdates h' = pendingUpdates h /\ log h' = log h /\
  isFirstUpdateRef h' = isFirstUpdateRef h /\
  hasPendingUpdatesRef h' = hasPendingUpdatesRef h /\
  timeoutRef h' = timeoutRef h.
Proof.
  unfold startCountdown.
  exact (countdown_poll_frame
           (setTimeUntilFlush (batchWindow opts) (setStartTimeRef (clock h) h))).
Qed.

Lemma startCountdown_timers h j t :
  timers (startCountdown opts h) !! j = Some t ->
  timers h !! j = Some t \/ cb t = CbCountdown.
Proof.
  unfold startCountdown. intros Hj.
  exact (countdown_poll_timers _ _ Hj).
Qed.

Lemma scheduleFlush_frame h :
  let h' := scheduleFlush opts h in
  pendingUpdates h' = pendingUpdates h /\ log h' = log h /\
  isFirstUpdateRef h' = isFirstUpdateRef h /\
  hasPendingUpdatesRef h' = hasPendingUpdatesRef h.
Proof.
  unfold scheduleFlush. simpl.
  destruct (startCountdown_frame (clearTimers h)) as (H1 & H2 & H3 & H4 & _).
  destruct (clearTimers_frame h) as (G1 & G2 & G3 & G4 & _).
  repeat split; congruence.
Qed.

Lemma scheduleFlush_timers h :
  exists i,
    timeoutRef (scheduleFlush opts h) = Some i /\
    timers (scheduleFlush opts h) !! i =
      Some {| cb := CbFlush; delay := batchWindow opts |} /\
    forall j t, j <> i ->
      timers (scheduleFlush opts h) !! j = Some t ->
      (timers h !! j = Some t /\ timeoutRef h <> Some j) \/ cb t = CbCountdown.
Proof.
  unfold scheduleFlush. simpl.
  exists (nextHandle (startCountdown opts (clearTimers h))).
  split; [reflexivity|]. split; [apply lookup_insert_eq|].
  intros j t Hne. rewrite lookup_insert_ne by congruence. intros Hj.
  apply startCountdown_timers in Hj as [Hj|Hj]; [left|now right].
  now apply clearTimers_timers.
Qed.

Lemma render_frame (before h : Hook T) :
  let h' := render before h in
  pendingUpdates h' = pendingUpdates h /\ log h' = log h /\
  isFirstUpdateRef h' = isFirstUpdateRef h /\
  timeoutRef h' = timeoutRef h /\ timers h' = timers h.
Proof.
  unfold render. destruct (Bool.eqb _ _); simpl; repeat split; reflexivity.
Qed.

Lemma flushPendingCleanup_frame h :
  let h' := flushPendingCleanup h in
  pendingUpdates h' = pendingUpdates h /\
  isFirstUpdateRef h' = isFirstUpdateRef h /\
  timeoutRef h' = timeoutRef h /\ timers h' = timers h /\
  log h' =
    log h ++
    (if isEmpty (pendingUpdatesRef h) then []
     else [EvOnFlush (pendingUpdatesRef h) (length (pendingUpdatesRef h));
           EvConsumer (pendingUpdatesRef h)]).
Proof.
  unfold flushPendingCleanup.
  destruct (isEmpty (pendingUpdatesRef h)); simpl;
    rewrite ?app_nil_r; repeat split; reflexivity.
Qed.

(** After a commit [pendingUpdatesRef] holds the committed batch. *)
Lemma render_synced (before h : Hook T) :
  pendingUpdatesRef (render before h) = pendingUpdates (render before h).
Proof. unfold render. destruct (Bool.eqb _ _); reflexivity. Qed.

Lemma step_synced h inp :
  pendingUpdatesRef (step opts h inp) = pendingUpdates (step opts h inp).
Proof. apply render_synced. Qed.

Lemma run_synced ins : forall h,
  pendingUpdatesRef h = pendingUpdates h ->
  pendingUpdatesRef (run opts ins h) = pendingUpdates (run opts ins h).
Proof.
  induction ins as [|inp ins IH]; intros h Hs; [exact Hs|].
  change (run opts (inp :: ins) h) with (run opts ins (step opts h inp)).
  apply IH, step_synced.
Qed.

(** *** [flush], [addUpdate], [clear], [fire] *)

Lemma isEmpty_true (l : list T) : isEmpty l = true <-> l = [].
Proof. destruct l; simpl; split; congruence. Qed.

Lemma isEmpty_false (l : list T) : isEmpty l = false <-> l <> [].
Proof. destruct l; simpl; split; congruence. Qed.

Lemma flush_empty h : pendingUpdates h = [] -> flush h = h.
Proof. intros Hp. unfold flush. now rewrite Hp. Qed.

Lemma flush_nonempty h :
  pendingUpdates h <> [] ->
  let p := pendingUpdates h in
  let h' := flush h in
  pendingUpdates h' = [] /\
  log h' = log h ++ [EvOnFlush p (length p); EvConsumer p] /\
  isFirstUpdateRef h' = true /\ hasPendingUpdatesRef h' = false /\
  timeUntilFlush h' = 0%Z /\
  timeoutRef h' = None /\ countdownRef h' = None /\
  timers h' = timers (clearTimers h).
Proof.
  intros Hp p h'. subst h'. unfold flush.
  apply isEmpty_false in Hp. rewrite Hp. simpl.
  destruct (clearTimers_frame h) as (_ & Hlog & _ & _ & Href & Hcd).
  rewrite Hlog. repeat split; assumption.
Qed.

Lemma fire_missing h j : timers h !! j = None -> fire opts j h = h.
Proof. intros Hj. unfold fire. now rewrite Hj. Qed.

Lemma fire_lookup h j t :
  timers h !! j = Some t ->
  fire opts j h =
  match cb t with
  | CbFlush => flush (setTimers (delete j (timers h)) h)
  | CbCountdown => updateCountdown opts (setTimers (delete j (timers h)) h)
  | CbDeliver items size =>
    deliver items size (setTimers (delete j (timers h)) h)
  end.
Proof. intros Hj. unfold fire. now rewrite Hj. Qed.

(** The three branches of [addUpdate]. *)
Lemma addUpdate_first h update :
  flushOnFirst opts = true -> isFirstUpdateRef h = true ->
  let h' := addUpdate opts update h in
  pendingUpdates h' = [] /\ log h' = log h /\
  isFirstUpdateRef h' = false /\
  timeoutRef h' = timeoutRef h /\
  timers h' =
    <[nextHandle h := {| cb := CbDeliver [update] 1; delay := 0 |}]>
      (timers h).
Proof.
  intros Hf Hfirst. unfold addUpdate. rewrite Hf, Hfirst. simpl.
  repeat split; reflexivity.
Qed.

Lemma addUpdate_size h update :
  flushOnFirst opts && isFirstUpdateRef h = false ->
  let newUpdates := reducer opts (pendingUpdates h) update in
  (maxBatchSize opts <= Z.of_nat (length newUpdates))%Z ->
  let h' := addUpdate opts update h in
  pendingUpdates h' = [] /\ log h' = log h /\
  isFirstUpdateRef h' = true /\
  timeoutRef h' = timeoutRef h /\
  timers h' =
    <[nextHandle h :=
        {| cb := CbDeliver newUpdates (length newUpdates); delay := 0 |}]>
      (timers h).
Proof.
  intros Hf newUpdates Hsize. unfold addUpdate. rewrite Hf.
  apply Z.leb_le in Hsize. fold newUpdates. rewrite Hsize. simpl.
  repeat split; reflexivity.
Qed.

Lemma addUpdate_retain h update :
  flushOnFirst opts && isFirstUpdateRef h = false ->
  let newUpdates := reducer opts (pendingUpdates h) update in
  (Z.of_nat (length newUpdates) < maxBatchSize opts)%Z ->
  addUpdate opts update h =
  setPendingUpdates newUpdates
    (setIsFirstUpdateRef false
       (if isEmpty (pendingUpdates h)
        then scheduleFlush opts (setHasPendingUpdatesRef true h)
        else h)).
Proof.
  intros Hf newUpdates Hsize. unfold addUpdate. rewrite Hf.
  apply Z.leb_gt in Hsize. fold newUpdates. rewrite Hsize. reflexivity.
Qed.

(** *** The accounting invariant along a run *)

Lemma delivered_app (l1 l2 : list (Event T)) :
  delivered (l1 ++ l2) = delivered l1 ++ delivered l2.
Proof. unfold delivered. apply flat_map_app. Qed.

Lemma delivered_deliver h items size :
  delivered (log (deliver items size h)) = delivered (log h) ++ items.
Proof.
  unfold deliver. simpl. rewrite delivered_app. simpl.
  now rewrite app_nil_r.
Qed.

Lemma payloadAt_Some h i items :
  payloadAt h i = Some items <->
  exists t size, timers h !! i = Some t /\ cb t = CbDeliver items size.
Proof.
  unfold payloadAt. split.
  - destruct (timers h !! i) as [[[| |its sz] d]|]; try discriminate.
    intros [= ->]. eauto.
  - intros (t & size & -> & Hcb). destruct t as [c d]. simpl in Hcb.
    now subst c.
Qed.

(** Timers are cleared, countdown and auto-flush timers are armed: no
    payload appears. *)
Lemma payloadAt_kept h h' :
  (forall j t, timers h' !! j = Some t ->
     timers h !! j = Some t \/ cb t = CbCountdown \/ cb t = CbFlush) ->
  forall i items, payloadAt h' i = Some items -> payloadAt h i = Some items.
Proof.
  intros Hsub i items (t & size & Hi & Hcb)%payloadAt_Some.
  apply payloadAt_Some. exists t, size. split; [|assumption].
  destruct (Hsub i t Hi) as [Hold|[Hc|Hc]]; [assumption|congruence|congruence].
Qed.

Lemma payloadAt_insert h h' k items size d :
  timers h' = <[k := {| cb := CbDeliver items size; delay := d |}]> (timers h) ->
  forall i its, payloadAt h' i = Some its ->
    (i = k /\ its = items) \/ (i <> k /\ payloadAt h i = Some its).
Proof.
  intros Ht i its. unfold payloadAt at 1. rewrite Ht, lookup_insert.
  case_decide as Hik.
  - intros [= <-]. left. split; congruence.
  - intros Hi. right. split; [congruence|exact Hi].
Qed.

Lemma payloadAt_delete h h' j :
  timers h' = delete j (timers h) ->
  forall i its, payloadAt h' i = Some its ->
    i <> j /\ payloadAt h i = Some its.
Proof.
  intros Ht i its. unfold payloadAt at 1. rewrite Ht, lookup_delete.
  case_decide as Hij; [discriminate|].
  intros Hi. split; [congruence|exact Hi].
Qed.

Lemma accounted_pending A h :
  accounted A h ->
  NoDup (pendingUpdates h) /\ forall x, x ∈ pendingUpdates h -> x ∈ A.
Proof.
  intros (Hnd & Hin & _). apply NoDup_app in Hnd as (_ & _ & HP).
  split; [assumption|]. intros x Hx. apply Hin. mem.
Qed.

Lemma accounted_addUpdate A h update :
  conservative (reducer opts) ->
  accounted A h -> update ∉ A ->
  accounted (A ++ [update]) (addUpdate opts update h).
Proof.
  intros Hred Hacc Hu.
  destruct (accounted_pending Hacc) as [HndP HPA].
  assert (HuP : update ∉ pendingUpdates h) by (intros Hx; now apply Hu, HPA).
  destruct (Hred _ _ HndP HuP) as [HndN HsubN].
  destruct (flushOnFirst opts && isFirstUpdateRef h) eqn:Hf.
  - apply andb_true_iff in Hf as [Hf1 Hf2].
    destruct (addUpdate_first h update Hf1 Hf2) as (Hp & Hl & _ & _ & Ht).
    unfold accounted. rewrite Hp, Hl.
    eapply (Accounted_defer (N:=[update])); [exact Hacc|exact Hu| | |].
    + apply NoDup_singleton.
    + intros y Hy. right. now apply list_elem_of_singleton in Hy.
    + eapply payloadAt_insert. exact Ht.
  - set (newUpdates := reducer opts (pendingUpdates h) update) in *.
    destruct (Z_lt_le_dec (Z.of_nat (length newUpdates)) (maxBatchSize opts))
      as [Hlt|Hle].
    + rewrite (addUpdate_retain h update Hf Hlt). fold newUpdates.
      unfold accounted. simpl.
      destruct (isEmpty (pendingUpdates h)).
      * destruct (scheduleFlush_frame (setHasPendingUpdatesRef true h))
          as (_ & Hl & _). rewrite Hl. simpl.
        eapply Accounted_drop;
          [exact (Accounted_retain Hacc Hu HndN HsubN)|].
        apply payloadAt_kept. intros j t Hj.
        change (timers (scheduleFlush opts (setHasPendingUpdatesRef true h))
                  !! j = Some t) in Hj.
        destruct (scheduleFlush_timers (setHasPendingUpdatesRef true h))
          as (i & _ & Hi & Hother).
        destruct (decide (j = i)) as [->|Hne].
        -- rewrite Hi in Hj. injection Hj as <-. now right; right.
        -- destruct (Hother j t Hne Hj) as [[Hold _]|Hc];
             [now left|now right; left].
      * exact (Accounted_retain Hacc Hu HndN HsubN).
    + destruct (addUpdate_size h update Hf Hle) as (Hp & Hl & _ & _ & Ht).
      unfold accounted. rewrite Hp, Hl.
      eapply (Accounted_defer (N:=newUpdates));
        [exact Hacc|exact Hu|exact HndN|exact HsubN|].
      eapply payloadAt_insert. exact Ht.
Qed.

Lemma accounted_flush A h : accounted A h -> accounted A (flush h).
Proof.
  intros Hacc.
  destruct (pendingUpdates h) as [|x p] eqn:Hp;
    [now rewrite (flush_empty _ Hp)|].
  assert (Hne : pendingUpdates h <> []) by (rewrite Hp; discriminate).
  destruct (flush_nonempty h Hne) as (Hp' & Hl & _ & _ & _ & _ & _ & Ht).
  unfold accounted. rewrite Hp', Hl, delivered_app. simpl.
  rewrite app_nil_r.
  eapply Accounted_drop; [exact (Accounted_flush Hacc)|].
  apply payloadAt_kept. intros j t Hj. left. rewrite Ht in Hj.
  now apply clearTimers_timers in Hj.
Qed.

Lemma accounted_clear A h : accounted A h -> accounted A (clear h).
Proof.
  intros Hacc. unfold accounted, clear. simpl.
  destruct (clearTimers_frame h) as (_ & Hl & _). rewrite Hl.
  eapply Accounted_drop; [exact (Accounted_clear Hacc)|].
  apply payloadAt_kept. intros j t Hj. left.
  now apply clearTimers_timers in Hj.
Qed.

Lemma accounted_fire A h j : accounted A h -> accounted A (fire opts j h).
Proof.
  intros Hacc.
  destruct (timers h !! j) as [t|] eqn:Hj;
    [|now rewrite (fire_missing _ _ Hj)].
  rewrite (fire_lookup _ _ Hj).
  set (h1 := setTimers (delete j (timers h)) h).
  assert (Hdel : forall i its, payloadAt h1 i = Some its ->
                   i <> j /\ payloadAt h i = Some its).
  { apply payloadAt_delete. reflexivity. }
  assert (Hacc1 : accounted A h1).
  { eapply Accounted_drop; [exact Hacc|]. intros i its Hi.
    now apply Hdel. }
  destruct (cb t) as [| |items size] eqn:Hcb.
  - now apply accounted_flush.
  - destruct (countdown_poll_frame h1) as (Hp & Hl & _).
    unfold accounted. rewrite Hp, Hl.
    eapply Accounted_drop; [exact Hacc1|].
    apply payloadAt_kept. intros i t' Hi.
    apply countdown_poll_timers in Hi as [Hi|Hi]; [now left|now right; left].
  - unfold accounted. rewrite delivered_deliver.
    eapply Accounted_deliver with (j:=j) (items:=items);
      [exact Hacc| |exact Hdel].
    apply payloadAt_Some. eauto.
Qed.

Lemma accounted_render A (before h : Hook T) :
  accounted A h -> accounted A (render before h).
Proof.
  intros Hacc. destruct (render_frame before h) as (Hp & Hl & _ & _ & Ht).
  unfold accounted. rewrite Hp, Hl.
  eapply Accounted_drop; [exact Hacc|].
  intros i items. unfold payloadAt. now rewrite Ht.
Qed.

Lemma accounted_step A h inp :
  conservative (reducer opts) ->
  stableOptions inp ->
  accounted A h ->
  NoDup (A ++ added [inp]) ->
  accounted (A ++ added [inp]) (step opts h inp).
Proof.
  intros Hred Hst Hacc Hnd. unfold step. apply accounted_render.
  destruct inp as [update| | |j|dt|]; simpl; rewrite ?app_nil_r.
  - apply accounted_addUpdate; try assumption.
    simpl in Hnd. apply NoDup_app in Hnd as (_ & Hdis & _).
    intros Hx. apply (Hdis update Hx). mem.
  - now apply accounted_flush.
  - now apply accounted_clear.
  - now apply accounted_fire.
  - exact Hacc.
  - contradiction.
Qed.

Lemma added_app (l1 l2 : list (Input T)) :
  added (l1 ++ l2) = added l1 ++ added l2.
Proof. unfold added. apply flat_map_app. Qed.

Lemma accounted_run ins :
  forall A h,
    conservative (reducer opts) ->
    Forall (@stableOptions T) ins ->
    accounted A h ->
    NoDup (A ++ added ins) ->
    accounted (A ++ added ins) (run opts ins h).
Proof.
  induction ins as [|inp ins IH]; intros A h Hred Hst Hacc Hnd.
  - simpl. now rewrite app_nil_r.
  - apply Forall_cons in Hst as [Hinp Hst].
    change (inp :: ins) with ([inp] ++ ins) in *.
    rewrite added_app, app_assoc in *.
    change (run opts ([inp] ++ ins) h) with (run opts ins (step opts h inp)).
    apply IH; [assumption|assumption| |assumption].
    apply accounted_step; [assumption|assumption|assumption|].
    now apply NoDup_app in Hnd as (Hnd & _).
Qed.

Lemma accounted_mount : accounted [] (@mount T).
Proof.
  eapply Accounted_drop; [apply Accounted_mount|].
  intros i items Hi. unfold payloadAt in Hi. simpl in Hi.
  now rewrite lookup_empty in Hi.
Qed.

(** *** The auto-flush timer along a run *)

Lemma tracked_kept h h' :
  flushTimerTracked h ->
  timeoutRef h' = timeoutRef h ->
  (forall j t, timers h' !! j = Some t ->
     timers h !! j = Some t \/ cb t <> CbFlush) ->
  flushTimerTracked h'.
Proof.
  intros Htr Href Hsub j t Hj Hcb. rewrite Href.
  destruct (Hsub j t Hj) as [Hold|Hne]; [|contradiction].
  now apply (Htr j t).
Qed.

Lemma tracked_noFlushTimer h : noFlushTimer h -> flushTimerTracked h.
Proof. intros Hno j t Hj Hcb. now apply Hno in Hj. Qed.

Lemma tracked_insert_deliver h h' items size d :
  flushTimerTracked h ->
  timeoutRef h' = timeoutRef h ->
  timers h' =
    <[nextHandle h := {| cb := CbDeliver items size; delay := d |}]>
      (timers h) ->
  flushTimerTracked h'.
Proof.
  intros Htr Href Ht. eapply tracked_kept; [exact Htr|exact Href|].
  intros j t. rewrite Ht, lookup_insert.
  case_decide; [intros [= <-]; now right|now left].
Qed.

Lemma tracked_scheduleFlush h :
  flushTimerTracked h -> flushTimerTracked (scheduleFlush opts h).
Proof.
  intros Htr j t Hj Hcb.
  destruct (scheduleFlush_timers h) as (i & Href & Hi & Hother).
  destruct (decide (j = i)) as [->|Hne]; [exact Href|].
  destruct (Hother j t Hne Hj) as [[Hold Hnref]|Hc]; [|congruence].
  exfalso. apply Hnref. now apply (Htr j t).
Qed.

Lemma tracked_addUpdate h update :
  flushTimerTracked h -> flushTimerTracked (addUpdate opts update h).
Proof.
  intros Htr.
  destruct (flushOnFirst opts && isFirstUpdateRef h) eqn:Hf.
  - apply andb_true_iff in Hf as [Hf1 Hf2].
    destruct (addUpdate_first h update Hf1 Hf2) as (_ & _ & _ & Href & Ht).
    eapply tracked_insert_deliver; eassumption.
  - set (newUpdates := reducer opts (pendingUpdates h) update).
    destruct (Z_lt_le_dec (Z.of_nat (length newUpdates)) (maxBatchSize opts))
      as [Hlt|Hle].
    + rewrite (addUpdate_retain h update Hf Hlt).
      destruct (isEmpty (pendingUpdates h)); [|exact Htr].
      apply tracked_scheduleFlush. exact Htr.
    + destruct (addUpdate_size h update Hf Hle) as (_ & _ & _ & Href & Ht).
      eapply tracked_insert_deliver; eassumption.
Qed.

Lemma noFlushTimer_flush h :
  flushTimerTracked h -> pendingUpdates h <> [] -> noFlushTimer (flush h).
Proof.
  intros Htr Hne j t.
  destruct (flush_nonempty h Hne) as (_ & _ & _ & _ & _ & _ & _ & Ht).
  rewrite Ht. now apply clearTimers_noFlushTimer.
Qed.

Lemma tracked_flush h : flushTimerTracked h -> flushTimerTracked (flush h).
Proof.
  intros Htr.
  destruct (pendingUpdates h) as [|x p] eqn:Hp;
    [now rewrite (flush_empty _ Hp)|].
  apply tracked_noFlushTimer, noFlushTimer_flush; [assumption|].
  rewrite Hp. discriminate.
Qed.

Lemma tracked_clear h : flushTimerTracked h -> flushTimerTracked (clear h).
Proof.
  intros Htr. apply tracked_noFlushTimer.
  intros j t Hj. unfold clear in Hj. simpl in Hj. revert Hj.
  now apply clearTimers_noFlushTimer.
Qed.

Lemma tracked_delete h j :
  flushTimerTracked h ->
  flushTimerTracked (setTimers (delete j (timers h)) h).
Proof.
  intros Htr. eapply tracked_kept; [exact Htr|reflexivity|].
  intros i t. simpl. rewrite lookup_delete.
  case_decide; [discriminate|now left].
Qed.

(** When the auto-flush timer fires it is gone, whether or not there was
    anything to flush. *)
Lemma noFlushTimer_fire h j t :
  flushTimerTracked h ->
  timers h !! j = Some t -> cb t = CbFlush ->
  fire opts j h = flush (setTimers (delete j (timers h)) h) /\
  noFlushTimer (fire opts j h).
Proof.
  intros Htr Hj Hcb. rewrite (fire_lookup _ _ Hj), Hcb.
  split; [reflexivity|].
  set (h1 := setTimers (delete j (timers h)) h).
  assert (Hno1 : noFlushTimer h1).
  { intros i t'. simpl. rewrite lookup_delete.
    case_decide as Hij; [discriminate|]. intros Hi Hcb'.
    pose proof (Htr _ _ Hj Hcb) as Hrefj.
    pose proof (Htr _ _ Hi Hcb') as Hrefi. congruence. }
  destruct (pendingUpdates h1) as [|x p] eqn:Hp;
    [now rewrite (flush_empty _ Hp)|].
  apply noFlushTimer_flush; [now apply tracked_noFlushTimer|].
  rewrite Hp. discriminate.
Qed.

Lemma tracked_fire h j : flushTimerTracked h -> flushTimerTracked (fire opts j h).
Proof.
  intros Htr.
  destruct (timers h !! j) as [t|] eqn:Hj;
    [|now rewrite (fire_missing _ _ Hj)].
  destruct (cb t) as [| |items size] eqn:Hcb.
  - apply tracked_noFlushTimer.
    eapply noFlushTimer_fire; eassumption.
  - rewrite (fire_lookup _ _ Hj), Hcb.
    set (h1 := setTimers (delete j (timers h)) h).
    destruct (countdown_poll_frame h1) as (_ & _ & _ & _ & Href).
    eapply tracked_kept; [apply tracked_delete; exact Htr|exact Href|].
    intros i t' Hi.
    apply countdown_poll_timers in Hi as [Hi|Hi]; [now left|right; congruence].
  - rewrite (fire_lookup _ _ Hj), Hcb. apply tracked_delete. exact Htr.
Qed.

Lemma tracked_step h inp :
  flushTimerTracked h -> flushTimerTracked (step opts h inp).
Proof.
  intros Htr. unfold step.
  destruct (render_frame h (handle opts h inp)) as (_ & _ & _ & Href & Ht).
  assert (Hh : flushTimerTracked (handle opts h inp)).
  { destruct inp as [update| | |j|dt|]; simpl.
    - now apply tracked_addUpdate.
    - now apply tracked_flush.
    - now apply tracked_clear.
    - now apply tracked_fire.
    - exact Htr.
    - destruct (flushPendingCleanup_frame h) as (_ & _ & Href' & Ht' & _).
      eapply tracked_kept; [exact Htr|exact Href'|].
      intros j t. rewrite Ht'. now left. }
  eapply tracked_kept; [exact Hh|exact Href|].
  intros j t. rewrite Ht. now left.
Qed.

Lemma tracked_run ins h :
  flushTimerTracked h -> flushTimerTracked (run opts ins h).
Proof.
  revert h. induction ins as [|inp ins IH]; intros h Htr; [exact Htr|].
  simpl. apply IH. now apply tracked_step.
Qed.

Lemma tracked_mount : flushTimerTracked (@mount T).
Proof. intros j t Hj. simpl in Hj. now rewrite lookup_empty in Hj. Qed.

(** *** The shape of the batch along a run *)

Lemma shape_flush h : batchShape opts h -> batchShape opts (flush h).
Proof.
  intros Hsh.
  destruct (pendingUpdates h) as [|x p] eqn:Hp;
    [now rewrite (flush_empty _ Hp)|].
  assert (Hne : pendingUpdates h <> []) by (rewrite Hp; discriminate).
  destruct (flush_nonempty h Hne) as (Hp' & _).
  split; [intros _; exact Hp'|now left].
Qed.

Lemma shape_addUpdate h update :
  batchShape opts h -> batchShape opts (addUpdate opts update h).
Proof.
  intros Hsh.
  destruct (flushOnFirst opts && isFirstUpdateRef h) eqn:Hf.
  - apply andb_true_iff in Hf as [Hf1 Hf2].
    destruct (addUpdate_first h update Hf1 Hf2) as (Hp & _).
    split; [intros _; exact Hp|now left].
  - set (newUpdates := reducer opts (pendingUpdates h) update).
    destruct (Z_lt_le_dec (Z.of_nat (length newUpdates)) (maxBatchSize opts))
      as [Hlt|Hle].
    + rewrite (addUpdate_retain h update Hf Hlt).
      split; [discriminate|now right].
    + destruct (addUpdate_size h update Hf Hle) as (Hp & _).
      split; [intros _; exact Hp|now left].
Qed.

Lemma shape_step h inp : batchShape opts h -> batchShape opts (step opts h inp).
Proof.
  intros Hsh. unfold step.
  destruct (render_frame h (handle opts h inp)) as (Hp & _ & Hfirst & _).
  assert (Hh : batchShape opts (handle opts h inp)).
  { destruct inp as [update| | |j|dt|]; simpl;
      [| | | | |destruct (flushPendingCleanup_frame h) as (Hp0 & Hf0 & _);
                unfold batchShape; rewrite Hp0, Hf0; exact Hsh].
    - now apply shape_addUpdate.
    - now apply shape_flush.
    - split; [reflexivity|now left].
    - destruct (timers h !! j) as [t|] eqn:Hj;
        [|now rewrite (fire_missing _ _ Hj)].
      rewrite (fire_lookup _ _ Hj).
      set (h1 := setTimers (delete j (timers h)) h).
      destruct (cb t) as [| |items size].
      + apply shape_flush. exact Hsh.
      + destruct (countdown_poll_frame h1) as (Hp1 & _ & Hf1 & _).
        unfold batchShape. rewrite Hp1, Hf1. exact Hsh.
      + exact Hsh.
    - exact Hsh. }
  unfold batchShape. rewrite Hp, Hfirst. exact Hh.
Qed.

Lemma shape_run ins h : batchShape opts h -> batchShape opts (run opts ins h).
Proof.
  revert h. induction ins as [|inp ins IH]; intros h Hsh; [exact Hsh|].
  simpl. apply IH. now apply shape_step.
Qed.

Lemma shape_mount : batchShape opts (@mount T).
Proof. split; [reflexivity|now left]. Qed.

Lemma clearTimers_ref h :
  pendingUpdatesRef (clearTimers h) = pendingUpdatesRef h.
Proof.
  unfold clearTimers.
  destruct (timeoutRef h); simpl; destruct (countdownRef h); reflexivity.
Qed.

Lemma unmount_nonempty h :
  pendingUpdatesRef h = pendingUpdates h ->
  pendingUpdates h <> [] ->
  let p := pendingUpdates h in
  log (unmount h) = log h ++ [EvOnFlush p (length p); EvConsumer p] /\
  pendingUpdates (unmount h) = p /\
  timers (unmount h) = timers (clearTimers h).
Proof.
  intros Hs Hne p. unfold unmount.
  destruct (clearTimers_frame h) as (Hp & Hl & _).
  destruct (flushPendingCleanup_frame (clearTimers h))
    as (Hp' & _ & _ & Ht & Hl').
  apply isEmpty_false in Hne.
  rewrite clearTimers_ref, Hs, Hne, Hl in Hl'.
  split; [exact Hl'|]. split; [|exact Ht].
  unfold p. now rewrite <- Hp.
Qed.

(** *** Commits in which the options object is new *)

Lemma flush_ref h : pendingUpdatesRef (flush h) = pendingUpdatesRef h.
Proof.
  unfold flush. destruct (isEmpty (pendingUpdates h)); [reflexivity|].
  simpl. apply clearTimers_ref.
Qed.

(** What a call of [flush()] on a non-empty batch does, before the commit. *)
Lemma flushes_handle h inp :
  pendingUpdates h <> [] -> flushes h inp ->
  let p := pendingUpdates h in
  let h' := handle opts h inp in
  log h' = log h ++ [EvOnFlush p (length p); EvConsumer p] /\
  pendingUpdates h' = [] /\
  pendingUpdatesRef h' = pendingUpdatesRef h /\
  inp <> OptionsChange.
Proof.
  intros Hne [->|(i & t & -> & Hi & Hcb)] p h'; subst h'; simpl handle.
  - destruct (flush_nonempty h Hne) as (Hp & Hl & _).
    split; [exact Hl|]. split; [exact Hp|]. split; [apply flush_ref|].
    discriminate.
  - rewrite (fire_lookup h i Hi), Hcb.
    set (h1 := setTimers (delete i (timers h)) h).
    assert (Hne1 : pendingUpdates h1 <> []) by exact Hne.
    destruct (flush_nonempty h1 Hne1) as (Hp & Hl & _).
    split; [exact Hl|]. split; [exact Hp|].
    split; [exact (flush_ref h1)|discriminate].
Qed.

(** The clean-up of the effect keyed on [opts] hands over what the ref
    holds and leaves the batch, the refs and the timers as they are. *)
Lemma rerender_redelivers (before h : Hook T) :
  pendingUpdatesRef h <> [] ->
  let r := pendingUpdatesRef h in
  let h' := rerender before h in
  log h' = log h ++ [EvOnFlush r (length r); EvConsumer r] /\
  pendingUpdates h' = pendingUpdates h /\
  timers h' = timers h /\ timeoutRef h' = timeoutRef h.
Proof.
  intros Hne r h'. subst h'. unfold rerender.
  destruct (render_frame before (flushPendingCleanup h))
    as (-> & -> & _ & -> & ->).
  destruct (flushPendingCleanup_frame h) as (Hp & _ & Htr & Htm & Hl).
  apply isEmpty_false in Hne. rewrite Hne in Hl.
  split; [exact Hl|]. split; [exact Hp|]. split; [exact Htm|exact Htr].
Qed.

End Machine.

(** The reducer of [DEFAULT_OPTIONS] appends. *)
Lemma append_conservative (T : Type) :
  conservative (reducer (DEFAULT_OPTIONS T)).
Proof.
  intros acc x Hnd Hx. simpl. split.
  - apply NoDup_app. split; [assumption|]. split; [|apply NoDup_singleton].
    intros y Hy Hyx. apply list_elem_of_singleton in Hyx. now subst.
  - intros y [Hy|Hy]%elem_of_app; [now left|right].
    now apply list_elem_of_singleton in Hy.
Qed.

(** The flush by size does not cancel the auto-flush timer.  With
    [maxBatchSize = 3] the third update flushes by size while the auto-flush
    timer armed by the first update (handle 2) is outstanding: the batch is
    delivered by the deferred delivery (handle 3) and the auto-flush timer
    is still armed afterwards. *)
Lemma size_flush_keeps_timer :
  let h := run sizeOptions [AddUpdate 1; AddUpdate 2; AddUpdate 3] mount in
  let h' := step sizeOptions h (Fires 3) in
  timers h !! 2 = Some {| cb := CbFlush; delay := 1000 |} /\
  pendingUpdates h = [] /\
  log h' = [EvOnFlush [1; 2; 3] 3; EvConsumer [1; 2; 3]] /\
  timers h' !! 2 = Some {| cb := CbFlush; delay := 1000 |} /\
  ~ noFlushTimer h'.
Proof.
  intros h h'.
  assert (H2 : timers h' !! 2 = Some {| cb := CbFlush; delay := 1000 |})
    by (vm_compute; reflexivity).
  split; [vm_compute; reflexivity|]. split; [vm_compute; reflexivity|].
  split; [vm_compute; reflexivity|]. split; [exact H2|].
  intros Hno. now apply (Hno _ _ H2).
Qed.

(** When the options object changes identity while an update is pending,
    the clean-up of the effect keyed on [opts] hands the update over
    without emptying the batch, and the auto-flush timer hands it over
    again. *)
Lemma options_change_redelivers :
  let ins := [AddUpdate 1; OptionsChange; Fires 2] in
  delivered (log (run windowOptions ins mount)) = [1; 1].
Proof. reflexivity. Qed.

(** C5 fails in the code: batch content is delivered twice.  Whenever the
    options object changes identity while a batch is pending, the clean-up
    of the effect keyed on [opts] hands the whole batch to [onFlush] and
    the consumer and leaves the batch and its auto-flush timer in place, so
    that the next [flush()], manual or by the timer, hands the same batch
    over again.  When the options object is new in the commit that a
    [flush()] of a non-empty batch causes (options built inline), that
    commit delivers the batch a second time. *)
Theorem C5_options_change_delivers_twice
    (T : Type) (opts : BatchedUpdatesOptions T) (ins : list (Input T))
    (inp : Input T) :
  (let h := run opts ins mount in
   let p := pendingUpdates h in
   let h1 := step opts h OptionsChange in
   p <> [] -> flushes h inp ->
   log h1 = log h ++ [EvOnFlush p (length p); EvConsumer p] /\
   pendingUpdates h1 = p /\ timers h1 = timers h /\
   log (step opts h1 inp) =
     log h ++ [EvOnFlush p (length p); EvConsumer p;
               EvOnFlush p (length p); EvConsumer p]) /\
  (forall h : Hook T,
   let p := pendingUpdates h in
   pendingUpdatesRef h = p -> p <> [] -> flushes h inp ->
   log (rerender h (handle opts h inp)) =
     log h ++ [EvOnFlush p (length p); EvConsumer p;
               EvOnFlush p (length p); EvConsumer p]).
Proof.
  split.
  - intros h p h1 Hne Hfl.
    assert (Hs : pendingUpdatesRef h = pendingUpdates h)
      by (apply run_synced; reflexivity).
    assert (Hr : pendingUpdatesRef h <> []) by (rewrite Hs; exact Hne).
    destruct (@rerender_redelivers T h h Hr) as (Hl1 & Hp1 & Ht1 & _).
    change (rerender h h) with h1 in Hl1, Hp1, Ht1.
    rewrite Hs in Hl1. fold p in Hl1, Hp1.
    split; [exact Hl1|]. split; [exact Hp1|]. split; [exact Ht1|].
    assert (Hne1 : pendingUpdates h1 <> []) by (rewrite Hp1; exact Hne).
    assert (Hfl1 : flushes h1 inp).
    { destruct Hfl as [->|(i & t & -> & Hi & Hcb)]; [now left|].
      right. exists i, t. rewrite Ht1. now repeat split. }
    destruct (@flushes_handle T opts h1 inp Hne1 Hfl1) as (Hl2 & _).
    unfold step.
    rewrite (proj1 (proj2 (render_frame h1 (handle opts h1 inp)))).
    rewrite Hl2, Hp1, Hl1, <- app_assoc. reflexivity.
  - intros h p Hs Hne Hfl.
    destruct (@flushes_handle T opts h inp Hne Hfl) as (Hl1 & _ & Hr1 & _).
    fold p in Hl1.
    assert (Hr : pendingUpdatesRef (handle opts h inp) <> [])
      by (rewrite Hr1, Hs; exact Hne).
    destruct (@rerender_redelivers T h (handle opts h inp) Hr) as (Hl2 & _).
    rewrite Hl2, Hr1, Hs, Hl1, <- app_assoc. reflexivity.
Qed.

Lemma C5_options_change_delivers_twice_witness :
  let h := run windowOptions [AddUpdate 1; AddUpdate 2] mount in
  let g := rerender mount (addUpdate windowOptions 1 mount) in
  delivered (log h) = [] /\
  delivered (log (run windowOptions [OptionsChange; Fires 2] h)) =
    [1; 2; 1; 2] /\
  log g = [] /\
  log (rerender g (flush g)) =
    [EvOnFlush [1] 1; EvConsumer [1]; EvOnFlush [1] 1; EvConsumer [1]].
Proof.
  intros h g. split; [reflexivity|].
  destruct (@C5_options_change_delivers_twice nat windowOptions
              [AddUpdate 1; AddUpdate 2] (Fires 2)) as [H1 _].
  destruct (@C5_options_change_delivers_twice nat windowOptions
              [] Flush) as [_ H2].
  split; [|split; [reflexivity|]].
  - destruct H1 as (_ & _ & _ & Hl).
    + vm_compute. discriminate.
    + right. exists 2, {| cb := CbFlush; delay := 100 |}.
      split; [reflexivity|]. split; reflexivity.
    + exact (f_equal (@delivered nat) Hl).
  - apply (H2 g); [reflexivity|vm_compute; discriminate|now left].
Defined.

(** X21.  At most one auto-flush timer is outstanding at any time.
    [flush()], called by hand or by that timer, cancels it as part of
    delivering a non-empty batch, and once the timer has fired none is
    left.  As long as the options object keeps its identity, with a reducer
    that neither duplicates nor invents updates and updates that are
    pairwise distinct, no update is delivered twice, whichever trigger
    flushes it. *)
Theorem batch_flush_timer_discipline
    (T : Type) (opts : BatchedUpdatesOptions T) (ins : list (Input T)) :
  let h := run opts ins mount in
  (forall i j ti tj,
     timers h !! i = Some ti -> cb ti = CbFlush ->
     timers h !! j = Some tj -> cb tj = CbFlush -> i = j) /\
  (pendingUpdates h <> [] ->
   noFlushTimer (flush h) /\
   pendingUpdates (flush h) = [] /\
   log (flush h) =
     log h ++ [EvOnFlush (pendingUpdates h) (length (pendingUpdates h));
               EvConsumer (pendingUpdates h)]) /\
  (forall i t,
     timers h !! i = Some t -> cb t = CbFlush ->
     fire opts i h = flush (setTimers (delete i (timers h)) h) /\
     noFlushTimer (fire opts i h)) /\
  (conservative (reducer opts) -> Forall (@stableOptions T) ins ->
   NoDup (added ins) ->
   NoDup (delivered (log h))).
Proof.
  intros h.
  assert (Htr : flushTimerTracked h) by apply tracked_run, tracked_mount.
  split; [|split; [|split]].
  - intros i j ti tj Hi Hci Hj Hcj.
    pose proof (Htr _ _ Hi Hci) as Hri. pose proof (Htr _ _ Hj Hcj) as Hrj.
    congruence.
  - intros Hne. destruct (flush_nonempty h Hne) as (Hp & Hl & _).
    split; [now apply noFlushTimer_flush|]. split; assumption.
  - intros i t Hi Hc. eapply noFlushTimer_fire; eassumption.
  - intros Hred Hst Hnd.
    assert (Hacc : accounted ([] ++ added ins) h).
    { apply accounted_run;
        [assumption|assumption|apply accounted_mount|exact Hnd]. }
    destruct Hacc as (Hdp & _). now apply NoDup_app in Hdp as (HD & _).
Qed.

Lemma batch_flush_timer_discipline_witness :
  let ins := [AddUpdate 1; AddUpdate 2; Fires 2; AddUpdate 3; AddUpdate 4;
              AddUpdate 5; Fires 5] in
  let h := run sizeOptions ins mount in
  delivered (log h) = [1; 2; 3; 4; 5] /\
  NoDup (delivered (log h)) /\
  noFlushTimer (flush (run sizeOptions [AddUpdate 1; AddUpdate 2] mount)).
Proof.
  intros ins h. split; [reflexivity|]. split.
  - refine (proj2 (proj2 (proj2
      (batch_flush_timer_discipline sizeOptions ins))) _ _ _).
    + exact (@append_conservative nat).
    + repeat constructor.
    + vm_compute. repeat constructor; rewrite ?elem_of_cons, ?elem_of_nil;
        intuition discriminate.
  - refine (proj1 (proj1 (proj2
      (batch_flush_timer_discipline sizeOptions [AddUpdate 1; AddUpdate 2])) _)).
    vm_compute. discriminate.
Defined.

(** C6 does not hold as the specification words it.  The reducer turns the
    first update 7 into [[7; 7]], but what the deferred flush hands to
    [onFlush] and to the consumer is [[7]], with size 1. *)
Lemma C6_counterexample :
  let h := step doublingOptions mount (AddUpdate 7) in
  let h' := step doublingOptions h (Fires 1) in
  reducer doublingOptions (pendingUpdates mount) 7 = [7; 7] /\
  timers h !! 1 = Some {| cb := CbDeliver [7] 1; delay := 0 |} /\
  log h' = [EvOnFlush [7] 1; EvConsumer [7]] /\
  log h' <> [EvOnFlush [7; 7] 2; EvConsumer [7; 7]].
Proof.
  intros h h'. split; [reflexivity|]. split; [vm_compute; reflexivity|].
  split; [vm_compute; reflexivity|]. vm_compute. discriminate.
Qed.

(** C6, amended.  With [flushOnFirst] and the first update since the last
    flush, [addUpdate(item)] delivers nothing in the same tick: it arms a
    zero-delay timer that hands the one-item batch [[item]], with size 1, to
    [onFlush] and then to the consumer, and the pending batch is empty.  The
    batch was empty before, so [[item]] is the reduced result when the
    reducer is the default one. *)
Theorem C6_flush_on_first
    (T : Type) (opts : BatchedUpdatesOptions T) (ins : list (Input T))
    (item : T) :
  let h := run opts ins mount in
  flushOnFirst opts = true ->
  isFirstUpdateRef h = true ->
  let h' := step opts h (AddUpdate item) in
  let i := nextHandle h in
  log h' = log h /\
  timers h' !! i = Some {| cb := CbDeliver [item] 1; delay := 0 |} /\
  pendingUpdates h' = [] /\
  log (step opts h' (Fires i)) =
    log h ++ [EvOnFlush [item] 1; EvConsumer [item]] /\
  pendingUpdates (step opts h' (Fires i)) = [] /\
  pendingUpdates h = [] /\
  reducer (DEFAULT_OPTIONS T) (pendingUpdates h) item = [item].
Proof.
  intros h Hf Hfirst h' i.
  assert (Hsh : batchShape opts h) by apply shape_run, shape_mount.
  destruct Hsh as [Hempty _]. specialize (Hempty Hfirst).
  destruct (addUpdate_first opts h item Hf Hfirst) as (Hp & Hl & _ & _ & Ht).
  destruct (render_frame h (addUpdate opts item h))
    as (Hp' & Hl' & _ & _ & Ht').
  change (render h (addUpdate opts item h)) with h' in Hp', Hl', Ht'.
  assert (Hi : timers h' !! i = Some {| cb := CbDeliver [item] 1; delay := 0 |}).
  { rewrite Ht', Ht. apply lookup_insert_eq. }
  destruct (render_frame h' (fire opts i h')) as (Hp2 & Hl2 & _).
  change (render h' (fire opts i h')) with (step opts h' (Fires i)) in Hp2, Hl2.
  rewrite (fire_lookup opts _ _ Hi) in Hp2, Hl2.
  unfold deliver in Hp2, Hl2.
  cbn [cb log pendingUpdates emit setTimers] in Hp2, Hl2.
  split; [congruence|]. split; [exact Hi|]. split; [congruence|].
  split; [rewrite Hl2; congruence|]. split; [congruence|].
  split; [exact Hempty|]. rewrite Hempty. reflexivity.
Qed.

Lemma C6_flush_on_first_witness :
  let h := step doublingOptions mount (AddUpdate 7) in
  log h = [] /\
  timers h !! 1 = Some {| cb := CbDeliver [7] 1; delay := 0 |} /\
  pendingUpdates h = [] /\
  log (step doublingOptions h (Fires 1)) =
    [EvOnFlush [7] 1; EvConsumer [7]] /\
  pendingUpdates (step doublingOptions h (Fires 1)) = [] /\
  pendingUpdates (@mount nat) = [] /\
  reducer (DEFAULT_OPTIONS nat) (pendingUpdates mount) 7 = [7].
Proof.
  exact (@C6_flush_on_first nat doublingOptions [] 7 eq_refl eq_refl).
Defined.

(** C7 does not hold as the specification words it.  With
    [maxBatchSize = 3] it is the third update that flushes, with three
    items; the fourth starts the next batch.  Three items are never queued
    and no batch of four is delivered. *)
Lemma C7_counterexample :
  let h3 := run sizeOptions [AddUpdate 1; AddUpdate 2; AddUpdate 3] mount in
  let h4 := run sizeOptions [AddUpdate 4; Fires 3] h3 in
  pendingUpdates h3 = [] /\
  pendingUpdates h4 = [4] /\
  log h4 = [EvOnFlush [1; 2; 3] 3; EvConsumer [1; 2; 3]] /\
  payloadAt h4 <$> [1; 2; 3; 4; 5; 6] = [None; None; None; None; None; None].
Proof. vm_compute. repeat split; reflexivity. Qed.

(** C7, amended.  With the appending reducer, [flushOnFirst] off and
    [maxBatchSize = N >= 1] (3, say), the pending batch always holds
    fewer than [N] items; when [N - 1] items are queued (2, then),
    adding the [N]-th arms a zero-delay timer that hands all [N] items, the
    triggering one included, to [onFlush] and the consumer, and the pending
    batch is empty. *)
Theorem C7_flush_by_size
    (T : Type) (opts : BatchedUpdatesOptions T) (ins : list (Input T))
    (item : T) :
  let h := run opts ins mount in
  (1 <= maxBatchSize opts)%Z ->
  flushOnFirst opts = false ->
  reducer opts = reducer (DEFAULT_OPTIONS T) ->
  (Z.of_nat (length (pendingUpdates h)) < maxBatchSize opts)%Z /\
  ((Z.of_nat (length (pendingUpdates h)) + 1 = maxBatchSize opts)%Z ->
   let batch := pendingUpdates h ++ [item] in
   let h' := step opts h (AddUpdate item) in
   let i := nextHandle h in
   log h' = log h /\
   pendingUpdates h' = [] /\
   timers h' !! i =
     Some {| cb := CbDeliver batch (length batch); delay := 0 |} /\
   log (step opts h' (Fires i)) =
     log h ++ [EvOnFlush batch (length batch); EvConsumer batch] /\
   pendingUpdates (step opts h' (Fires i)) = []).
Proof.
  intros h Hmax Hf Hred.
  assert (Hsh : batchShape opts h) by apply shape_run, shape_mount.
  split.
  - destruct Hsh as [_ [-> |Hlt]]; [simpl; lia|exact Hlt].
  - intros Hlen batch h' i.
    assert (Hnew : reducer opts (pendingUpdates h) item = batch)
      by now rewrite Hred.
    assert (Hf' : flushOnFirst opts && isFirstUpdateRef h = false)
      by now rewrite Hf.
    destruct (addUpdate_size opts h item Hf') as (Hp & Hl & _ & _ & Ht).
    { rewrite Hnew. unfold batch. rewrite length_app. simpl. lia. }
    rewrite Hnew in Ht.
    destruct (render_frame h (addUpdate opts item h))
      as (Hp' & Hl' & _ & _ & Ht').
    change (render h (addUpdate opts item h)) with h' in Hp', Hl', Ht'.
    assert (Hi : timers h' !! i =
              Some {| cb := CbDeliver batch (length batch); delay := 0 |}).
    { rewrite Ht', Ht. apply lookup_insert_eq. }
    destruct (render_frame h' (fire opts i h')) as (Hp2 & Hl2 & _).
    change (render h' (fire opts i h')) with (step opts h' (Fires i))
      in Hp2, Hl2.
    rewrite (fire_lookup opts _ _ Hi) in Hp2, Hl2.
    unfold deliver in Hp2, Hl2.
    cbn [cb log pendingUpdates emit setTimers] in Hp2, Hl2.
    split; [congruence|]. split; [congruence|]. split; [exact Hi|].
    split; [rewrite Hl2; congruence|congruence].
Qed.

Lemma C7_flush_by_size_witness :
  let h := run sizeOptions [AddUpdate 1; AddUpdate 2] mount in
  let h' := step sizeOptions h (AddUpdate 3) in
  pendingUpdates h = [1; 2] /\
  pendingUpdates h' = [] /\
  log (step sizeOptions h' (Fires 3)) =
    [EvOnFlush [1; 2; 3] 3; EvConsumer [1; 2; 3]].
Proof.
  intros h h'.
  destruct (@C7_flush_by_size nat sizeOptions [AddUpdate 1; AddUpdate 2] 3
              ltac:(simpl; lia) eq_refl eq_refl) as [_ Hflush].
  destruct (Hflush eq_refl) as (_ & Hp & _ & Hl & _).
  split; [reflexivity|]. split; [exact Hp|exact Hl].
Defined.

(** C9. Tearing an instance down while its batch is non-empty invokes
    [onFlush] and then the consumer exactly once, with exactly the pending
    updates, although the batch window has not elapsed and [flush()] was
    not called.  No auto-flush timer survives the teardown, and with
    stable options, a reducer that neither duplicates nor invents updates
    and pairwise distinct updates, the updates handed over had not been
    delivered before. *)
Theorem C9_teardown_flush
    (T : Type) (opts : BatchedUpdatesOptions T) (ins : list (Input T)) :
  let h := run opts ins mount in
  let p := pendingUpdates h in
  p <> [] ->
  log (unmount h) = log h ++ [EvOnFlush p (length p); EvConsumer p] /\
  noFlushTimer (unmount h) /\
  (conservative (reducer opts) -> Forall (@stableOptions T) ins ->
   NoDup (added ins) ->
   NoDup (delivered (log (unmount h)))).
Proof.
  intros h p Hne.
  assert (Hs : pendingUpdatesRef h = pendingUpdates h)
    by (apply run_synced; reflexivity).
  destruct (unmount_nonempty h Hs Hne) as (Hl & _ & Ht). fold p in Hl.
  split; [exact Hl|]. split.
  - intros j t. rewrite Ht. apply clearTimers_noFlushTimer.
    apply tracked_run, tracked_mount.
  - intros Hred Hst Hnd.
    assert (Hacc : accounted ([] ++ added ins) h).
    { apply accounted_run;
        [assumption|assumption|apply accounted_mount|exact Hnd]. }
    destruct Hacc as (Hdp & _).
    rewrite Hl, delivered_app. simpl. now rewrite app_nil_r.
Qed.

Lemma C9_teardown_flush_witness :
  let h := run windowOptions [AddUpdate 1; AddUpdate 2; Advance 40] mount in
  log h = [] /\
  log (unmount h) = [EvOnFlush [1; 2] 2; EvConsumer [1; 2]].
Proof.
  intros h. split; [reflexivity|].
  refine (proj1 (@C9_teardown_flush nat windowOptions
                   [AddUpdate 1; AddUpdate 2; Advance 40] _)).
  vm_compute. discriminate.
Defined.

End BatchFacts.

(* ===================================================================== *)
(** ** useRetry: every run of one [execute()] call                        *)
(* ===================================================================== *)

Module RetryRuns.

Import Retry RetryFacts.

Section Runs.

Variables T E : Type.
Variable opts : RetryOptions E.

Implicit Types h : Hook T E.

Lemma resume_idle h r : awaiting h = None -> resume opts r h = h.
Proof. intros Ha. unfold resume. now rewrite Ha. Qed.

Lemma resume_success h n result :
  awaiting h = Some n ->
  let h' := resume opts (inl result) h in
  promise h' = Resolved result /\ awaiting h' = None /\
  log h' = log h /\ timers h' = timers h /\
  timeoutRef h' = timeoutRef h /\ cancelledRef h' = cancelledRef h /\
  state h' = finished (state h).
Proof.
  intros Ha. unfold resume. rewrite Ha. simpl. repeat split; reflexivity.
Qed.

Lemma attemptOperation_cancelled h n :
  cancelledRef h = true ->
  attemptOperation n h = settle (Rejected OperationCancelled) h.
Proof. intros Hc. unfold attemptOperation. now rewrite Hc. Qed.

Lemma operationCalls_snoc_operation (l : list (Event E)) :
  operationCalls (l ++ [EvOperation]) = (operationCalls l + 1)%Z.
Proof. rewrite operationCalls_app. unfold operationCalls. simpl. lia. Qed.

Lemma operationCalls_giveUp (l : list (Event E)) error n (b : bool) :
  operationCalls
    (l ++ EvShouldRetry error n ::
       (if b then [] else [EvOnMaxAttemptsReached error (n + 1)])) =
  operationCalls l.
Proof.
  rewrite operationCalls_app. unfold operationCalls.
  destruct b; simpl; lia.
Qed.

(** *** [Idle] hooks are inert *)

Lemma idle_step h inp :
  Idle h ->
  Idle (step opts h inp) /\
  log (step opts h inp) = log h /\ promise (step opts h inp) = promise h.
Proof.
  intros [Ha Hno]. destruct inp as [r|j| | |dt]; unfold step.
  - rewrite (resume_idle _ r Ha). repeat split; assumption.
  - destruct (timers h !! j) as [t|] eqn:Hj;
      [|rewrite (fire_unarmed _ _ Hj); repeat split; assumption].
    rewrite (fire_armed _ _ Hj).
    destruct (cb t) as [k|s d] eqn:Hcb; [now apply (Hno _ _ k) in Hj|].
    destruct (countdown_tick_frame h j s d) as (Ha' & Hp' & _ & Hl' & _).
    repeat split; try congruence.
    now apply countdown_tick_noRetryTimer.
  - destruct (cancel_frame h) as (Ha' & Hp' & Hl' & _).
    repeat split; try congruence.
    intros i t n Hi. apply cancel_timers in Hi. exact (Hno _ _ n Hi).
  - destruct (reset_frame h) as (Ha' & Hp' & Hl' & Ht & _).
    repeat split; try congruence.
    intros i t n. rewrite Ht. intros Hi.
    apply cancel_timers in Hi. exact (Hno _ _ n Hi).
  - repeat split; assumption.
Qed.

Lemma idle_run ins :
  forall h,
    Idle h ->
    Idle (run opts ins h) /\
    log (run opts ins h) = log h /\ promise (run opts ins h) = promise h.
Proof.
  induction ins as [|inp ins IH]; intros h Hi;
    [repeat split; try reflexivity; apply Hi|].
  destruct (idle_step inp Hi) as (Hi' & Hl & Hp).
  destruct (IH _ Hi') as (Hi2 & Hl2 & Hp2).
  simpl. repeat split; try congruence. apply Hi2. apply Hi2.
Qed.

(** *** [Orderly] along a run *)

Lemma orderly_awaiting_noRetryTimer h n :
  Orderly opts h -> awaiting h = Some n -> noRetryTimer h.
Proof.
  intros (_ & _ & Htim & _) Ha i t m Hi Hcb.
  destruct (Htim i t m Hi Hcb) as (Hnone & _). congruence.
Qed.

Lemma orderly_awaiting_noMaxReached h n :
  Orderly opts h -> awaiting h = Some n ->
  maxAttemptsReachedCalls (log h) = [].
Proof.
  intros (_ & _ & _ & [Hmax|(e & _ & _ & _ & Hnone & _)]) Ha;
    [assumption|congruence].
Qed.

Lemma orderly_execute : Orderly opts (execute (@mount T E)).
Proof.
  split; [|split; [|split]].
  - unfold operationCalls. simpl. lia.
  - intros n Ha. simpl in Ha. injection Ha as <-. split; reflexivity.
  - intros j t m Hj. simpl in Hj. now rewrite lookup_empty in Hj.
  - now left.
Qed.

Lemma orderly_settles h r : Orderly opts h -> Orderly opts (resume opts r h).
Proof.
  intros Hord.
  destruct (awaiting h) as [n|] eqn:Ha; [|now rewrite (resume_idle _ r Ha)].
  pose proof (orderly_awaiting_noRetryTimer Hord Ha) as Hno.
  pose proof (orderly_awaiting_noMaxReached Hord Ha) as Hmax.
  destruct Hord as (Hcalls & Haw & _ & _).
  destruct (Haw n Ha) as [Hc Hp].
  destruct r as [result|error].
  - destruct (resume_success h result Ha) as (Hp' & Ha' & Hl & Ht & _).
    unfold Orderly. rewrite Hl, Ha', Hp', Ht.
    split; [exact Hcalls|]. split; [discriminate|]. split; [|now left].
    intros j t m Hj Hcb. exfalso. exact (Hno _ _ _ Hj Hcb).
  - destruct (negb (shouldRetry opts error n)
              || negb (n <? maxAttempts opts)%Z || cancelledRef h) eqn:Hcond.
    + destruct (resume_giveUp opts h error Ha Hcond)
        as (Hp' & Ha' & Hl & _ & Ht & _).
      unfold Orderly.
      rewrite Hl, Ha', Hp', Ht, operationCalls_giveUp,
        maxAttemptsReachedCalls_app, Hmax.
      split; [exact Hcalls|]. split; [discriminate|]. split.
      * intros j t m Hj Hcb. exfalso. exact (Hno _ _ _ Hj Hcb).
      * destruct (n <? maxAttempts opts)%Z eqn:Hlt; [now left|right].
        exists error. apply Z.ltb_ge in Hlt. simpl. rewrite Hc.
        split; [reflexivity|]. split; [lia|]. split; [reflexivity|].
        split; [exact Ha'|]. intros j t m. rewrite Ht. apply Hno.
    + apply orb_false_iff in Hcond as [Hcond Hcan].
      apply orb_false_iff in Hcond as [Hsr Hlt].
      apply negb_false_iff in Hsr. apply negb_false_iff in Hlt.
      apply Z.ltb_lt in Hlt.
      destruct (resume_retry opts h error Ha Hcan Hsr Hlt)
        as (Hp' & Ha' & _ & _ & Hl & i & m0 & Href & Ht & _ & Hm0).
      assert (Hops : operationCalls (log (resume opts (inr error) h)) =
                     operationCalls (log h)).
      { rewrite Hl, operationCalls_app. unfold operationCalls at 2.
        simpl. lia. }
      unfold Orderly.
      rewrite Hops, Ha', Hp', Hp, Hl, maxAttemptsReachedCalls_app, Hmax.
      split; [exact Hcalls|]. split; [discriminate|]. split; [|now left].
      intros j t m. rewrite Ht, lookup_insert. case_decide as Hij.
      * intros [= <-] [= <-]. subst j.
        repeat split; first [assumption|reflexivity|lia].
      * intros Hj Hcb. exfalso.
        destruct Hm0 as [[-> _]|[-> _]].
        -- exact (Hno _ _ _ Hj Hcb).
        -- rewrite lookup_insert in Hj. case_decide.
           ++ injection Hj as <-. discriminate.
           ++ exact (Hno _ _ _ Hj Hcb).
Qed.

Lemma orderly_fires h j : Orderly opts h -> Orderly opts (fire j h).
Proof.
  intros Hord.
  destruct (timers h !! j) as [t|] eqn:Hj;
    [|now rewrite (fire_unarmed _ _ Hj)].
  rewrite (fire_armed _ _ Hj).
  set (h1 := setTimers (delete j (timers h)) h).
  destruct (cb t) as [m|s d] eqn:Hcb.
  - (* the retry timer *)
    destruct Hord as (Hcalls & _ & Htim & Hmax).
    destruct (Htim j t m Hj Hcb) as (Ha & Href & Hp & Hc & Hm).
    assert (Hno1 : noRetryTimer h1).
    { intros i t' k. simpl. rewrite lookup_delete.
      case_decide as Hij; [discriminate|]. intros Hi Hcb'.
      destruct (Htim i t' k Hi Hcb') as (_ & Hrefi & _). congruence. }
    assert (Hmax0 : maxAttemptsReachedCalls (log h) = []).
    { destruct Hmax as [Hmax|(e & _ & _ & _ & _ & Hno)]; [assumption|].
      now apply (Hno _ _ m) in Hj. }
    destruct (cancelledRef h) eqn:Hcan.
    + rewrite (attemptOperation_cancelled h1 m Hcan).
      split; [exact Hcalls|]. split; [|split; [|now left]].
      * intros n Hn. simpl in Hn. congruence.
      * intros i t' k Hi Hcb'. exfalso. exact (Hno1 _ _ _ Hi Hcb').
    + destruct (attemptOperation_live h1 m Hcan)
        as (Ha' & Hp' & _ & Hl & Ht & _).
      unfold Orderly. rewrite Hl, operationCalls_snoc_operation, Ha', Hp', Ht,
        maxAttemptsReachedCalls_app.
      simpl. rewrite Hmax0.
      split; [lia|]. split; [|split; [|now left]].
      * intros n [= <-]. split; [lia|exact Hp].
      * intros i t' k Hi Hcb'. exfalso. exact (Hno1 _ _ _ Hi Hcb').
  - (* a countdown tick *)
    destruct (countdown_tick_frame h j s d)
      as (Ha & Hp & _ & Hl & Href & _).
    fold h1 in Ha, Hp, Hl, Href.
    assert (Hold : forall i t' k,
              timers (updateCountdown s d h1) !! i = Some t' ->
              cb t' = CbAttempt k -> timers h !! i = Some t').
    { intros i t' k.
      destruct (updateCountdown_timers s d h1) as [[Ht _]|[Ht _]];
        rewrite Ht; simpl.
      - rewrite lookup_delete. case_decide; [discriminate|tauto].
      - rewrite lookup_insert. case_decide; [intros [= <-]; discriminate|].
        rewrite lookup_delete. case_decide; [discriminate|tauto]. }
    destruct Hord as (Hcalls & Haw & Htim & Hmax).
    unfold Orderly. rewrite Hl, Ha, Hp.
    split; [exact Hcalls|]. split; [exact Haw|]. split.
    + intros i t' k Hi Hcb'. rewrite Href.
      apply (Htim i t' k); [|assumption]. eapply Hold; eassumption.
    + destruct Hmax as [Hmax|(e & Hm & Hlt & Hpe & Hnone & Hno)];
        [now left|right].
      exists e. do 3 (split; [assumption|]). split; [congruence|].
      intros i t' k Hi Hcb'. apply (Hno i t' k); [|assumption].
      eapply Hold; eassumption.
Qed.

Lemma orderly_cancel h : Orderly opts h -> Orderly opts (cancel h).
Proof.
  intros (Hcalls & Haw & Htim & Hmax).
  destruct (cancel_frame h) as (Ha & Hp & Hl & _).
  assert (Hno : noRetryTimer (cancel h)).
  { intros i t m Hi Hcb. pose proof (cancel_timers _ _ Hi) as Hi0.
    destruct (Htim i t m Hi0 Hcb) as (_ & Href & _).
    rewrite (cancel_clears_timeoutRef _ Href) in Hi. discriminate. }
  unfold Orderly. rewrite Hl, Ha, Hp.
  split; [exact Hcalls|]. split; [exact Haw|]. split.
  - intros i t m Hi Hcb. exfalso. exact (Hno _ _ _ Hi Hcb).
  - destruct Hmax as [Hmax|(e & Hm & Hlt & Hpe & Hnone & _)];
      [now left|right].
    exists e. do 3 (split; [assumption|]). split; [congruence|exact Hno].
Qed.

Lemma orderly_reset h : Orderly opts h -> Orderly opts (reset h).
Proof. intros Hord. apply orderly_cancel in Hord. exact Hord. Qed.

Lemma orderly_step h inp : Orderly opts h -> Orderly opts (step opts h inp).
Proof.
  intros Hord. destruct inp as [r|j| | |dt]; unfold step.
  - now apply orderly_settles.
  - now apply orderly_fires.
  - now apply orderly_cancel.
  - now apply orderly_reset.
  - exact Hord.
Qed.

Lemma orderly_run ins :
  forall h, Orderly opts h -> Orderly opts (run opts ins h).
Proof.
  induction ins as [|inp ins IH]; intros h Hord; [exact Hord|].
  simpl. apply IH. now apply orderly_step.
Qed.

(** *** The published counters *)

Lemma resume_counters h r :
  currentAttempt (state (resume opts r h)) = currentAttempt (state h) /\
  totalAttempts (state (resume opts r h)) = totalAttempts (state h).
Proof.
  unfold resume. destruct (awaiting h) as [n|]; [|split; reflexivity].
  destruct r as [result|error]; simpl; [split; reflexivity|].
  destruct (_ || _); simpl.
  - destruct (negb (n <? maxAttempts opts)%Z); simpl; split; reflexivity.
  - unfold startCountdown, updateCountdown. simpl.
    destruct (_ && _); simpl; split; reflexivity.
Qed.

Lemma published_step h inp :
  Orderly opts h -> Published h -> notReset inp ->
  Published (step opts h inp).
Proof.
  intros Hord [Htot Hcur] Hinp.
  destruct inp as [r|j| | |dt]; unfold step; try contradiction.
  - destruct (resume_counters h r) as [Hc Ht].
    assert (Hops : operationCalls (log (resume opts r h)) =
                   operationCalls (log h)).
    { destruct (awaiting h) as [n|] eqn:Ha;
        [|now rewrite (resume_idle _ r Ha)].
      destruct r as [result|error].
      - destruct (resume_success h result Ha) as (_ & _ & -> & _).
        reflexivity.
      - destruct (negb (shouldRetry opts error n)
                  || negb (n <? maxAttempts opts)%Z || cancelledRef h)
          eqn:Hcond.
        + destruct (resume_giveUp opts h error Ha Hcond) as (_ & _ & -> & _).
          apply operationCalls_giveUp.
        + apply orb_false_iff in Hcond as [Hcond Hcan].
          apply orb_false_iff in Hcond as [Hsr Hlt].
          apply negb_false_iff in Hsr. apply negb_false_iff in Hlt.
          apply Z.ltb_lt in Hlt.
          destruct (resume_retry opts h error Ha Hcan Hsr Hlt)
            as (_ & _ & _ & _ & -> & _).
          rewrite operationCalls_app. unfold operationCalls at 2.
          simpl. lia. }
    unfold Published. rewrite Hc, Ht, Hops. split; assumption.
  - destruct (timers h !! j) as [t|] eqn:Hj;
      [|rewrite (fire_unarmed _ _ Hj); split; assumption].
    rewrite (fire_armed _ _ Hj).
    set (h1 := setTimers (delete j (timers h)) h).
    destruct (cb t) as [m|s d] eqn:Hcb.
    + destruct Hord as (_ & _ & Htim & _).
      destruct (Htim j t m Hj Hcb) as (_ & _ & _ & Hc & _).
      destruct (cancelledRef h) eqn:Hcan.
      * rewrite (attemptOperation_cancelled h1 m Hcan). split; assumption.
      * destruct (attemptOperation_live h1 m Hcan)
          as (_ & _ & _ & Hl & _ & _ & _ & Hst).
        unfold Published. rewrite Hl, Hst, operationCalls_snoc_operation.
        simpl. split; lia.
    + destruct (countdown_tick_frame h j s d)
        as (_ & _ & _ & Hl & _ & _ & Hc & Ht).
      unfold Published. fold h1 in Hl, Hc, Ht. rewrite Hl, Hc, Ht.
      split; assumption.
  - destruct (cancel_frame h) as (_ & _ & Hl & _ & Hst).
    unfold Published. rewrite Hl, Hst. split; assumption.
  - split; assumption.
Qed.

Lemma published_run ins :
  forall h,
    Orderly opts h -> Published h -> Forall (@notReset T E) ins ->
    Published (run opts ins h).
Proof.
  induction ins as [|inp ins IH]; intros h Hord Hpub Hins; [exact Hpub|].
  apply Forall_cons in Hins as [Hinp Hins]. simpl.
  apply IH; [now apply orderly_step|now apply published_step|exact Hins].
Qed.

(** *** [isRetrying] and the promise *)

Lemma resume_isRetrying h r n :
  awaiting h = Some n -> promise h = Pending ->
  let h' := resume opts r h in
  cancelledRef h' = cancelledRef h /\
  ((promise h' = Pending /\ isRetrying (state h') = isRetrying (state h)) \/
   (promise h' <> Pending /\ isRetrying (state h') = false)).
Proof.
  intros Ha Hp. unfold resume. rewrite Ha.
  destruct r as [result|error]; simpl;
    [split; [reflexivity|right; split; [discriminate|reflexivity]]|].
  destruct (_ || _); simpl.
  - destruct (negb (n <? maxAttempts opts)%Z); simpl;
      (split; [reflexivity|right; split; [discriminate|reflexivity]]).
  - unfold startCountdown, updateCountdown. simpl.
    destruct (_ && _); simpl;
      (split; [reflexivity|left; split; [exact Hp|reflexivity]]).
Qed.

Lemma isRetrying_step h inp :
  Orderly opts h -> uncancelled inp ->
  cancelledRef h = false ->
  (promise h = Pending -> isRetrying (state h) = true) ->
  (promise h <> Pending -> isRetrying (state h) = false) ->
  let h' := step opts h inp in
  cancelledRef h' = false /\
  (promise h' = Pending -> isRetrying (state h') = true) /\
  (promise h' <> Pending -> isRetrying (state h') = false).
Proof.
  intros Hord Hinp Hcan Hpen Hset.
  destruct inp as [r|j| | |dt]; unfold step; try contradiction.
  - destruct (awaiting h) as [n|] eqn:Ha;
      [|rewrite (resume_idle _ r Ha); repeat split; assumption].
    destruct Hord as (_ & Haw & _). destruct (Haw n Ha) as [_ Hp].
    destruct (resume_isRetrying h r Ha Hp) as [Hc [[Hp' Hr]|[Hp' Hr]]];
      simpl; (split; [congruence|]); split; intros Hq;
        first [contradiction|congruence|rewrite Hr; now apply Hpen].
  - destruct (timers h !! j) as [t|] eqn:Hj;
      [|rewrite (fire_unarmed _ _ Hj); repeat split; assumption].
    rewrite (fire_armed _ _ Hj).
    set (h1 := setTimers (delete j (timers h)) h).
    destruct (cb t) as [m|s d] eqn:Hcb.
    + destruct (attemptOperation_live h1 m Hcan)
        as (_ & Hp & Hc & _ & _ & _ & _ & Hst).
      simpl. rewrite Hp, Hst. simpl. repeat split; assumption.
    + destruct (updateCountdown_frame s d h1)
        as (_ & Hp & Hc & _ & _ & Hr & _).
      simpl. rewrite Hp, Hc, Hr. repeat split; assumption.
  - repeat split; assumption.
Qed.

(** *** After [cancel()] *)

Lemma retryDelays_app (l1 l2 : list (Event E)) :
  retryDelays (l1 ++ l2) = retryDelays l1 ++ retryDelays l2.
Proof. unfold retryDelays. apply flat_map_app. Qed.

Lemma cancelled_step h inp :
  cancelledRef h = true ->
  let h' := step opts h inp in
  cancelledRef h' = true /\
  operationCalls (log h') = operationCalls (log h) /\
  retryDelays (log h') = retryDelays (log h) /\
  forall j t, timers h' !! j = Some t -> timers h !! j = Some t.
Proof.
  intros Hcan. destruct inp as [r|j| | |dt]; unfold step.
  - destruct (awaiting h) as [n|] eqn:Ha;
      [|rewrite (resume_idle _ r Ha); repeat split; auto].
    destruct r as [result|error].
    + destruct (resume_success h result Ha)
        as (_ & _ & Hl & Ht & _ & Hc & _).
      simpl. rewrite Hl, Ht, Hc. repeat split; auto.
    + destruct (resume_giveUp opts h error Ha)
        as (_ & _ & Hl & _ & Ht & _ & _ & _ & Hc).
      { rewrite Hcan. apply orb_true_r. }
      simpl. rewrite Hl, Ht, Hc, operationCalls_giveUp, retryDelays_app.
      split; [assumption|]. split; [reflexivity|]. split; [|auto].
      destruct (n <? maxAttempts opts)%Z; simpl; apply app_nil_r.
  - destruct (timers h !! j) as [t|] eqn:Hj;
      [|rewrite (fire_unarmed _ _ Hj); repeat split; auto].
    rewrite (fire_armed _ _ Hj).
    assert (Hdel : forall i t',
              delete j (timers h) !! i = Some t' -> timers h !! i = Some t').
    { intros i t'. rewrite lookup_delete. case_decide; [discriminate|tauto]. }
    destruct (cb t) as [m|s d].
    + rewrite attemptOperation_cancelled by exact Hcan. simpl.
      repeat split; auto.
    + unfold updateCountdown. simpl. rewrite Hcan, andb_false_r. simpl.
      repeat split; auto.
  - destruct (cancel_frame h) as (_ & _ & Hl & Hc & _).
    cbv zeta. rewrite Hl. repeat split; auto. apply cancel_timers.
  - destruct (reset_frame h) as (_ & _ & Hl & Ht & _).
    destruct (cancel_frame h) as (_ & _ & _ & Hc & _).
    cbv zeta. rewrite Hl, Ht. repeat split; auto. apply cancel_timers.
  - simpl. repeat split; auto.
Qed.

(** *** The countdown *)

Lemma nonneg_step h inp :
  (0 <= timeUntilNextRetry (state h))%Q ->
  (0 <= timeUntilNextRetry (state (step opts h inp)))%Q.
Proof.
  intros H0. destruct inp as [r|j| | |dt]; unfold step.
  - unfold resume. destruct (awaiting h) as [n|]; [|exact H0].
    destruct r as [result|error]; simpl; [apply Qle_refl|].
    destruct (_ || _); simpl.
    + destruct (negb (n <? maxAttempts opts)%Z); simpl; apply Qle_refl.
    + unfold startCountdown, updateCountdown. simpl.
      destruct (_ && _); simpl; apply Q.le_max_l.
  - unfold fire. destruct (timers h !! j) as [t|]; [|exact H0].
    destruct (cb t) as [m|s d]; simpl.
    + unfold attemptOperation. simpl. destruct (cancelledRef h); exact H0.
    + unfold updateCountdown. simpl.
      destruct (_ && _); simpl; apply Q.le_max_l.
  - destruct (cancel_frame h) as (_ & _ & _ & _ & ->). apply Qle_refl.
  - destruct (reset_frame h) as (_ & _ & _ & _ & ->). apply Qle_refl.
  - exact H0.
Qed.

(** *** A run that ends in success *)

Section Success.

Hypothesis always_retry : forall error n, shouldRetry opts error n = true.

Variable outcomes : Z -> T + E.
Variable result : T.

Lemma scriptedSchedule_unfold fuel h :
  scriptedSchedule opts outcomes (S fuel) h =
  match awaiting h with
  | Some n =>
    Settles (outcomes n) ::
    scriptedSchedule opts outcomes fuel (step opts h (Settles (outcomes n)))
  | None =>
    match armedRetry h with
    | Some i =>
      Fires i :: scriptedSchedule opts outcomes fuel (step opts h (Fires i))
    | None => []
    end
  end.
Proof. reflexivity. Qed.

Lemma scriptedSchedule_succeeds k :
  forall h n fuel,
    fresh h -> Attempting n h ->
    (forall m, (n <= m < n + Z.of_nat k)%Z -> exists e, outcomes m = inr e) ->
    outcomes (n + Z.of_nat k)%Z = inl result ->
    (n + Z.of_nat k <= maxAttempts opts)%Z ->
    2 * k + 1 <= fuel ->
    let h' := run opts (scriptedSchedule opts outcomes fuel h) h in
    promise h' = Resolved result /\
    operationCalls (log h') = (n + Z.of_nat k + 1)%Z /\
    maxAttemptsReachedCalls (log h') = [] /\
    isRetrying (state h') = false.
Proof.
  induction k as [|k IH]; intros h n fuel Hf Hatt Hfail Hok HM Hfuel.
  - replace (n + Z.of_nat 0)%Z with n in * by lia.
    destruct fuel as [|fuel]; [lia|].
    destruct Hatt as (Ha & Hp & Hc & Hops & Hmax & Hno).
    rewrite scriptedSchedule_unfold, Ha, Hok.
    destruct (resume_success h result Ha)
      as (Hp' & Ha' & Hl & Ht & _ & _ & Hst).
    assert (Hrest :
      scriptedSchedule opts outcomes fuel
        (step opts h (Settles (inl result))) = []).
    { destruct fuel as [|fuel]; [reflexivity|].
      rewrite scriptedSchedule_unfold. unfold step. rewrite Ha'.
      rewrite armedRetry_none; [reflexivity|].
      intros i t m. rewrite Ht. apply Hno. }
    rewrite Hrest. cbn [run fold_left]. unfold step.
    rewrite Hp', Hl, Hst. repeat split; first [assumption|reflexivity|lia].
  - destruct fuel as [|[|fuel]]; [lia|lia|].
    assert (Ha : awaiting h = Some n) by apply Hatt.
    destruct (Hfail n) as [e He]; [lia|].
    destruct (@attempting_fails_retry T E opts always_retry h n e Hf Hatt)
      as [Hf1 Hw]; [lia|].
    set (h1 := resume opts (inr e) h) in *.
    assert (Ha1 : awaiting h1 = None) by apply Hw.
    assert (Href : exists i, timeoutRef h1 = Some i).
    { destruct Hw as (_ & _ & _ & _ & _ & i & d & Href & _). eauto. }
    destruct Href as [i Href].
    destruct (waiting_timer_fires Hf1 Hw Href) as [Hf2 Hatt2].
    rewrite scriptedSchedule_unfold, Ha, He. unfold step at 1. fold h1.
    rewrite scriptedSchedule_unfold, Ha1, (armedRetry_waiting Hw Href).
    unfold step at 1.
    cbn [run fold_left]. unfold step at 2 3. fold h1.
    replace (n + Z.of_nat (S k))%Z with (n + 1 + Z.of_nat k)%Z in * by lia.
    apply (IH (fire i h1) (n + 1)%Z fuel Hf2 Hatt2);
      [intros m Hm; apply Hfail; lia|assumption|assumption|lia].
Qed.

End Success.

End Runs.

(** X1. Whatever the retry predicate says and whatever happens after
    [execute()] (settlements, timers, [cancel()], [reset()]), the operation
    is called at least once and at most [max(0, maxAttempts) + 1] times. *)
Theorem retry_calls_within_budget
    (T E : Type) (opts : RetryOptions E) (ins : list (Input T E)) :
  let h := run opts ins (execute mount) in
  (1 <= operationCalls (log h) <= Z.max 0 (maxAttempts opts) + 1)%Z.
Proof.
  intros h.
  exact (proj1 (orderly_run ins (orderly_execute T opts))).
Qed.

(** X2. Attempts are strictly sequential: while an attempt is in flight no
    retry timer is armed, and between attempts at most one is, the one
    [timeoutRef] holds; it starts the attempt whose number is the count of
    calls made so far. *)
Theorem retry_attempts_sequential
    (T E : Type) (opts : RetryOptions E) (ins : list (Input T E)) :
  let h := run opts ins (execute mount) in
  (forall n, awaiting h = Some n ->
     noRetryTimer h /\ operationCalls (log h) = (n + 1)%Z) /\
  (forall i j ti tj m k,
     timers h !! i = Some ti -> cb ti = CbAttempt m ->
     timers h !! j = Some tj -> cb tj = CbAttempt k ->
     i = j /\ timeoutRef h = Some i /\ awaiting h = None /\
     m = operationCalls (log h)).
Proof.
  intros h.
  pose proof (orderly_run ins (orderly_execute T opts)) as Hord.
  fold h in Hord. split.
  - intros n Ha. split; [exact (orderly_awaiting_noRetryTimer Hord Ha)|].
    destruct Hord as (_ & Haw & _). now apply Haw.
  - intros i j ti tj m k Hi Hci Hj Hcj.
    destruct Hord as (_ & _ & Htim & _).
    destruct (Htim i ti m Hi Hci) as (Ha & Hri & _ & Hc & _).
    destruct (Htim j tj k Hj Hcj) as (_ & Hrj & _).
    repeat split; congruence.
Qed.

(** X3. As long as [reset()] is not called, the published snapshot counts
    the calls made: [totalAttempts] is the number of calls of the operation
    and [currentAttempt] is one less. *)
Theorem retry_snapshot_counts_calls
    (T E : Type) (opts : RetryOptions E) (ins : list (Input T E)) :
  Forall (@notReset T E) ins ->
  let h := run opts ins (execute mount) in
  totalAttempts (state h) = operationCalls (log h) /\
  currentAttempt (state h) = (totalAttempts (state h) - 1)%Z.
Proof.
  intros Hins h.
  destruct (published_run (orderly_execute T opts)
              (conj eq_refl eq_refl) Hins) as [Ht Hc].
  fold h in Ht, Hc. split; congruence.
Qed.

Lemma retry_snapshot_counts_calls_witness :
  let ins : list (Input unit nat) :=
    [Settles (inr 7); Fires 2; Settles (inr 8); Cancel] in
  let h := run countingOptions ins (execute mount) in
  operationCalls (log h) = 2%Z /\
  totalAttempts (state h) = operationCalls (log h) /\
  currentAttempt (state h) = (totalAttempts (state h) - 1)%Z.
Proof.
  intros ins h. split; [reflexivity|].
  apply (@retry_snapshot_counts_calls unit nat countingOptions ins).
  repeat constructor.
Defined.

(** X4. [onMaxAttemptsReached] is invoked at most once per [execute()].
    When it has been, the operation has been called
    [max(0, maxAttempts) + 1] times, that number is what the callback was
    told, and the promise is rejected with the error it was given. *)
Theorem retry_maxAttemptsReached_once
    (T E : Type) (opts : RetryOptions E) (ins : list (Input T E)) :
  let h := run opts ins (execute mount) in
  maxAttemptsReachedCalls (log h) = [] \/
  exists error,
    maxAttemptsReachedCalls (log h) =
      [(error, (Z.max 0 (maxAttempts opts) + 1)%Z)] /\
    operationCalls (log h) = (Z.max 0 (maxAttempts opts) + 1)%Z /\
    promise h = Rejected (OperationError error).
Proof.
  intros h.
  destruct (orderly_run ins (orderly_execute T opts))
    as (Hcalls & _ & _ & [Hmax|(e & Hmax & Hlt & Hp & _)]);
    fold h in Hcalls |- *; [now left|right].
  fold h in Hmax, Hlt, Hp.
  assert (Hc : operationCalls (log h) = (Z.max 0 (maxAttempts opts) + 1)%Z)
    by lia.
  exists e. rewrite Hmax, Hc. repeat split; first [reflexivity|assumption].
Qed.

(** X5. As long as neither [cancel()] nor [reset()] is called, [isRetrying]
    tells whether the promise of [execute()] is still pending. *)
Theorem retry_isRetrying_iff_pending
    (T E : Type) (opts : RetryOptions E) (ins : list (Input T E)) :
  Forall (@uncancelled T E) ins ->
  let h := run opts ins (execute mount) in
  isRetrying (state h) = true <-> promise h = Pending.
Proof.
  intros Hins h.
  assert (Hinv : forall ins0 h0,
            Forall (@uncancelled T E) ins0 ->
            Orderly opts h0 -> cancelledRef h0 = false ->
            (promise h0 = Pending -> isRetrying (state h0) = true) ->
            (promise h0 <> Pending -> isRetrying (state h0) = false) ->
            let h1 := run opts ins0 h0 in
            (promise h1 = Pending -> isRetrying (state h1) = true) /\
            (promise h1 <> Pending -> isRetrying (state h1) = false)).
  { induction ins0 as [|inp ins0 IH]; intros h0 Hall Hord Hc Hp Hs;
      [split; assumption|].
    apply Forall_cons in Hall as [Hinp Hall].
    destruct (isRetrying_step inp Hord Hinp Hc Hp Hs) as (Hc' & Hp' & Hs').
    simpl. apply IH; try assumption. now apply orderly_step. }
  destruct (Hinv ins (execute mount) Hins (orderly_execute T opts) eq_refl)
    as [Hp Hs]; [reflexivity|intros Hne; now contradiction Hne|].
  fold h in Hp, Hs. split; [|exact Hp].
  intros Hr. destruct (promise h) eqn:Hpr; [reflexivity| |];
    rewrite Hs in Hr; discriminate.
Qed.

Lemma retry_isRetrying_iff_pending_witness :
  let waiting : list (Input unit nat) := [Settles (inr 7); Advance 50] in
  let done : list (Input unit nat) :=
    [Settles (inr 7); Fires 2; Settles (inl tt); Fires 1] in
  (isRetrying (state (run countingOptions waiting (execute mount))) = true <->
   promise (run countingOptions waiting (execute mount)) = Pending) /\
  promise (run countingOptions waiting (execute mount)) = Pending /\
  (isRetrying (state (run countingOptions done (execute mount))) = true <->
   promise (run countingOptions done (execute mount)) = Pending) /\
  promise (run countingOptions done (execute mount)) = Resolved tt.
Proof.
  intros waiting done. split; [|split; [reflexivity|split; [|reflexivity]]].
  - apply (@retry_isRetrying_iff_pending unit nat countingOptions waiting).
    repeat constructor.
  - apply (@retry_isRetrying_iff_pending unit nat countingOptions done).
    repeat constructor.
Defined.

(** X6. With a retry predicate that always says yes, an operation that
    fails [k <= maxAttempts] times and then succeeds makes [execute()]
    resolve with the success value after exactly [k + 1] calls;
    [onMaxAttemptsReached] is not invoked and [isRetrying] is false. *)
Theorem retry_succeeds_after_failures
    (T E : Type) (opts : RetryOptions E) (outcomes : Z -> T + E)
    (result : T) (k fuel : nat) :
  (forall error n, shouldRetry opts error n = true) ->
  (Z.of_nat k <= maxAttempts opts)%Z ->
  (forall m, (0 <= m < Z.of_nat k)%Z -> exists e, outcomes m = inr e) ->
  outcomes (Z.of_nat k) = inl result ->
  2 * k + 1 <= fuel ->
  let ins := scriptedSchedule opts outcomes fuel (execute mount) in
  let h := run opts ins (execute mount) in
  promise h = Resolved result /\
  operationCalls (log h) = (Z.of_nat k + 1)%Z /\
  maxAttemptsReachedCalls (log h) = [] /\
  isRetrying (state h) = false.
Proof.
  intros Hretry HM Hfail Hok Hfuel ins h.
  assert (Hatt : Attempting 0 (execute (@mount T E))).
  { repeat split; try reflexivity.
    intros i t n Hi. simpl in Hi. now rewrite lookup_empty in Hi. }
  assert (Hf : fresh (execute (@mount T E))).
  { intros i [t Hi]. simpl in Hi. now rewrite lookup_empty in Hi. }
  exact (scriptedSchedule_succeeds opts Hretry outcomes k (n:=0%Z)
           Hf Hatt Hfail Hok HM Hfuel).
Qed.

Lemma retry_succeeds_after_failures_witness :
  let outcomes (n : Z) : unit + nat :=
    if (n <? 1)%Z then inr 7 else inl tt in
  let h0 : Hook unit nat := execute mount in
  let h := run countingOptions
             (scriptedSchedule countingOptions outcomes 3 h0) h0 in
  promise h = Resolved tt /\
  operationCalls (log h) = 2%Z /\
  maxAttemptsReachedCalls (log h) = [] /\
  isRetrying (state h) = false.
Proof.
  intros outcomes h0 h.
  apply (@retry_succeeds_after_failures unit nat countingOptions outcomes
           tt 1 3).
  - reflexivity.
  - simpl. lia.
  - intros m Hm. exists 7. assert (m = 0%Z) as -> by lia. reflexivity.
  - reflexivity.
  - lia.
Defined.

(** X7. A settled [execute()] is inert: once its promise has resolved or
    rejected, nothing that happens to the hook invokes the operation or a
    callback again, and the promise does not change. *)
Theorem retry_settled_is_inert
    (T E : Type) (opts : RetryOptions E) (before after : list (Input T E)) :
  let h := run opts before (execute mount) in
  promise h <> Pending ->
  log (run opts after h) = log h /\ promise (run opts after h) = promise h.
Proof.
  intros h Hp.
  pose proof (orderly_run before (orderly_execute T opts)) as Hord.
  fold h in Hord.
  assert (Hidle : Idle h).
  { destruct Hord as (_ & Haw & Htim & _). split.
    - destruct (awaiting h) as [n|] eqn:Ha; [|reflexivity].
      destruct (Haw n eq_refl) as [_ Hpen]. contradiction.
    - intros i t m Hi Hcb. destruct (Htim i t m Hi Hcb) as (_ & _ & Hpen & _).
      contradiction. }
  destruct (idle_run opts after Hidle) as (_ & Hl & Hpr). split; assumption.
Qed.

Lemma retry_settled_is_inert_witness :
  let before : list (Input unit nat) := [Settles (inr 7)] in
  let after : list (Input unit nat) :=
    [Fires 1; Settles (inr 8); Cancel; Advance 1000; Reset] in
  let h := run exhaustedOptions before (execute mount) in
  promise h = Rejected (OperationError 7) /\
  log (run exhaustedOptions after h) = log h /\
  promise (run exhaustedOptions after h) = promise h.
Proof.
  intros before after h. split; [reflexivity|].
  apply (@retry_settled_is_inert unit nat exhaustedOptions before after).
  discriminate.
Defined.

(** X8. After [cancel()], whatever the state of the hook and whatever
    follows, the operation is not called again, [onRetry] is not invoked
    again and no timer is armed again: the timer table only shrinks. *)
Theorem retry_cancel_stops_everything
    (T E : Type) (opts : RetryOptions E) (h : Hook T E)
    (ins : list (Input T E)) :
  let h' := run opts ins (cancel h) in
  operationCalls (log h') = operationCalls (log h) /\
  retryDelays (log h') = retryDelays (log h) /\
  forall j t, timers h' !! j = Some t -> timers h !! j = Some t.
Proof.
  intros h'.
  assert (Hinv : forall ins0 (h0 : Hook T E),
            cancelledRef h0 = true ->
            operationCalls (log (run opts ins0 h0)) = operationCalls (log h0) /\
            retryDelays (log (run opts ins0 h0)) = retryDelays (log h0) /\
            forall j t, timers (run opts ins0 h0) !! j = Some t ->
                        timers h0 !! j = Some t).
  { induction ins0 as [|inp ins0 IH]; intros h0 Hc;
      [repeat split; auto|].
    destruct (cancelled_step opts h0 inp Hc) as (Hc' & Ho & Hr & Ht).
    destruct (IH _ Hc') as (Ho' & Hr' & Ht').
    simpl. repeat split; try congruence. auto. }
  destruct (cancel_frame h) as (_ & _ & Hl & Hc & _).
  destruct (Hinv ins (cancel h) Hc) as (Ho & Hr & Ht).
  fold h' in Ho, Hr, Ht. rewrite Hl in Ho, Hr.
  repeat split; try assumption.
  intros j t Hj. apply (cancel_timers h). auto.
Qed.

(** X9. [cancel()] and [reset()] are idempotent, and [reset()] absorbs
    [cancel()]: calling them twice, or one after the other, leaves the hook
    as the last call alone would. *)
Theorem retry_cancel_reset_idempotent (T E : Type) (h : Hook T E) :
  cancel (cancel h) = cancel h /\
  reset (reset h) = reset h /\
  reset (cancel h) = reset h /\
  cancel (reset h) = reset h.
Proof.
  destruct h as [st [i|] [c|] cancelled a p tm nh clk l];
    repeat split; reflexivity.
Qed.

(** X10. The published countdown [timeUntilNextRetry] is never negative. *)
Theorem retry_countdown_nonnegative
    (T E : Type) (opts : RetryOptions E) (ins : list (Input T E)) :
  (0 <= timeUntilNextRetry (state (run opts ins (execute mount))))%Q.
Proof.
  assert (Hinv : forall ins0 (h0 : Hook T E),
            (0 <= timeUntilNextRetry (state h0))%Q ->
            (0 <= timeUntilNextRetry (state (run opts ins0 h0)))%Q).
  { induction ins0 as [|inp ins0 IH]; intros h0 H0; [exact H0|].
    simpl. apply IH. now apply nonneg_step. }
  apply Hinv. apply Qle_refl.
Qed.

End RetryRuns.

(* ===================================================================== *)
(** ** useBatchedUpdates: every run of a mounted hook                     *)
(* ===================================================================== *)

Module BatchRuns.

Import Batch BatchFacts.

(** Lookups in a timer table after insertions and deletions. *)
Ltac timers_cases :=
  repeat (rewrite ?lookup_insert, ?lookup_delete, ?lookup_empty in *;
          try case_decide; subst; simpl in *);
  try discriminate; try lia; try congruence.

Section Runs.

Variable T : Type.
Variable opts : BatchedUpdatesOptions T.

Implicit Types h : Hook T.

(** *** Handles *)

Lemma inUse_clearTimers h :
  timersInUse h -> refsInUse h ->
  timersInUse (clearTimers h) /\ refsInUse (clearTimers h) /\
  nextHandle (clearTimers h) = nextHandle h /\
  forall i items,
    payloadAt h i = Some items -> payloadAt (clearTimers h) i = Some items.
Proof.
  intros Ht Hr.
  destruct (clearTimers_frame h) as (_ & _ & _ & _ & Htr & Hcr).
  assert (Hn : nextHandle (clearTimers h) = nextHandle h).
  { unfold clearTimers. destruct (timeoutRef h); simpl;
      destruct (countdownRef h); reflexivity. }
  split; [|split; [|split; [exact Hn|]]].
  - intros i [t Hi]. rewrite Hn. apply Ht.
    apply clearTimers_timers in Hi as [Hi _]. eauto.
  - intros i [Hi|Hi]; congruence.
  - intros i items Hi.
    assert (Hnt : timeoutRef h <> Some i).
    { intros Href. destruct (Hr i (or_introl Href)) as [_ Hnone]. congruence. }
    assert (Hnc : countdownRef h <> Some i).
    { intros Href. destruct (Hr i (or_intror Href)) as [_ Hnone]. congruence. }
    revert Hi. unfold payloadAt, clearTimers.
    destruct (timeoutRef h) as [a|]; simpl;
      destruct (countdownRef h) as [c|]; simpl;
      rewrite ?lookup_delete_ne by congruence; tauto.
Qed.

Lemma inUse_updateCountdown h :
  timersInUse h -> refsInUse h ->
  timersInUse (updateCountdown opts h) /\ refsInUse (updateCountdown opts h) /\
  nextHandle h <= nextHandle (updateCountdown opts h) /\
  forall i items,
    payloadAt h i = Some items ->
    payloadAt (updateCountdown opts h) i = Some items.
Proof.
  intros Ht Hr. unfold updateCountdown.
  destruct (negb (hasPendingUpdatesRef h)).
  { split; [exact Ht|]. split; [exact Hr|]. split; [lia|auto]. }
  cbv zeta. destruct (Z.ltb 0 (Z.max 0 _)); simpl.
  - split; [|split; [|split; [lia|]]].
    + intros i. simpl. rewrite lookup_insert. case_decide; [subst; lia|].
      intros Hi. apply Ht in Hi. lia.
    + intros i [Hi|Hi]; simpl in Hi.
      * destruct (Hr i (or_introl Hi)) as [Hlt Hnone].
        split; [simpl; lia|]. unfold payloadAt in *. simpl.
        rewrite lookup_insert_ne by lia. exact Hnone.
      * injection Hi as <-. split; [simpl; lia|].
        unfold payloadAt. simpl. now rewrite lookup_insert_eq.
    + intros i items Hi. unfold payloadAt in *. simpl.
      assert (i < nextHandle h).
      { apply Ht. destruct (timers h !! i); [eauto|discriminate]. }
      rewrite lookup_insert_ne by lia. exact Hi.
  - split; [exact Ht|]. split; [exact Hr|]. split; [simpl; lia|auto].
Qed.

Lemma inUse_scheduleFlush h :
  timersInUse h -> refsInUse h ->
  timersInUse (scheduleFlush opts h) /\ refsInUse (scheduleFlush opts h) /\
  nextHandle h <= nextHandle (scheduleFlush opts h) /\
  forall i items,
    payloadAt h i = Some items ->
    payloadAt (scheduleFlush opts h) i = Some items.
Proof.
  intros Ht Hr.
  destruct (inUse_clearTimers Ht Hr) as (Ht1 & Hr1 & Hn1 & Hp1).
  set (h1 := clearTimers h) in *.
  set (h2 := setTimeUntilFlush (batchWindow opts)
               (setStartTimeRef (clock h1) h1)).
  destruct (@inUse_updateCountdown h2 Ht1 Hr1) as (Ht3 & Hr3 & Hn3 & Hp3).
  change (updateCountdown opts h2) with (startCountdown opts h1) in *.
  set (h3 := startCountdown opts h1) in *.
  change (nextHandle h2) with (nextHandle h1) in Hn3.
  unfold scheduleFlush. fold h1 h3. simpl.
  split; [|split; [|split; [lia|]]].
  - intros i. simpl. rewrite lookup_insert. case_decide; [subst; lia|].
    intros Hi. apply Ht3 in Hi. lia.
  - intros i [Hi|Hi]; simpl in Hi.
    + injection Hi as <-. split; [simpl; lia|].
      unfold payloadAt. simpl. now rewrite lookup_insert_eq.
    + destruct (Hr3 i (or_intror Hi)) as [Hlt Hnone].
      split; [simpl; lia|]. unfold payloadAt in *. simpl.
      rewrite lookup_insert_ne by lia. exact Hnone.
  - intros i items Hi. apply Hp1, Hp3 in Hi.
    assert (i < nextHandle h3).
    { apply Ht3. unfold payloadAt in Hi.
      destruct (timers h3 !! i); [eauto|discriminate]. }
    unfold payloadAt in *. simpl. rewrite lookup_insert_ne by lia. exact Hi.
Qed.

Lemma inUse_flush h :
  timersInUse h -> refsInUse h ->
  timersInUse (flush h) /\ refsInUse (flush h) /\
  forall i items,
    payloadAt h i = Some items -> payloadAt (flush h) i = Some items.
Proof.
  intros Ht Hr. unfold flush.
  destruct (isEmpty (pendingUpdates h)); [auto|].
  destruct (inUse_clearTimers Ht Hr) as (Ht1 & Hr1 & Hn1 & Hp1).
  split; [exact Ht1|]. split; [exact Hr1|exact Hp1].
Qed.

Lemma inUse_clear h :
  timersInUse h -> refsInUse h ->
  timersInUse (clear h) /\ refsInUse (clear h) /\
  forall i items,
    payloadAt h i = Some items -> payloadAt (clear h) i = Some items.
Proof.
  intros Ht Hr.
  destruct (inUse_clearTimers Ht Hr) as (Ht1 & Hr1 & Hn1 & Hp1).
  split; [exact Ht1|]. split; [exact Hr1|exact Hp1].
Qed.

Lemma inUse_disarm h j :
  timersInUse h -> refsInUse h ->
  let h1 := setTimers (delete j (timers h)) h in
  timersInUse h1 /\ refsInUse h1 /\
  forall i items,
    i <> j -> payloadAt h i = Some items -> payloadAt h1 i = Some items.
Proof.
  intros Ht Hr h1. split; [|split].
  - intros i [t Hi]. simpl in Hi. apply lookup_delete_Some in Hi as [_ Hi].
    apply Ht. eauto.
  - intros i Hi. destruct (Hr i Hi) as [Hlt Hnone]. split; [exact Hlt|].
    unfold payloadAt in *. simpl. rewrite lookup_delete.
    case_decide; [reflexivity|exact Hnone].
  - intros i items Hij Hi. unfold payloadAt in *. simpl.
    rewrite lookup_delete_ne by congruence. exact Hi.
Qed.

Lemma inUse_fire h j :
  timersInUse h -> refsInUse h ->
  timersInUse (fire opts j h) /\ refsInUse (fire opts j h) /\
  forall i items,
    i <> j -> payloadAt h i = Some items ->
    payloadAt (fire opts j h) i = Some items.
Proof.
  intros Ht Hr. destruct (timers h !! j) as [t|] eqn:Hj.
  2:{ rewrite (fire_missing opts h j Hj). auto. }
  rewrite (fire_lookup opts h j Hj).
  destruct (inUse_disarm j Ht Hr) as (Ht1 & Hr1 & Hp1).
  set (h1 := setTimers (delete j (timers h)) h) in *.
  destruct (cb t) as [| |its sz].
  - destruct (inUse_flush Ht1 Hr1) as (Ht2 & Hr2 & Hp2). auto.
  - destruct (inUse_updateCountdown Ht1 Hr1) as (Ht2 & Hr2 & _ & Hp2). auto.
  - split; [exact Ht1|]. split; [exact Hr1|exact Hp1].
Qed.

Lemma inUse_defer h t :
  timersInUse h -> refsInUse h ->
  let h1 := snd (setTimeout (cb t) (delay t) h) in
  timersInUse h1 /\ refsInUse h1 /\
  forall i items,
    payloadAt h i = Some items -> payloadAt h1 i = Some items.
Proof.
  intros Ht Hr h1. split; [|split].
  - intros i. simpl. rewrite lookup_insert. case_decide; [subst; lia|].
    intros Hi. apply Ht in Hi. lia.
  - intros i Hi. destruct (Hr i Hi) as [Hlt Hnone]. split; [simpl; lia|].
    unfold payloadAt in *. simpl. rewrite lookup_insert_ne by lia.
    exact Hnone.
  - intros i items Hi. unfold payloadAt in *. simpl.
    assert (i < nextHandle h).
    { apply Ht. destruct (timers h !! i); [eauto|discriminate]. }
    rewrite lookup_insert_ne by lia. exact Hi.
Qed.

Lemma inUse_addUpdate h update :
  timersInUse h -> refsInUse h ->
  timersInUse (addUpdate opts update h) /\
  refsInUse (addUpdate opts update h) /\
  forall i items,
    payloadAt h i = Some items ->
    payloadAt (addUpdate opts update h) i = Some items.
Proof.
  intros Ht Hr. unfold addUpdate.
  destruct (flushOnFirst opts && isFirstUpdateRef h).
  { exact (inUse_defer {| cb := CbDeliver [update] 1; delay := 0 |} Ht Hr). }
  destruct (maxBatchSize opts <=? _)%Z.
  { exact (inUse_defer
             {| cb := CbDeliver _ (length (reducer opts (pendingUpdates h)
                                             update));
                delay := 0 |} Ht Hr). }
  destruct (isEmpty (pendingUpdates h)); [|auto].
  assert (Ht0 : timersInUse (setHasPendingUpdatesRef true h)) by exact Ht.
  assert (Hr0 : refsInUse (setHasPendingUpdatesRef true h)) by exact Hr.
  destruct (inUse_scheduleFlush Ht0 Hr0) as (Ht1 & Hr1 & _ & Hp1).
  split; [exact Ht1|]. split; [exact Hr1|exact Hp1].
Qed.

Lemma inUse_render (before h : Hook T) :
  timersInUse h -> refsInUse h ->
  timersInUse (render before h) /\ refsInUse (render before h) /\
  forall i, payloadAt (render before h) i = payloadAt h i.
Proof.
  intros Ht Hr. unfold render. destruct (Bool.eqb _ _); auto.
Qed.

Lemma inUse_step h inp :
  timersInUse h -> refsInUse h ->
  timersInUse (step opts h inp) /\ refsInUse (step opts h inp).
Proof.
  intros Ht Hr. unfold step.
  assert (timersInUse (handle opts h inp) /\ refsInUse (handle opts h inp))
    as [Ht1 Hr1].
  { destruct inp as [u| | |j|dt|]; simpl.
    - destruct (inUse_addUpdate u Ht Hr) as (? & ? & _). auto.
    - destruct (inUse_flush Ht Hr) as (? & ? & _). auto.
    - destruct (inUse_clear Ht Hr) as (? & ? & _). auto.
    - destruct (inUse_fire j Ht Hr) as (? & ? & _). auto.
    - auto.
    - unfold flushPendingCleanup. destruct (negb _); auto. }
  destruct (inUse_render h Ht1 Hr1) as (? & ? & _). auto.
Qed.

Lemma inUse_run ins : forall h,
  timersInUse h -> refsInUse h ->
  timersInUse (run opts ins h) /\ refsInUse (run opts ins h).
Proof.
  induction ins as [|inp ins IH]; intros h Ht Hr; [auto|].
  change (run opts (inp :: ins) h) with (run opts ins (step opts h inp)).
  destruct (inUse_step inp Ht Hr) as [Ht1 Hr1]. now apply IH.
Qed.

Lemma inUse_mount : timersInUse (@mount T) /\ refsInUse (@mount T).
Proof.
  split.
  - intros i [t Hi]. simpl in Hi. now rewrite lookup_empty in Hi.
  - intros i [Hi|Hi]; discriminate.
Qed.

(** *** Nothing is lost short of [clear()] *)

Lemma held_render (before h : Hook T) x : held x h -> held x (render before h).
Proof.
  intros Hx. unfold render. destruct (Bool.eqb _ _); exact Hx.
Qed.

Lemma held_flush h x :
  timersInUse h -> refsInUse h -> held x h -> held x (flush h).
Proof.
  intros Ht Hr Hx. destruct (pendingUpdates h) as [|y p] eqn:Hp.
  { now rewrite (flush_empty h Hp). }
  assert (Hne : pendingUpdates h <> []) by (rewrite Hp; discriminate).
  destruct (flush_nonempty h Hne) as (_ & Hlog & _).
  destruct (inUse_flush Ht Hr) as (_ & _ & Hpay).
  destruct Hx as [Hx|[Hx|(i & items & Hi & Hx)]].
  - left. rewrite Hlog, delivered_app. apply elem_of_app. now left.
  - left. rewrite Hlog, delivered_app. apply elem_of_app. right.
    simpl. now rewrite app_nil_r.
  - right. right. exists i, items. split; [now apply Hpay|exact Hx].
Qed.

Lemma held_fire h j x :
  timersInUse h -> refsInUse h -> held x h -> held x (fire opts j h).
Proof.
  intros Ht Hr Hx. destruct (timers h !! j) as [t|] eqn:Hj.
  2:{ now rewrite (fire_missing opts h j Hj). }
  rewrite (fire_lookup opts h j Hj).
  destruct (inUse_disarm j Ht Hr) as (Ht1 & Hr1 & Hp1).
  set (h1 := setTimers (delete j (timers h)) h) in *.
  destruct Hx as [Hx|[Hx|(i & items & Hi & Hx)]].
  - assert (H1 : held x h1) by (left; exact Hx).
    destruct (cb t) as [| |its sz].
    + now apply held_flush.
    + left. now rewrite (proj1 (proj2 (countdown_poll_frame opts h1))).
    + left. rewrite delivered_deliver. apply elem_of_app. now left.
  - assert (H1 : held x h1) by (right; left; exact Hx).
    destruct (cb t) as [| |its sz].
    + now apply held_flush.
    + right. left.
      now rewrite (proj1 (countdown_poll_frame opts h1)).
    + right. left. exact Hx.
  - destruct (decide (i = j)) as [->|Hij].
    + apply payloadAt_Some in Hi as (t' & size & Hj' & Hcb).
      assert (t' = t) by congruence. subst t'. rewrite Hcb.
      left. rewrite delivered_deliver. apply elem_of_app. now right.
    + assert (H1 : held x h1).
      { right. right. exists i, items. split; [now apply Hp1|exact Hx]. }
      destruct (cb t) as [| |its sz].
      * now apply held_flush.
      * destruct (inUse_updateCountdown Ht1 Hr1) as (_ & _ & _ & Hp2).
        right. right. exists i, items. split; [|exact Hx].
        apply Hp2. now apply Hp1.
      * right. right. exists i, items. split; [now apply Hp1|exact Hx].
Qed.

Lemma held_addUpdate h update x :
  keeping (reducer opts) -> batchShape opts h ->
  timersInUse h -> refsInUse h ->
  held x h \/ x = update -> held x (addUpdate opts update h).
Proof.
  intros Hkeep [Hfirst _] Ht Hr Hx.
  destruct (inUse_addUpdate update Ht Hr) as (_ & _ & Hpay).
  assert (Hin : x ∈ delivered (log h) \/
                (exists i items, payloadAt h i = Some items /\ x ∈ items) \/
                x ∈ pendingUpdates h ++ [update]).
  { destruct Hx as [[Hx|[Hx|Hx]]| ->]; auto.
    - right. right. apply elem_of_app. now left.
    - right. right. apply elem_of_app. right. now apply list_elem_of_singleton. }
  destruct Hin as [Hd|[(i & items & Hi & Hxi)|Hnew]].
  - left. revert Hd. unfold addUpdate.
    destruct (flushOnFirst opts && isFirstUpdateRef h); [auto|].
    destruct (maxBatchSize opts <=? _)%Z; [auto|].
    destruct (isEmpty (pendingUpdates h)); [|auto].
    intros Hd.
    change (x ∈ delivered
                  (log (scheduleFlush opts (setHasPendingUpdatesRef true h)))).
    now rewrite (proj1 (proj2 (scheduleFlush_frame opts
                                 (setHasPendingUpdatesRef true h)))).
  - right. right. exists i, items. split; [now apply Hpay|exact Hxi].
  - unfold addUpdate.
    destruct (flushOnFirst opts && isFirstUpdateRef h) eqn:Hff.
    { apply andb_prop in Hff as [_ Hf]. rewrite (Hfirst Hf) in Hnew.
      right. right. exists (nextHandle h), [update].
      split; [|exact Hnew].
      unfold payloadAt. simpl. now rewrite lookup_insert_eq. }
    apply Hkeep in Hnew.
    destruct (maxBatchSize opts <=? _)%Z.
    { right. right.
      exists (nextHandle h), (reducer opts (pendingUpdates h) update).
      split; [|exact Hnew].
      unfold payloadAt. simpl. now rewrite lookup_insert_eq. }
    right. left. exact Hnew.
Qed.

Lemma held_step h inp x :
  keeping (reducer opts) -> batchShape opts h ->
  timersInUse h -> refsInUse h -> notClear inp ->
  held x h -> held x (step opts h inp).
Proof.
  intros Hkeep Hsh Ht Hr Hnc Hx. unfold step. apply held_render.
  destruct inp as [u| | |j|dt|]; simpl.
  - apply held_addUpdate; auto.
  - now apply held_flush.
  - destruct Hnc.
  - now apply held_fire.
  - exact Hx.
  - destruct (flushPendingCleanup_frame h) as (Hp & _ & _ & Htm & Hlog).
    destruct Hx as [Hx|[Hx|(i & items & Hi & Hx)]].
    + left. rewrite Hlog, delivered_app. apply elem_of_app. now left.
    + right. left. now rewrite Hp.
    + right. right. exists i, items. split; [|exact Hx].
      unfold payloadAt in *. now rewrite Htm.
Qed.

Lemma held_run ins : forall h x,
  keeping (reducer opts) -> batchShape opts h ->
  timersInUse h -> refsInUse h -> Forall (@notClear T) ins ->
  held x h \/ x ∈ added ins -> held x (run opts ins h).
Proof.
  induction ins as [|inp ins IH]; intros h x Hkeep Hsh Ht Hr Hnc Hx.
  { destruct Hx as [Hx|Hx]; [exact Hx|]. now apply elem_of_nil in Hx. }
  change (run opts (inp :: ins) h) with (run opts ins (step opts h inp)).
  apply Forall_cons in Hnc as [Hnc1 Hnc].
  destruct (inUse_step inp Ht Hr) as [Ht1 Hr1].
  apply IH; auto using shape_step.
  destruct Hx as [Hx|Hx]; [left; now apply held_step|].
  change (added (inp :: ins)) with
    (match inp with AddUpdate u => [u] | _ => [] end ++ added ins) in Hx.
  apply elem_of_app in Hx as [Hx|Hx]; [|now right].
  left. destruct inp as [u| | |j|dt|];
    try (now apply elem_of_nil in Hx).
  apply list_elem_of_singleton in Hx. subst x.
  unfold step. apply held_render. simpl. apply held_addUpdate; auto.
Qed.

(** *** Where deferred deliveries, batches and log entries come from *)

Lemma timers_origin h inp i t its sz :
  timers (step opts h inp) !! i = Some t -> cb t = CbDeliver its sz ->
  timers h !! i = Some t \/
  exists u, inp = AddUpdate u /\
    ((its = [u] /\ sz = 1) \/
     (its = reducer opts (pendingUpdates h) u /\ sz = length its /\
      (maxBatchSize opts <= Z.of_nat (length its))%Z)).
Proof.
  unfold step.
  rewrite (proj2 (proj2 (proj2 (proj2 (render_frame h (handle opts h inp)))))).
  destruct inp as [u| | |j|dt|]; simpl.
  - unfold addUpdate.
    destruct (flushOnFirst opts && isFirstUpdateRef h).
    { simpl. rewrite lookup_insert. case_decide; [|now left].
      intros [= <-] [= <- <-]. right. exists u. split; [reflexivity|].
      left. now split. }
    destruct (maxBatchSize opts <=? _)%Z eqn:Hsize.
    { simpl. rewrite lookup_insert. case_decide; [|now left].
      intros [= <-] [= <- <-]. right. exists u. split; [reflexivity|].
      right. apply Z.leb_le in Hsize. now repeat split. }
    destruct (isEmpty (pendingUpdates h)); [|now left].
    intros Hi Hcb.
    change (timers (scheduleFlush opts (setHasPendingUpdatesRef true h)) !! i
            = Some t) in Hi.
    destruct (scheduleFlush_timers opts (setHasPendingUpdatesRef true h))
      as (k & _ & Hk & Hrest).
    destruct (decide (i = k)) as [->|Hik].
    { rewrite Hk in Hi. injection Hi as <-. discriminate. }
    destruct (Hrest i t Hik Hi) as [[Hold _]|Hc]; [now left|congruence].
  - intros Hi _. left. destruct (pendingUpdates h) as [|y p] eqn:Hp.
    { now rewrite (flush_empty h Hp) in Hi. }
    assert (Hne : pendingUpdates h <> []) by (rewrite Hp; discriminate).
    destruct (flush_nonempty h Hne) as (_ & _ & _ & _ & _ & _ & _ & Htm).
    rewrite Htm in Hi. now apply clearTimers_timers in Hi as [Hi _].
  - intros Hi _. left.
    change (timers (clearTimers h) !! i = Some t) in Hi.
    now apply clearTimers_timers in Hi as [Hi _].
  - intros Hi Hcb. left. destruct (timers h !! j) as [tj|] eqn:Hj.
    2:{ now rewrite (fire_missing opts h j Hj) in Hi. }
    rewrite (fire_lookup opts h j Hj) in Hi.
    set (h1 := setTimers (delete j (timers h)) h) in *.
    assert (Hsub : timers h1 !! i = Some t -> timers h !! i = Some t).
    { simpl. intros H1. now apply lookup_delete_Some in H1 as [_ H1]. }
    destruct (cb tj) as [| |items size].
    + apply Hsub. destruct (pendingUpdates h1) as [|y p] eqn:Hp.
      { now rewrite (flush_empty h1 Hp) in Hi. }
      assert (Hne : pendingUpdates h1 <> []) by (rewrite Hp; discriminate).
      destruct (flush_nonempty h1 Hne) as (_ & _ & _ & _ & _ & _ & _ & Htm).
      rewrite Htm in Hi. now apply clearTimers_timers in Hi as [Hi _].
    + apply countdown_poll_timers in Hi as [Hi|Hc]; [now apply Hsub|].
      congruence.
    + now apply Hsub.
  - intros Hi _. now left.
  - intros Hi _. left.
    now rewrite (proj1 (proj2 (proj2 (proj2 (flushPendingCleanup_frame h)))))
      in Hi.
Qed.

Lemma pending_origin h inp :
  let p' := pendingUpdates (step opts h inp) in
  p' = pendingUpdates h \/ p' = [] \/
  exists u, inp = AddUpdate u /\ p' = reducer opts (pendingUpdates h) u.
Proof.
  unfold step. cbv zeta.
  rewrite (proj1 (render_frame h (handle opts h inp))).
  destruct inp as [u| | |j|dt|]; simpl.
  - unfold addUpdate.
    destruct (flushOnFirst opts && isFirstUpdateRef h); [now (right; left)|].
    destruct (maxBatchSize opts <=? _)%Z; [now (right; left)|].
    right. right. exists u. now split.
  - destruct (pendingUpdates h) as [|y p] eqn:Hp.
    { rewrite (flush_empty h Hp). now left. }
    assert (Hne : pendingUpdates h <> []) by (rewrite Hp; discriminate).
    right. left. exact (proj1 (flush_nonempty h Hne)).
  - right. now left.
  - destruct (timers h !! j) as [tj|] eqn:Hj.
    2:{ rewrite (fire_missing opts h j Hj). now left. }
    rewrite (fire_lookup opts h j Hj).
    set (h1 := setTimers (delete j (timers h)) h) in *.
    destruct (cb tj) as [| |items size].
    + destruct (pendingUpdates h1) as [|y p] eqn:Hp.
      { rewrite (flush_empty h1 Hp). now left. }
      assert (Hne : pendingUpdates h1 <> []) by (rewrite Hp; discriminate).
      right. left. exact (proj1 (flush_nonempty h1 Hne)).
    + left. exact (proj1 (countdown_poll_frame opts h1)).
    + now left.
  - now left.
  - left. exact (proj1 (flushPendingCleanup_frame h)).
Qed.

Lemma log_origin h inp :
  pendingUpdatesRef h = pendingUpdates h ->
  let l' := log (step opts h inp) in
  l' = log h \/
  exists b sz, l' = log h ++ [EvOnFlush b sz; EvConsumer b] /\
    ((b = pendingUpdates h /\ b <> [] /\ sz = length b /\ inp <> Clear /\
      forall u, inp <> AddUpdate u) \/
     (exists i t,
        inp = Fires i /\ timers h !! i = Some t /\ cb t = CbDeliver b sz)).
Proof.
  intros Hs. unfold step. cbv zeta.
  rewrite (proj1 (proj2 (render_frame h (handle opts h inp)))).
  assert (Hflush : forall h0 (inp0 : Input T),
            pendingUpdates h0 = pendingUpdates h -> inp0 <> Clear ->
            (forall u, inp0 <> AddUpdate u) ->
            log (flush h0) = log h0 \/
            exists b sz,
              log (flush h0) = log h0 ++ [EvOnFlush b sz; EvConsumer b] /\
              b = pendingUpdates h /\ b <> [] /\ sz = length b /\
              inp0 <> Clear /\ forall u, inp0 <> AddUpdate u).
  { intros h0 inp0 Heq Hc Ha. destruct (pendingUpdates h0) as [|y p] eqn:Hp.
    { rewrite (flush_empty h0 Hp). now left. }
    assert (Hne : pendingUpdates h0 <> []) by (rewrite Hp; discriminate).
    right. exists (pendingUpdates h0), (length (pendingUpdates h0)).
    split; [exact (proj1 (proj2 (flush_nonempty h0 Hne)))|].
    rewrite Heq in *. now repeat split. }
  destruct inp as [u| | |j|dt|]; simpl.
  - left. unfold addUpdate.
    destruct (flushOnFirst opts && isFirstUpdateRef h); [reflexivity|].
    destruct (maxBatchSize opts <=? _)%Z; [reflexivity|].
    destruct (isEmpty (pendingUpdates h)); [|reflexivity].
    exact (proj1 (proj2 (scheduleFlush_frame opts
                           (setHasPendingUpdatesRef true h)))).
  - destruct (Hflush h (@Flush T) eq_refl) as [Hl|(b & sz & Hl & Hb)];
      [discriminate|discriminate|now left|].
    right. exists b, sz. split; [exact Hl|now left].
  - left. exact (proj1 (proj2 (clearTimers_frame h))).
  - destruct (timers h !! j) as [tj|] eqn:Hj.
    2:{ rewrite (fire_missing opts h j Hj). now left. }
    rewrite (fire_lookup opts h j Hj).
    set (h1 := setTimers (delete j (timers h)) h) in *.
    destruct (cb tj) as [| |items size] eqn:Hcb.
    + destruct (Hflush h1 (Fires j) eq_refl) as [Hl|(b & sz & Hl & Hb)];
        [discriminate|discriminate|now left|].
      right. exists b, sz. split; [exact Hl|now left].
    + left. exact (proj1 (proj2 (countdown_poll_frame opts h1))).
    + right. exists items, size. split; [reflexivity|].
      right. exists j, tj. now repeat split.
  - now left.
  - destruct (flushPendingCleanup_frame h) as (_ & _ & _ & _ & Hl).
    rewrite Hs in Hl.
    destruct (pendingUpdates h) as [|y p] eqn:Hp;
      [left; rewrite Hl; simpl; apply app_nil_r|].
    right. exists (y :: p), (length (y :: p)). split; [exact Hl|].
    left. repeat split; discriminate.
Qed.

(** *** What [clear()] discards stays discarded *)

Lemma gone_step h inp x :
  selecting (reducer opts) ->
  pendingUpdatesRef h = pendingUpdates h ->
  (forall u, inp = AddUpdate u -> u <> x) ->
  gone x h -> gone x (step opts h inp).
Proof.
  intros Hsel Hs Hnew (Hd & Hp & Hpay). split; [|split].
  - destruct (@log_origin h inp Hs) as [->|(b & sz & -> & Hb)]; [exact Hd|].
    rewrite delivered_app. simpl. rewrite app_nil_r.
    intros [Hin|Hin]%elem_of_app; [now apply Hd|].
    destruct Hb as [(-> & _)|(i & t & _ & Hi & Hcb)]; [now apply Hp|].
    apply (Hpay i b); [|exact Hin].
    apply payloadAt_Some. eauto.
  - destruct (pending_origin h inp) as [->|[->|(u & -> & ->)]].
    + exact Hp.
    + apply not_elem_of_nil.
    + intros [Hin| ->]%Hsel; [now apply Hp|].
      now apply (Hnew u).
  - intros i items (t & sz & Hi & Hcb)%payloadAt_Some.
    destruct (timers_origin h inp i Hi Hcb)
      as [Hold|(u & -> & [[-> _]|(-> & _)])].
    + apply (Hpay i items). apply payloadAt_Some. eauto.
    + intros Hin%list_elem_of_singleton. now apply (Hnew u eq_refl).
    + intros [Hin| ->]%Hsel; [now apply Hp|].
      now apply (Hnew u).
Qed.

Lemma gone_run ins : forall h x,
  selecting (reducer opts) ->
  pendingUpdatesRef h = pendingUpdates h ->
  x ∉ added ins ->
  gone x h -> gone x (run opts ins h).
Proof.
  induction ins as [|inp ins IH]; intros h x Hsel Hs Hnew Hg; [exact Hg|].
  change (run opts (inp :: ins) h) with (run opts ins (step opts h inp)).
  change (added (inp :: ins)) with
    (match inp with AddUpdate u => [u] | _ => [] end ++ added ins) in Hnew.
  apply IH; [assumption|apply step_synced| |].
  - intros Hin. apply Hnew. apply elem_of_app. now right.
  - apply gone_step; [assumption|assumption| |assumption].
    intros u -> ->. apply Hnew. apply elem_of_app. left.
    now apply list_elem_of_singleton.
Qed.

(** *** The shape of the callback log *)

Lemma batches_app (l1 l2 : list (Event T)) :
  batches (l1 ++ l2) = batches l1 ++ batches l2.
Proof. unfold batches. apply flat_map_app. Qed.

Lemma flushLog_app (b1 b2 : list (list T)) :
  flushLog (b1 ++ b2) = flushLog b1 ++ flushLog b2.
Proof. unfold flushLog. apply flat_map_app. Qed.

Lemma flushLog_step h inp :
  (1 <= maxBatchSize opts)%Z ->
  pendingUpdatesRef h = pendingUpdates h ->
  payloadsSized h ->
  payloadsSized (step opts h inp) /\
  exists bs, log (step opts h inp) = log h ++ flushLog bs /\
             Forall (fun b => b <> []) bs.
Proof.
  intros Hmax Hs Hsized. split.
  - intros i t items size Hi Hcb.
    destruct (timers_origin h inp i Hi Hcb)
      as [Hold|(u & -> & [[-> ->]|(-> & -> & Hlen)])].
    + exact (Hsized i t items size Hold Hcb).
    + split; [reflexivity|discriminate].
    + split; [reflexivity|].
      intros Hnil. rewrite Hnil in Hlen. simpl in Hlen. lia.
  - destruct (@log_origin h inp Hs) as [->|(b & sz & -> & Hb)].
    { exists []. split; [simpl; now rewrite app_nil_r|constructor]. }
    exists [b].
    destruct Hb as [(_ & Hne & -> & _)|(i & t & _ & Hi & Hcb)].
    + split; [reflexivity|]. now constructor.
    + destruct (Hsized i t b sz Hi Hcb) as [-> Hne].
      split; [reflexivity|]. now constructor.
Qed.

Lemma flushLog_run ins : forall h,
  (1 <= maxBatchSize opts)%Z ->
  pendingUpdatesRef h = pendingUpdates h ->
  payloadsSized h ->
  payloadsSized (run opts ins h) /\
  exists bs, log (run opts ins h) = log h ++ flushLog bs /\
             Forall (fun b => b <> []) bs.
Proof.
  induction ins as [|inp ins IH]; intros h Hmax Hsync Hsized.
  { split; [exact Hsized|]. exists [].
    split; [simpl; now rewrite app_nil_r|constructor]. }
  change (run opts (inp :: ins) h) with (run opts ins (step opts h inp)).
  destruct (@flushLog_step h inp Hmax Hsync Hsized) as (Hs1 & bs1 & Hl1 & Hne1).
  destruct (IH _ Hmax (step_synced opts h inp) Hs1)
    as (Hs2 & bs2 & Hl2 & Hne2).
  split; [exact Hs2|]. exists (bs1 ++ bs2).
  split; [|now apply Forall_app].
  now rewrite Hl2, Hl1, flushLog_app, app_assoc.
Qed.

Lemma batches_flushLog (bs : list (list T)) : batches (flushLog bs) = bs.
Proof.
  induction bs as [|b bs IH]; [reflexivity|].
  simpl. now rewrite IH.
Qed.

(** *** The countdown *)

Lemma timely_clearTimers h : timely opts h -> timely opts (clearTimers h).
Proof.
  unfold timely, clearTimers.
  destruct (timeoutRef h); simpl; destruct (countdownRef h); simpl; tauto.
Qed.

Lemma timely_updateCountdown h :
  timely opts h -> timely opts (updateCountdown opts h).
Proof.
  unfold timely, updateCountdown. intros [Hs Hb].
  destruct (negb (hasPendingUpdatesRef h)); [tauto|].
  cbv zeta. destruct (Z.ltb 0 (Z.max 0 _)); cbn -[Z.max Z.sub]; lia.
Qed.

Lemma timely_scheduleFlush h :
  hasPendingUpdatesRef h = true ->
  timely opts h -> timely opts (scheduleFlush opts h).
Proof.
  intros Hpend Hh. apply timely_clearTimers in Hh.
  rewrite <- (proj1 (proj2 (proj2 (proj2 (clearTimers_frame h))))) in Hpend.
  set (h1 := clearTimers h) in *.
  assert (H2 : timely opts (startCountdown opts h1)).
  { destruct Hh as [Hs Hb]. unfold timely, startCountdown, updateCountdown.
    cbn [hasPendingUpdatesRef setTimeUntilFlush setStartTimeRef].
    rewrite Hpend. cbn [negb]. cbv zeta.
    destruct (Z.ltb 0 (Z.max 0 _)); cbn -[Z.max Z.sub]; lia. }
  exact H2.
Qed.

Lemma timely_flush h : timely opts h -> timely opts (flush h).
Proof.
  intros Hh. unfold flush. destruct (isEmpty (pendingUpdates h)); [exact Hh|].
  apply timely_clearTimers in Hh. destruct Hh as [Hs Hb].
  unfold timely. simpl. lia.
Qed.

Lemma timely_step h inp :
  forward inp -> timely opts h -> timely opts (step opts h inp).
Proof.
  intros Hfw Hh. unfold step.
  assert (H1 : timely opts (handle opts h inp)).
  { destruct inp as [u| | |j|dt|]; simpl.
    - unfold addUpdate.
      destruct (flushOnFirst opts && isFirstUpdateRef h); [exact Hh|].
      destruct (maxBatchSize opts <=? _)%Z; [exact Hh|].
      destruct (isEmpty (pendingUpdates h)); [|exact Hh].
      exact (timely_scheduleFlush (h := setHasPendingUpdatesRef true h)
               eq_refl Hh).
    - now apply timely_flush.
    - apply timely_clearTimers in Hh. destruct Hh as [Hs Hb].
      unfold timely. simpl. split; [exact Hs|lia].
    - unfold fire. destruct (timers h !! j) as [t|]; [|exact Hh].
      destruct (cb t).
      + now apply timely_flush.
      + now apply timely_updateCountdown.
      + exact Hh.
    - simpl in Hfw. destruct Hh as [Hs Hb]. unfold timely. simpl. lia.
    - unfold flushPendingCleanup. destruct (negb _); exact Hh. }
  unfold render. destruct (Bool.eqb _ _); exact H1.
Qed.

Lemma timely_run ins : forall h,
  Forall (@forward T) ins -> timely opts h -> timely opts (run opts ins h).
Proof.
  induction ins as [|inp ins IH]; intros h Hfw Hh; [exact Hh|].
  change (run opts (inp :: ins) h) with (run opts ins (step opts h inp)).
  apply Forall_cons in Hfw as [Hfw1 Hfw].
  apply IH; [assumption|]. now apply timely_step.
Qed.

(** *** The countdown poller *)

Lemma noCountdown_tracked h : noCountdown h -> countdownTracked h.
Proof. intros Hno i t Hi Hcb. now contradiction (Hno i t Hi). Qed.

Lemma noCountdown_clearTimers h :
  countdownTracked h -> noCountdown (clearTimers h).
Proof.
  intros Htr i t Hi Hcb.
  assert (Hold : timers h !! i = Some t).
  { now apply clearTimers_timers in Hi as [Hi _]. }
  pose proof (Htr i t Hold Hcb) as Href.
  revert Hi. unfold clearTimers.
  destruct (timeoutRef h) as [a|]; simpl; rewrite Href; simpl;
    rewrite lookup_delete_eq; discriminate.
Qed.

Lemma poller_updateCountdown h :
  noCountdown h -> countdownTracked (updateCountdown opts h).
Proof.
  intros Hno. unfold updateCountdown.
  destruct (negb (hasPendingUpdatesRef h)); [now apply noCountdown_tracked|].
  cbv zeta. destruct (Z.ltb 0 (Z.max 0 _)).
  - intros i t. simpl. rewrite lookup_insert. case_decide; [congruence|].
    intros Hi Hcb. now contradiction (Hno i t Hi).
  - intros i t Hi Hcb. now contradiction (Hno i t Hi).
Qed.

Lemma poller_scheduleFlush h :
  countdownTracked h -> countdownTracked (scheduleFlush opts h).
Proof.
  intros Htr. apply noCountdown_clearTimers in Htr.
  set (h1 := clearTimers h) in *.
  assert (H2 : countdownTracked (startCountdown opts h1)).
  { unfold startCountdown. apply poller_updateCountdown. exact Htr. }
  unfold scheduleFlush. fold h1.
  set (h3 := startCountdown opts h1) in *.
  intros i t. simpl. rewrite lookup_insert. case_decide.
  - intros [= <-]. discriminate.
  - apply H2.
Qed.

Lemma poller_flush h : countdownTracked h -> countdownTracked (flush h).
Proof.
  intros Htr. unfold flush. destruct (isEmpty (pendingUpdates h)); [exact Htr|].
  apply noCountdown_clearTimers in Htr. exact (noCountdown_tracked Htr).
Qed.

Lemma poller_step h inp :
  countdownTracked h -> countdownTracked (step opts h inp).
Proof.
  intros Htr. unfold step.
  assert (H1 : countdownTracked (handle opts h inp)).
  { destruct inp as [u| | |j|dt|]; simpl.
    - assert (Hdefer : forall c d,
                countdownTracked (snd (setTimeout (CbDeliver c d) 0 h))).
      { intros c d i t. simpl. rewrite lookup_insert. case_decide.
        - intros [= <-]. discriminate.
        - apply Htr. }
      unfold addUpdate.
      destruct (flushOnFirst opts && isFirstUpdateRef h); [apply Hdefer|].
      destruct (maxBatchSize opts <=? _)%Z; [apply Hdefer|].
      destruct (isEmpty (pendingUpdates h)); [|exact Htr].
      exact (poller_scheduleFlush (h := setHasPendingUpdatesRef true h) Htr).
    - now apply poller_flush.
    - apply noCountdown_clearTimers in Htr. exact (noCountdown_tracked Htr).
    - unfold fire. destruct (timers h !! j) as [t|] eqn:Hj; [|exact Htr].
      set (h1 := setTimers (delete j (timers h)) h).
      assert (Htr1 : countdownTracked h1).
      { intros i ti Hi. simpl in Hi.
        apply lookup_delete_Some in Hi as [_ Hi]. now apply Htr. }
      destruct (cb t) eqn:Hcb.
      + now apply poller_flush.
      + apply poller_updateCountdown. intros i ti Hi Hci.
        simpl in Hi. apply lookup_delete_Some in Hi as [Hne Hi].
        pose proof (Htr i ti Hi Hci). pose proof (Htr j t Hj Hcb).
        congruence.
      + exact Htr1.
    - exact Htr.
    - unfold flushPendingCleanup. destruct (negb _); exact Htr. }
  unfold render. destruct (Bool.eqb _ _); exact H1.
Qed.

Lemma poller_run ins : forall h,
  countdownTracked h -> countdownTracked (run opts ins h).
Proof.
  induction ins as [|inp ins IH]; intros h Htr; [exact Htr|].
  change (run opts (inp :: ins) h) with (run opts ins (step opts h inp)).
  apply IH. now apply poller_step.
Qed.

(** *** A batch that fills up within the window *)

Section Window.

Hypothesis no_flushOnFirst : flushOnFirst opts = false.
Hypothesis appending : forall acc x, reducer opts acc x = acc ++ [x].

Let flushTimer : Timer T := {| cb := CbFlush; delay := batchWindow opts |}.

Lemma window_first h u :
  pendingUpdates h = [] -> (1 < maxBatchSize opts)%Z ->
  let h' := step opts h (AddUpdate u) in
  pendingUpdates h' = [u] /\ log h' = log h /\
  exists i, timeoutRef h' = Some i /\ timers h' !! i = Some flushTimer.
Proof.
  intros Hp Hmax h'. subst h'. unfold step.
  destruct (render_frame h (handle opts h (AddUpdate u)))
    as (-> & -> & _ & -> & ->).
  simpl. rewrite addUpdate_retain;
    [|now rewrite no_flushOnFirst|rewrite appending, Hp; simpl; lia].
  rewrite Hp, appending. simpl isEmpty. cbv iota.
  set (h0 := setHasPendingUpdatesRef true h).
  destruct (scheduleFlush_timers opts h0) as (i & Href & Hi & _).
  split; [reflexivity|]. split.
  - exact (proj1 (proj2 (scheduleFlush_frame opts h0))).
  - exists i. split; [exact Href|exact Hi].
Qed.

Lemma window_more h u i :
  pendingUpdates h <> [] ->
  (Z.of_nat (length (pendingUpdates h)) + 1 < maxBatchSize opts)%Z ->
  timeoutRef h = Some i -> timers h !! i = Some flushTimer ->
  let h' := step opts h (AddUpdate u) in
  pendingUpdates h' = pendingUpdates h ++ [u] /\ log h' = log h /\
  timeoutRef h' = Some i /\ timers h' !! i = Some flushTimer.
Proof.
  intros Hp Hlen Href Hi h'. subst h'. unfold step.
  destruct (render_frame h (handle opts h (AddUpdate u)))
    as (-> & -> & _ & -> & ->).
  simpl. rewrite addUpdate_retain;
    [|now rewrite no_flushOnFirst
     |rewrite appending, length_app; simpl; lia].
  apply isEmpty_false in Hp. rewrite Hp, appending.
  repeat split; assumption.
Qed.

Lemma window_run l : forall h i,
  pendingUpdates h <> [] ->
  (Z.of_nat (length (pendingUpdates h ++ l)) < maxBatchSize opts)%Z ->
  timeoutRef h = Some i -> timers h !! i = Some flushTimer ->
  let h' := run opts (map (@AddUpdate T) l) h in
  pendingUpdates h' = pendingUpdates h ++ l /\ log h' = log h /\
  timeoutRef h' = Some i /\ timers h' !! i = Some flushTimer.
Proof.
  induction l as [|u l IH]; intros h i Hp Hlen Href Hi.
  { simpl. rewrite app_nil_r. now repeat split. }
  change (run opts (map (@AddUpdate T) (u :: l)) h)
    with (run opts (map (@AddUpdate T) l) (step opts h (AddUpdate u))).
  rewrite length_app in Hlen. simpl in Hlen.
  destruct (@window_more h u i Hp ltac:(lia) Href Hi)
    as (Hp1 & Hl1 & Hr1 & Hi1).
  destruct (IH (step opts h (AddUpdate u)) i) as (Hp2 & Hl2 & Hr2 & Hi2);
    try assumption.
  - rewrite Hp1. now destruct (pendingUpdates h).
  - rewrite Hp1, !length_app. simpl. lia.
  - cbv zeta. rewrite Hp2, Hl2, Hp1, Hl1, <- app_assoc. now repeat split.
Qed.

Lemma window_fire h i :
  pendingUpdates h <> [] -> timers h !! i = Some flushTimer ->
  let p := pendingUpdates h in
  let h' := step opts h (Fires i) in
  log h' = log h ++ [EvOnFlush p (length p); EvConsumer p] /\
  pendingUpdates h' = [] /\ timeUntilFlush h' = 0%Z.
Proof.
  intros Hp Hi p h'. subst h'. unfold step. simpl handle.
  rewrite (fire_lookup opts h i Hi). simpl cb. cbv iota.
  set (h1 := setTimers (delete i (timers h)) h).
  assert (Hp1 : pendingUpdates h1 <> []) by exact Hp.
  destruct (flush_nonempty h1 Hp1)
    as (Hpe & Hlog & _ & _ & Htuf & Htr & _ & Htm).
  destruct (render_frame h (flush h1)) as (-> & -> & _ & Hrr & Hrt).
  split; [exact Hlog|]. split; [exact Hpe|].
  unfold render. destruct (Bool.eqb _ _); exact Htuf.
Qed.

End Window.

End Runs.

(** X12. With the appending reducer and [flushOnFirst] off, updates added
    to an empty batch, fewer than [maxBatchSize] of them, all stay pending
    and no callback runs; the first of them armed one auto-flush timer with
    the batch window as its delay, and when that timer fires [onFlush] and
    the consumer receive the whole batch, in the order added, once, and the
    batch and the countdown are back to empty and zero. *)
Theorem batch_window_delivers_whole_batch
    (T : Type) (opts : BatchedUpdatesOptions T) (h : Hook T) (l : list T) :
  flushOnFirst opts = false ->
  (forall acc x, reducer opts acc x = acc ++ [x]) ->
  pendingUpdates h = [] ->
  l <> [] ->
  (Z.of_nat (length l) < maxBatchSize opts)%Z ->
  let h1 := run opts (map (@AddUpdate T) l) h in
  pendingUpdates h1 = l /\ log h1 = log h /\
  exists i,
    timeoutRef h1 = Some i /\
    timers h1 !! i = Some {| cb := CbFlush; delay := batchWindow opts |} /\
    let h2 := step opts h1 (Fires i) in
    log h2 = log h ++ [EvOnFlush l (length l); EvConsumer l] /\
    pendingUpdates h2 = [] /\ timeUntilFlush h2 = 0%Z.
Proof.
  intros Hf Happ Hp Hne Hlen h1. destruct l as [|u l]; [contradiction|].
  simpl in Hlen.
  destruct (window_first opts Hf Happ h u Hp ltac:(lia))
    as (Hp0 & Hl0 & i & Hr0 & Hi0).
  set (h0 := step opts h (AddUpdate u)) in *.
  assert (Hne0 : pendingUpdates h0 <> []) by (rewrite Hp0; discriminate).
  destruct (@window_run T opts Hf Happ l h0 i Hne0) as (Hp1 & Hl1 & Hr1 & Hi1);
    [rewrite Hp0; simpl; lia|exact Hr0|exact Hi0|].
  change (run opts (map (@AddUpdate T) l) h0) with h1 in *.
  rewrite Hp0 in Hp1. simpl in Hp1.
  split; [exact Hp1|]. split; [congruence|].
  exists i. split; [exact Hr1|]. split; [exact Hi1|].
  assert (Hne1 : pendingUpdates h1 <> []) by (rewrite Hp1; discriminate).
  destruct (window_fire opts h1 i Hne1 Hi1) as (Hl2 & Hp2 & Ht2).
  rewrite Hp1, Hl1, Hl0 in Hl2. now repeat split.
Qed.

Lemma batch_window_delivers_whole_batch_witness :
  let h1 := run windowOptions (map (@AddUpdate nat) [1; 2; 3]) mount in
  pendingUpdates h1 = [1; 2; 3] /\ log h1 = [] /\
  exists i,
    timeoutRef h1 = Some i /\
    timers h1 !! i = Some {| cb := CbFlush; delay := 100 |} /\
    let h2 := step windowOptions h1 (Fires i) in
    log h2 = [EvOnFlush [1; 2; 3] 3; EvConsumer [1; 2; 3]] /\
    pendingUpdates h2 = [] /\ timeUntilFlush h2 = 0%Z.
Proof.
  apply (@batch_window_delivers_whole_batch nat windowOptions mount [1; 2; 3]).
  - reflexivity.
  - intros acc x. reflexivity.
  - reflexivity.
  - discriminate.
  - simpl. lia.
Defined.

(** X13. Short of [clear()], nothing is lost: with a reducer that keeps the
    accumulated updates and the new one, every update handed to
    [addUpdate] is, after any further run without [clear()], either
    delivered to the consumer, or pending, or in the payload of a deferred
    delivery that is still armed. *)
Theorem batch_nothing_lost
    (T : Type) (opts : BatchedUpdatesOptions T) (ins : list (Input T))
    (x : T) :
  keeping (reducer opts) ->
  Forall (@notClear T) ins ->
  x ∈ added ins ->
  held x (run opts ins mount).
Proof.
  intros Hkeep Hnc Hx.
  destruct (inUse_mount T) as [Ht Hr].
  apply held_run; auto using shape_mount.
Qed.

Lemma batch_nothing_lost_witness :
  held 2 (run sizeOptions
            [AddUpdate 1; AddUpdate 2; AddUpdate 3; Flush; AddUpdate 4]
            mount).
Proof.
  apply (@batch_nothing_lost nat sizeOptions
           [AddUpdate 1; AddUpdate 2; AddUpdate 3; Flush; AddUpdate 4] 2).
  - intros acc x y Hy. exact Hy.
  - repeat constructor.
  - vm_compute. right. left.
Defined.

(** X14. When the commit that [clear()] causes keeps the options object
    ([step]), [clear()] invokes no callback and empties the batch, and what
    it discards stays discarded: with a reducer that invents nothing, an
    update that was neither delivered nor in a deferred delivery when
    [clear()] was called is, unless it is added again, never delivered,
    pending or in a deferred delivery afterwards, in runs of one handler
    per tick, re-renders with a new options object between handlers
    included.  X22 is the case in which that commit re-memoises the
    options. *)
Theorem batch_clear_discards
    (T : Type) (opts : BatchedUpdatesOptions T) (h : Hook T)
    (ins : list (Input T)) (x : T) :
  selecting (reducer opts) ->
  x ∉ delivered (log h) ->
  (forall i items, payloadAt h i = Some items -> x ∉ items) ->
  x ∉ added ins ->
  let h0 := step opts h Clear in
  log h0 = log h /\ pendingUpdates h0 = [] /\
  gone x (run opts ins h0).
Proof.
  intros Hsel Hd Hpay Hnew h0.
  destruct (render_frame h (clear h)) as (Hp & Hl & _ & _ & Htm).
  assert (Hlog : log h0 = log h).
  { unfold h0, step. simpl handle. rewrite Hl.
    exact (proj1 (proj2 (clearTimers_frame h))). }
  assert (Hpend : pendingUpdates h0 = []).
  { unfold h0, step. simpl handle. now rewrite Hp. }
  split; [exact Hlog|]. split; [exact Hpend|].
  apply gone_run; [assumption|apply step_synced|assumption|].
  split; [now rewrite Hlog|]. split; [rewrite Hpend; apply not_elem_of_nil|].
  intros i items (t & sz & Hi & Hcb)%payloadAt_Some.
  destruct (timers_origin opts h Clear i Hi Hcb) as [Hold|(u & Hu & _)];
    [|discriminate].
  apply (Hpay i items). apply payloadAt_Some. eauto.
Qed.

Lemma batch_clear_discards_witness :
  let h := run windowOptions [AddUpdate 1; AddUpdate 2] mount in
  let h0 := step windowOptions h Clear in
  log h0 = [] /\ pendingUpdates h0 = [] /\
  gone 1 (run windowOptions [AddUpdate 3; Fires 4; Flush] h0).
Proof.
  intros h h0.
  apply (@batch_clear_discards nat windowOptions h
           [AddUpdate 3; Fires 4; Flush] 1).
  - intros acc x y Hy. apply elem_of_app in Hy as [Hy|Hy]; [now left|].
    right. now apply list_elem_of_singleton in Hy.
  - vm_compute. apply not_elem_of_nil.
  - intros i items Hi. apply payloadAt_Some in Hi as (t & sz & Hi & Hcb).
    assert (Htm : timers h =
                  <[2 := {| cb := CbFlush; delay := 100 |}]>
                    (<[1 := {| cb := CbCountdown; delay := 50 |}]> ∅))
      by reflexivity.
    rewrite Htm, !lookup_insert in Hi.
    repeat case_decide; try (injection Hi as <-; discriminate).
    now rewrite lookup_empty in Hi.
  - vm_compute. intros Hin. apply list_elem_of_singleton in Hin. discriminate.
Defined.

(** X22. When the options object is re-memoised in the commit that
    [clear()] causes (options built inline), the clean-up of the effect
    keyed on [opts] runs on the ref of the previous commit: [onFlush] and
    the consumer receive the batch that [clear()] has just discarded, and
    the batch is empty afterwards. *)
Theorem batch_clear_inline_options_redelivers
    (T : Type) (opts : BatchedUpdatesOptions T) (h : Hook T) :
  pendingUpdatesRef h = pendingUpdates h ->
  pendingUpdates h <> [] ->
  let p := pendingUpdates h in
  let h' := rerender h (clear h) in
  log h' = log h ++ [EvOnFlush p (length p); EvConsumer p] /\
  pendingUpdates h' = [] /\ pendingUpdatesRef h' = [].
Proof.
  intros Hs Hne p h'.
  assert (Hr : pendingUpdatesRef (clear h) <> []).
  { change (pendingUpdatesRef (clearTimers h) <> []).
    rewrite clearTimers_ref, Hs. exact Hne. }
  destruct (@rerender_redelivers T h (clear h) Hr) as (Hl & Hp & _).
  change (rerender h (clear h)) with h' in Hl, Hp.
  change (pendingUpdatesRef (clear h))
    with (pendingUpdatesRef (clearTimers h)) in Hl.
  rewrite clearTimers_ref, Hs in Hl.
  change (log (clear h)) with (log (clearTimers h)) in Hl.
  rewrite (proj1 (proj2 (clearTimers_frame h))) in Hl.
  split; [exact Hl|]. split; [exact Hp|].
  unfold h', rerender. rewrite render_synced.
  fold (rerender h (clear h)). exact Hp.
Qed.

Lemma batch_clear_inline_options_redelivers_witness :
  let h := run windowOptions [AddUpdate 1; AddUpdate 2] mount in
  log h = [] /\
  log (rerender h (clear h)) =
    [EvOnFlush [1; 2] 2; EvConsumer [1; 2]].
Proof.
  intros h. split; [reflexivity|].
  refine (proj1 (@batch_clear_inline_options_redelivers nat windowOptions h
                   _ _)).
  - reflexivity.
  - vm_compute. discriminate.
Defined.

(** X15. The consumer only receives what was added: with a reducer that
    invents nothing, an update never handed to [addUpdate] is never
    delivered, whatever the options, timers and re-renders. *)
Theorem batch_delivers_only_added
    (T : Type) (opts : BatchedUpdatesOptions T) (ins : list (Input T))
    (x : T) :
  selecting (reducer opts) ->
  x ∉ added ins ->
  x ∉ delivered (log (run opts ins mount)).
Proof.
  intros Hsel Hnew.
  apply (@gone_run T opts ins mount x Hsel eq_refl Hnew).
  split; [apply not_elem_of_nil|]. split; [apply not_elem_of_nil|].
  intros i items Hi. unfold payloadAt in Hi. simpl in Hi.
  now rewrite lookup_empty in Hi.
Qed.

Lemma batch_delivers_only_added_witness :
  5 ∉ delivered
        (log (run sizeOptions
                [AddUpdate 1; AddUpdate 2; AddUpdate 3; Fires 3] mount)).
Proof.
  apply (@batch_delivers_only_added nat sizeOptions
           [AddUpdate 1; AddUpdate 2; AddUpdate 3; Fires 3] 5).
  - intros acc x y Hy. apply elem_of_app in Hy as [Hy|Hy]; [now left|].
    right. now apply list_elem_of_singleton in Hy.
  - vm_compute. intros Hin.
    repeat (apply elem_of_cons in Hin as [Hin|Hin]; [discriminate|]).
    now apply elem_of_nil in Hin.
Defined.

(** X16. With [maxBatchSize >= 1], the callbacks come in pairs: every call
    of [onFlush] is followed at once by the consumer's callback with the
    same batch, the size passed to [onFlush] is the length of that batch,
    and no batch is empty. *)
Theorem batch_callbacks_paired
    (T : Type) (opts : BatchedUpdatesOptions T) (ins : list (Input T)) :
  (1 <= maxBatchSize opts)%Z ->
  let l := log (run opts ins mount) in
  l = flushLog (batches l) /\ Forall (fun b => b <> []) (batches l).
Proof.
  intros Hmax l.
  destruct (@flushLog_run T opts ins mount Hmax eq_refl)
    as (_ & bs & Hl & Hne).
  { intros i t items size Hi. simpl in Hi. now rewrite lookup_empty in Hi. }
  simpl in Hl. subst l. rewrite Hl, batches_flushLog. now split.
Qed.

Lemma batch_callbacks_paired_witness :
  let l := log (run sizeOptions
                  [AddUpdate 1; AddUpdate 2; AddUpdate 3; Fires 3;
                   AddUpdate 4; Flush] mount) in
  batches l = [[1; 2; 3]; [4]] /\
  l = flushLog (batches l) /\ Forall (fun b => b <> []) (batches l).
Proof.
  intros l. split; [reflexivity|].
  apply (@batch_callbacks_paired nat sizeOptions
           [AddUpdate 1; AddUpdate 2; AddUpdate 3; Fires 3;
            AddUpdate 4; Flush]).
  simpl. lia.
Defined.

(** X17. As long as the clock does not go backwards, [timeUntilFlush] stays
    between zero and the batch window (zero, for a negative window). *)
Theorem batch_timeUntilFlush_bounds
    (T : Type) (opts : BatchedUpdatesOptions T) (ins : list (Input T)) :
  Forall (@forward T) ins ->
  let h := run opts ins mount in
  (0 <= timeUntilFlush h <= Z.max 0 (batchWindow opts))%Z.
Proof.
  intros Hfw h.
  assert (Hm : timely opts (@mount T)) by (unfold timely; simpl; lia).
  exact (proj2 (timely_run Hfw Hm)).
Qed.

Lemma batch_timeUntilFlush_bounds_witness :
  let h := run windowOptions [AddUpdate 1; Advance 30; Fires 1] mount in
  timeUntilFlush h = 70%Z /\ (0 <= timeUntilFlush h <= 100)%Z.
Proof.
  intros h. split; [reflexivity|].
  apply (@batch_timeUntilFlush_bounds nat windowOptions
           [AddUpdate 1; Advance 30; Fires 1]).
  repeat constructor. simpl. lia.
Defined.

(** X18. At most one countdown poller is armed at any time, and it is the
    one whose handle [countdownRef] holds; [clear()], and [flush()] of a
    non-empty batch, leave none armed. *)
Theorem batch_single_countdown_poller
    (T : Type) (opts : BatchedUpdatesOptions T) (ins : list (Input T)) :
  let h := run opts ins mount in
  (forall i j ti tj,
     timers h !! i = Some ti -> cb ti = CbCountdown ->
     timers h !! j = Some tj -> cb tj = CbCountdown ->
     i = j /\ countdownRef h = Some i) /\
  noCountdown (clear h) /\
  (pendingUpdates h <> [] -> noCountdown (flush h)).
Proof.
  intros h.
  assert (Htr : countdownTracked h).
  { apply poller_run. intros i t Hi. simpl in Hi.
    now rewrite lookup_empty in Hi. }
  split; [|split].
  - intros i j ti tj Hi Hci Hj Hcj.
    pose proof (Htr i ti Hi Hci). pose proof (Htr j tj Hj Hcj).
    split; congruence.
  - exact (noCountdown_clearTimers Htr).
  - intros Hne i t Hi.
    destruct (flush_nonempty h Hne) as (_ & _ & _ & _ & _ & _ & _ & Htm).
    rewrite Htm in Hi. exact (noCountdown_clearTimers Htr i Hi).
Qed.

(** X19. [flush()] and [clear()] are idempotent, and [flush()] after
    [clear()] does nothing. *)
Theorem batch_flush_clear_idempotent (T : Type) (h : Hook T) :
  flush (flush h) = flush h /\
  clear (clear h) = clear h /\
  flush (clear h) = clear h.
Proof.
  split; [|split].
  - destruct (pendingUpdates h) as [|y p] eqn:Hp.
    + now rewrite !(flush_empty h Hp).
    + assert (Hne : pendingUpdates h <> []) by (rewrite Hp; discriminate).
      apply flush_empty. exact (proj1 (flush_nonempty h Hne)).
  - destruct h as [p tuf [i|] [c|] st fst hp pr tm nh clk l]; reflexivity.
  - apply flush_empty. reflexivity.
Qed.

(** X20. The handles kept in [timeoutRef] and [countdownRef] never name a
    deferred delivery, so a delivery deferred by the size or first-update
    path is cancelled neither by [clear()], nor by [flush()], nor by the
    teardown: it stays armed with the same payload. *)
Theorem batch_deferred_delivery_survives
    (T : Type) (opts : BatchedUpdatesOptions T) (ins : list (Input T))
    (i : nat) (items : list T) :
  let h := run opts ins mount in
  payloadAt h i = Some items ->
  timeoutRef h <> Some i /\ countdownRef h <> Some i /\
  payloadAt (clear h) i = Some items /\
  payloadAt (flush h) i = Some items /\
  payloadAt (unmount h) i = Some items.
Proof.
  intros h Hi.
  destruct (inUse_mount T) as [Ht0 Hr0].
  destruct (inUse_run opts ins Ht0 Hr0) as [Ht Hr]. fold h in Ht, Hr.
  destruct (inUse_clearTimers Ht Hr) as (_ & _ & _ & Hpc).
  destruct (inUse_flush Ht Hr) as (_ & _ & Hpf).
  split; [|split; [|split; [|split]]].
  - intros Href. destruct (Hr i (or_introl Href)) as [_ Hnone]. congruence.
  - intros Href. destruct (Hr i (or_intror Href)) as [_ Hnone]. congruence.
  - exact (Hpc i items Hi).
  - exact (Hpf i items Hi).
  - unfold unmount, payloadAt.
    rewrite (proj1 (proj2 (proj2 (proj2
               (flushPendingCleanup_frame (clearTimers h)))))).
    exact (Hpc i items Hi).
Qed.

Lemma batch_deferred_delivery_survives_witness :
  let h := run sizeOptions
             [AddUpdate 1; AddUpdate 2; AddUpdate 3; AddUpdate 4] mount in
  payloadAt h 3 = Some [1; 2; 3] /\
  payloadAt (clear h) 3 = Some [1; 2; 3] /\
  payloadAt (unmount h) 3 = Some [1; 2; 3].
Proof.
  intros h. split; [reflexivity|].
  destruct (@batch_deferred_delivery_survives nat sizeOptions
              [AddUpdate 1; AddUpdate 2; AddUpdate 3; AddUpdate 4]
              3 [1; 2; 3] eq_refl) as (_ & _ & Hc & _ & Hu).
  split; [exact Hc|exact Hu].
Defined.

End BatchRuns.
